(** * bplib.extract: emote extraction from a stylesheet

A shallow embedding of [src/bplib/extract.py] and the properties of
its stages: selector parsing, PONYSCRIPT-IGNORE filtering, merging of
partial emotes, collapsing of pseudo-class variants, classification
and spritesheet grouping.

Conventions of the embedding.
- A Python [str] is a [string]; every [ascii] stands for the code
  point of the same number (0..255).
- A Python [dict] is an association list in insertion order whose
  keys are pairwise distinct ([Dict.wf]).
- [print] appends a [message] to a log; a message carries the
  arguments of the format string of the corresponding [print].
- Objects are values: every rule, every partial emote and every
  property map is owned by one place only, as the parser and
  [extract_raw_emotes] (which copies the property map at each yield)
  produce them.  [Store] has [classify_emotes] and
  [build_spritesheet_map] on emotes whose property dictionaries may be
  shared, with the pop of "background-image" done in place. *)

From Stdlib Require Import Ascii NArith ZArith Lia.
From Stdlib Require String.
From stdpp Require Import base option list gmap strings.

#[local] Set Warnings "-clear-no-such-hyp".

Local Open Scope N_scope.

(** ** Characters as the [re] module classifies them *)

Module Chars.

Definition code (c : ascii) : N := N_of_ascii c.

Definition between (lo hi : N) (c : ascii) : bool :=
  (lo <=? code c) && (code c <=? hi).

Definition is_char (x : ascii) (c : ascii) : bool := Ascii.eqb x c.

Definition ascii_letter (c : ascii) : bool :=
  between 97 122 c || between 65 90 c.

Definition ascii_digit (c : ascii) : bool := between 48 57 c.

(** [\w] on [str] patterns: alphanumeric code points and the
    underscore.  Below 256 the alphanumerics outside ASCII are
    U+AA, U+B2, U+B3, U+B5, U+B9, U+BA, U+BC..U+BE, U+C0..U+D6,
    U+D8..U+F6 and U+F8..U+FF. *)
Definition word (c : ascii) : bool :=
  ascii_letter c || ascii_digit c || is_char "_" c
  || (code c =? 170) || between 178 179 c || (code c =? 181)
  || between 185 186 c || between 188 190 c
  || between 192 214 c || between 216 246 c || between 248 255 c.

(** [\s] on [str] patterns: Unicode white space; below 256 these are
    U+09..U+0D, U+1C..U+20, U+85 and U+A0. *)
Definition space (c : ascii) : bool :=
  between 9 13 c || between 28 32 c || (code c =? 133) || (code c =? 160).

Definition newline : ascii := "010".

(** [.] without DOTALL: anything but a newline. *)
Definition dot (c : ascii) : bool := negb (is_char newline c).

(** [[a-zA-Z\-()]] *)
Definition pseudo (c : ascii) : bool :=
  ascii_letter c || is_char "-" c || is_char "(" c || is_char ")" c.

(** [[\w:!]] *)
Definition name (c : ascii) : bool :=
  word c || is_char ":" c || is_char "!" c.

End Chars.

(** ** A backtracking matcher for the fragment of [re] the module uses *)

Module Re.

Inductive regex : Type :=
| Chr (p : ascii → bool)          (* one character of a class *)
| Seq (r1 r2 : regex)             (* r1 r2 *)
| Opt (r : regex)                 (* r?   greedy *)
| Star (p : ascii → bool)         (* [p]* greedy, on a character class *)
| Group (n : nat) (r : regex)     (* (r)  capturing group number n *)
| Eos.                            (* $    without MULTILINE *)

(** A literal string is the sequence of its characters. *)
Fixpoint Lit (l : string) (r : regex) : regex :=
  match l with
  | EmptyString => r
  | String c l' => Seq (Chr (Chars.is_char c)) (Lit l' r)
  end.

(** [[p]+] *)
Definition Plus (p : ascii → bool) : regex := Seq (Chr p) (Star p).

(** The groups set so far, most recent first. *)
Definition groups : Type := list (nat * string).

Fixpoint group (g : groups) (n : nat) : option string :=
  match g with
  | [] => None
  | (m, s) :: g' => if Nat.eqb m n then Some s else group g' n
  end.

(** What was consumed between [s] and its suffix [s']. *)
Definition consumed (s s' : string) : string :=
  String.substring 0 (String.length s - String.length s') s.

(** [$] matches at the end of the string and just before a newline
    that ends the string. *)
Definition at_end (s : string) : bool :=
  match s with
  | EmptyString => true
  | String c EmptyString => Chars.is_char Chars.newline c
  | _ => false
  end.

Section Matcher.
Context {A : Type}.

(** Greedy repetition of a class: the longest run first, then one
    character less, and so on. *)
Fixpoint star (p : ascii → bool) (s : string) (g : groups)
    (k : string → groups → option A) : option A :=
  match s with
  | String c t =>
      if p c then
        match star p t g k with
        | Some x => Some x
        | None => k s g
        end
      else k s g
  | EmptyString => k s g
  end.

(** [run r s g k]: match [r] at the start of [s] and hand the rest of
    the string to [k]; the first alternative for which [k] succeeds
    is the result. *)
Fixpoint run (r : regex) (s : string) (g : groups)
    (k : string → groups → option A) : option A :=
  match r with
  | Chr p =>
      match s with
      | String c t => if p c then k t g else None
      | EmptyString => None
      end
  | Seq r1 r2 => run r1 s g (λ s1 g1, run r2 s1 g1 k)
  | Opt r1 =>
      match run r1 s g k with
      | Some x => Some x
      | None => k s g
      end
  | Star p => star p s g k
  | Group n r1 =>
      run r1 s g (λ s1 g1, k s1 ((n, consumed s s1) :: g1))
  | Eos => if at_end s then k s g else None
  end.
End Matcher.

(** [re.match(r, s)]: anchored at the start, the groups of the first
    successful alternative. *)
Definition re_match (r : regex) (s : string) : option groups :=
  run r s [] (λ _ g, Some g).

End Re.

Local Close Scope N_scope.

(** ** Messages printed by the module *)

Definition name_pair : Type := string * option string.

Inductive message : Type :=
| WarnSplit (selector : string)
    (* "WARNING: Selector %r split across PONYSCRIPT-IGNORE block!" *)
| NoticeExtract (key : name_pair)
    (* "NOTICE: Extracting ignored emote" *)
| WarnMultiplePseudo (selector : string)
    (* "WARNING: Selector %r has multiple psuedo classes" *)
| WarnUnknownPseudo (selector : string)
    (* "WARNING: Unknown psuedo-class on %r" *)
| WarnRedefined (key : name_pair) (property old new : string)
    (* "WARNING: emote %r redefined property %r from base (from %r to %r)" *)
| WarnExtraProperty (key : name_pair) (property value : string)
    (* "WARNING: emote %r has extra property %r (%r)" *)
| ErrorMultipleUnsized (image_url : string) (keys : list name_pair).
    (* "ERROR: Multiple unsized emotes within spritesheet %r: %s" *)

Global Instance message_eq_dec : EqDecision message.
Proof. solve_decision. Defined.

(** ** _parse_emote_selector *)

(** The double quote character, and the one-character string of it. *)
Definition dquote : ascii := "034".
Definition dq : string := String dquote "".

(** [(:[a-zA-Z\-()]+)] as group [n]. *)
Definition pseudo_re (n : nat) : Re.regex :=
  Re.Group n (Re.Lit ":" (Re.Plus Chars.pseudo)).

(** [a\s*(:[a-zA-Z\-()]+)?\[href.?="(/[\w:!]+)"\](:[a-zA-Z\-()]+)?$] *)
Definition emote_re : Re.regex :=
  Re.Lit "a"
  (Re.Seq (Re.Star Chars.space)
  (Re.Seq (Re.Opt (pseudo_re 1))
  (Re.Lit "[href"
  (Re.Seq (Re.Opt (Re.Chr Chars.dot))
  (Re.Lit ("=" +:+ dq)
  (Re.Seq (Re.Group 2 (Re.Lit "/" (Re.Plus Chars.name)))
  (Re.Lit (dq +:+ "]")
  (Re.Seq (Re.Opt (pseudo_re 3))
   Re.Eos)))))))).

(** Truth value of a group: [None] and the empty string are false. *)
Definition truthy (o : option string) : bool :=
  match o with
  | Some s => negb (String.eqb s "")
  | None => false
  end.

(** [a or b] *)
Definition py_or (a b : option string) : option string :=
  if truthy a then a else b.

(** What is printed, and the pair returned ([None] for Python's [None]). *)
Definition _parse_emote_selector (selector : string)
  : list message * option name_pair :=
  match Re.re_match emote_re selector with
  | None => ([], None)
  | Some m =>
      let pc1 := Re.group m 1 in
      (* group 2 is not optional: it is set on every match *)
      let emote_name := default "" (Re.group m 2) in
      let pc2 := Re.group m 3 in
      let log1 :=
        if truthy pc1 && truthy pc2
        then [WarnMultiplePseudo selector] else [] in
      let psuedo_class := py_or pc1 pc2 in
      match psuedo_class with
      | Some pc =>
          if truthy psuedo_class then
            if bool_decide (pc = ":hover" ∨ pc = ":active") then
              (log1, Some (emote_name, Some pc))
            else if bool_decide (pc ≠ ":nth-of-type(n)") then
              (log1 ++ [WarnUnknownPseudo selector], Some (emote_name, Some pc))
            else (log1, Some (emote_name, None))
          else (log1, Some (emote_name, None))
      | None => (log1, Some (emote_name, None))
      end
  end.

(** The selector [a<ws><pc1>[href<op>="<path>"]<pc2><tail>], from its
    parts. *)
Definition sel (ws pc1 op path pc2 tail : string) : string :=
  "a" +:+ ws +:+ pc1 +:+ "[href" +:+ op +:+ "=" +:+ dq +:+ path +:+ dq
      +:+ "]" +:+ pc2 +:+ tail.

(** ** Python dictionaries *)

Module Dict.
Section Ops.
Context {K V : Type} `{EqDecision K}.

Definition t : Type := list (K * V).

(** [d.get(k)] *)
Fixpoint get (d : t) (k : K) : option V :=
  match d with
  | [] => None
  | (k', v) :: d' => if decide (k' = k) then Some v else get d' k
  end.

(** [k in d] *)
Definition contains (d : t) (k : K) : bool :=
  match get d k with Some _ => true | None => false end.

(** [d[k] = v]: an existing key keeps its place, a new one goes last. *)
Fixpoint set_item (d : t) (k : K) (v : V) : t :=
  match d with
  | [] => [(k, v)]
  | (k', v') :: d' =>
      if decide (k' = k) then (k', v) :: d'
      else (k', v') :: set_item d' k v
  end.

(** [del d[k]] for a key that is present. *)
Fixpoint del (d : t) (k : K) : t :=
  match d with
  | [] => []
  | (k', v') :: d' =>
      if decide (k' = k) then d' else (k', v') :: del d' k
  end.

(** [d.update(d2)] *)
Definition update (d d2 : t) : t :=
  fold_left (λ acc kv, set_item acc kv.1 kv.2) d2 d.

Definition keys (d : t) : list K := d.*1.

(** Keys of a dictionary are pairwise distinct. *)
Definition wf (d : t) : Prop := NoDup (keys d).
End Ops.
Global Arguments t : clear implicits.
End Dict.

(** ** Rules and emotes *)

(** Modelled from the spec: the class [bplib.css.CssRule] is declared
    outside [extract.py].  Section 3 gives it an ordered sequence of
    selector strings, an ordered property map and the [ignore] flag; the
    field names are those the code reads and writes. *)
Record CssRule : Type := mkRule {
  selectors : list string;
  properties : Dict.t string string;
  ignore : bool
}.

(** Modelled from the spec: the class [bplib.emote.PartialEmote] is
    declared outside [extract.py].  Section 3 gives it a name, a suffix
    that may be null and a property map, in the order of the constructor
    call; the merged emotes are of this class too. *)
Record PartialEmote : Type := mkPartial {
  name : string;
  suffix : option string;
  css : Dict.t string string
}.

(** Modelled from the spec: the class [bplib.emote.CustomEmote] is
    declared outside [extract.py]; the same data as a merged emote. *)
Record CustomEmote : Type := mkCustom {
  c_name : string;
  c_suffix : option string;
  c_css : Dict.t string string
}.

(** Modelled from the spec: the class [bplib.emote.NormalEmote] is
    declared outside [extract.py].  Section 3 gives it the name, the
    suffix, the properties left over, the image url, the size and an
    offset that is null until validated. *)
Record NormalEmote : Type := mkNormal {
  n_name : string;
  n_suffix : option string;
  n_css : Dict.t string string;
  n_image_url : string;
  n_size : Z * Z;
  n_offset : option (Z * Z)
}.

(** Modelled from the spec: the class [bplib.file.Spritesheet] is
    declared outside [extract.py]: an image url and the map of its emotes. *)
Record Spritesheet : Type := mkSheet {
  ss_image_url : string;
  ss_emotes : Dict.t name_pair NormalEmote
}.

Global Instance PartialEmote_eq_dec : EqDecision PartialEmote.
Proof. solve_decision. Defined.
Global Instance CustomEmote_eq_dec : EqDecision CustomEmote.
Proof. solve_decision. Defined.
Global Instance NormalEmote_eq_dec : EqDecision NormalEmote.
Proof. solve_decision. Defined.

Definition emote_map : Type := Dict.t name_pair PartialEmote.

(** ** filter_ponyscript_ignores *)

Definition START : string := "START-PONYSCRIPT-IGNORE".
Definition END_ : string := "END-PONYSCRIPT-IGNORE".

(** The inner loop over one rule's selectors: each goes into [add_to],
    and is reported when [refuse_in] holds it. *)
Fixpoint split_detection (add_to refuse_in : gset string)
    (sels : list string) : gset string * list message :=
  match sels with
  | [] => (add_to, [])
  | selector :: rest =>
      let add_to := {[selector]} ∪ add_to in
      let warn :=
        if bool_decide (selector ∈ refuse_in)
        then [WarnSplit selector] else [] in
      let '(add_to, log) := split_detection add_to refuse_in rest in
      (add_to, warn ++ log)
  end.

Definition set_ignore (rule : CssRule) (b : bool) : CssRule :=
  mkRule (selectors rule) (properties rule) b.

(** The loop over the rules, from the state [(visible, hidden, ignoring)]:
    the rules with their flag assigned, and what was printed. *)
Fixpoint filter_loop (visible hidden : gset string) (ignoring : bool)
    (css_rules : list CssRule) : list CssRule * list message :=
  match css_rules with
  | [] => ([], [])
  | rule :: rest =>
      let ignoring :=
        if bool_decide (START ∈ selectors rule) then true else ignoring in
      let '(visible, hidden, log) :=
        if ignoring then
          let '(h, l) := split_detection hidden visible (selectors rule) in
          (visible, h, l)
        else
          let '(v, l) := split_detection visible hidden (selectors rule) in
          (v, hidden, l) in
      let rule' := set_ignore rule ignoring in
      let ignoring :=
        if bool_decide (END_ ∈ selectors rule) then false else ignoring in
      let '(rules', log') := filter_loop visible hidden ignoring rest in
      (rule' :: rules', log ++ log')
  end.

Definition filter_ponyscript_ignores (css_rules : list CssRule)
  : list CssRule * list message :=
  filter_loop ∅ ∅ false css_rules.

(** ** extract_raw_emotes *)

(** What a generator does, in order: it prints, and it yields. *)
Inductive gen_step : Type :=
| GPrint (m : message)
| GYield (e : PartialEmote).

(** [[_parse_emote_selector(s) for s in rule.selectors]] *)
Fixpoint parse_selectors (sels : list string)
  : list message * list (option name_pair) :=
  match sels with
  | [] => ([], [])
  | s :: rest =>
      let '(log, r) := _parse_emote_selector s in
      let '(log', rs) := parse_selectors rest in
      (log ++ log', r :: rs)
  end.

Section Extract.
  (** [bplib.emote.combine_name_pair] and [args.extract]. *)
Variable combine_name_pair : string → option string → string.
Variable args_extract : list string.

Definition extract_pair (rule : CssRule) (p : name_pair) : list gen_step :=
  let '(name, suffix) := p in
  let extract_explicit :=
    bool_decide (combine_name_pair name suffix ∈ args_extract) in
  (if extract_explicit then [GPrint (NoticeExtract (name, suffix))] else [])
  ++ (if extract_explicit || negb (ignore rule)
      then [GYield (mkPartial name suffix (properties rule))] else []).

Definition extract_rule (rule : CssRule) : list gen_step :=
  let '(log, results) := parse_selectors (selectors rule) in
  (* filter(None, ...) keeps the pairs *)
  let alias_pairs := omap id results in
  (GPrint <$> log) ++ concat (extract_pair rule <$> alias_pairs).

Definition extract_raw_emotes (css_rules : list CssRule) : list gen_step :=
  concat (extract_rule <$> css_rules).
End Extract.

(** ** build_emote_map *)

(** The warnings of the loop over [raw_emote.css.items()]. *)
Definition redefinitions (key : name_pair)
    (base_props new_props : Dict.t string string) : list message :=
  concat ((λ pv : string * string,
     match Dict.get base_props pv.1 with
     | Some old =>
         if bool_decide (old ≠ pv.2)
         then [WarnRedefined key pv.1 old pv.2] else []
     | None => []
     end) <$> new_props).

Definition set_css (e : PartialEmote) (c : Dict.t string string)
  : PartialEmote := mkPartial (name e) (suffix e) c.

(** One iteration of the loop of [build_emote_map]. *)
Definition merge_emote (emotes : emote_map) (raw_emote : PartialEmote)
  : emote_map * list message :=
  let key := (name raw_emote, suffix raw_emote) in
  match Dict.get emotes key with
  | None => (Dict.set_item emotes key raw_emote, [])
  | Some base =>
      let base_props := css base in
      (Dict.set_item emotes key
         (set_css base (Dict.update base_props (css raw_emote))),
       redefinitions key base_props (css raw_emote))
  end.

(** The loop, driven by the steps of the generator it consumes. *)
Fixpoint build_loop (emotes : emote_map) (steps : list gen_step)
  : emote_map * list message :=
  match steps with
  | [] => (emotes, [])
  | GPrint m :: rest =>
      let '(r, log) := build_loop emotes rest in (r, m :: log)
  | GYield raw_emote :: rest =>
      let '(emotes, log) := merge_emote emotes raw_emote in
      let '(r, log') := build_loop emotes rest in (r, log ++ log')
  end.

Definition build_emote_map_gen (steps : list gen_step)
  : emote_map * list message := build_loop [] steps.

(** [build_emote_map] on a plain sequence of partial emotes. *)
Definition build_emote_map (partial_emotes : list PartialEmote)
  : emote_map * list message :=
  build_emote_map_gen (GYield <$> partial_emotes).

(** ** collapse_specials_properties *)

Definition collapse_emote (emotes : emote_map) (emote : PartialEmote)
  : PartialEmote :=
  if truthy (suffix emote) then
    match Dict.get emotes (name emote, None) with
    | Some base_emote =>
        set_css emote (Dict.update (css base_emote) (css emote))
    | None => emote
    end
  else emote.

(** The loop over [emotes.values()]: [done] are the entries already
    visited, [todo] the rest; the map in force is [done ++ todo]. *)
Fixpoint collapse_loop (done todo : emote_map) : emote_map :=
  match todo with
  | [] => done
  | (k, emote) :: rest =>
      collapse_loop (done ++ [(k, collapse_emote (done ++ todo) emote)]) rest
  end.

Definition collapse_specials_properties (emotes : emote_map) : emote_map :=
  collapse_loop [] emotes.

(** ** classify_emotes *)

Definition required_properties : list string :=
  ["background-image"; "width"; "height"].

Definition is_normal (e : PartialEmote) : bool :=
  forallb (Dict.contains (css e)) required_properties.

Definition to_custom (e : PartialEmote) : CustomEmote :=
  mkCustom (name e) (suffix e) (css e).

Fixpoint classify_loop (normal_emotes : emote_map)
    (custom_emotes : Dict.t name_pair CustomEmote)
    (items : emote_map)
  : emote_map * Dict.t name_pair CustomEmote :=
  match items with
  | [] => (normal_emotes, custom_emotes)
  | (key, emote) :: rest =>
      if is_normal emote then
        classify_loop (Dict.set_item normal_emotes key emote)
                      custom_emotes rest
      else
        classify_loop normal_emotes
                      (Dict.set_item custom_emotes key (to_custom emote)) rest
  end.

Definition classify_emotes (emotes : emote_map)
  : emote_map * Dict.t name_pair CustomEmote :=
  classify_loop [] [] emotes.

(** ** Computations that print and may raise *)

Inductive exn : Type :=
| KeyError (key : string)        (* [d.pop(k)] on a missing key *)
| CssValueError (raw : string).  (* raised by a [bplib.css] utility *)

Inductive result (A : Type) : Type :=
| Ok (a : A)
| Raise (e : exn).
Global Arguments Ok {A} a.
Global Arguments Raise {A} e.

(** What was printed, and how the computation ended. *)
Definition M (A : Type) : Type := list message * result A.

Global Instance M_ret : MRet M := λ A a, ([], Ok a).
Definition raise {A} (e : exn) : M A := ([], Raise e).

Global Instance M_bind : MBind M := λ A B f c,
  match c with
  | (log, Ok a) => let '(log', r) := f a in (log ++ log', r)
  | (log, Raise e) => (log, Raise e)
  end.

(** A pure step that prints. *)
Definition lift {A} (c : A * list message) : M A := (c.2, Ok c.1).

(** [d.pop(k)] *)
Definition pop (d : Dict.t string string) (k : string)
  : M (string * Dict.t string string) :=
  match Dict.get d k with
  | Some v => mret (v, Dict.del d k)
  | None => raise (KeyError k)
  end.

(** [if prop in css: del css[prop]] *)
Definition try_pop (d : Dict.t string string) (prop : string)
  : Dict.t string string :=
  if Dict.contains d prop then Dict.del d prop else d.

(** ** _verify_spritesheet *)

(** The loop over [ss.emotes.items()]: the emotes with their offsets
    set, and the keys appended to [unpositioned_emotes]. *)
Fixpoint verify_loop (items : Dict.t name_pair NormalEmote)
  : Dict.t name_pair NormalEmote * list name_pair :=
  match items with
  | [] => ([], [])
  | (key, emote) :: rest =>
      let '(rest', unpositioned) := verify_loop rest in
      match n_offset emote with
      | None =>
          ((key, mkNormal (n_name emote) (n_suffix emote) (n_css emote)
                   (n_image_url emote) (n_size emote) (Some (0, 0)%Z))
             :: rest',
           key :: unpositioned)
      | Some _ => ((key, emote) :: rest', unpositioned)
      end
  end.

Definition _verify_spritesheet (image_url : string) (ss : Spritesheet)
  : Spritesheet * list message :=
  let '(emotes, unpositioned_emotes) := verify_loop (ss_emotes ss) in
  (mkSheet (ss_image_url ss) emotes,
   if decide (1 < length unpositioned_emotes)
   then [ErrorMultipleUnsized image_url unpositioned_emotes] else []).

(** The second loop of [build_spritesheet_map]. *)
Fixpoint verify_all (spritesheets : Dict.t string Spritesheet)
  : Dict.t string Spritesheet * list message :=
  match spritesheets with
  | [] => ([], [])
  | (image_url, ss) :: rest =>
      let '(ss', log) := _verify_spritesheet image_url ss in
      let '(rest', log') := verify_all rest in
      ((image_url, ss') :: rest', log ++ log')
  end.

(** ** _convert_emote and build_spritesheet_map *)

Section Spritesheets.
  (** The utilities of [bplib.css]; [None] stands for a raised error. *)
Variable as_url : string → option string.
Variable as_size : string → option Z.
Variable as_position : string → Z → Z → option (Z * Z).

Definition call {A} (f : string → option A) (raw : string) : M A :=
  match f raw with
  | Some a => mret a
  | None => raise (CssValueError raw)
  end.

(** The final loop of [_convert_emote] over the properties left. *)
Definition extra_properties (key : name_pair) (css : Dict.t string string)
  : list message :=
  concat ((λ pv : string * string,
     if bool_decide (pv.1 ∉ ["margin-left"; "margin-right"])
     then [WarnExtraProperty key pv.1 pv.2] else []) <$> css).

Definition _convert_emote (key : name_pair) (image_url : string)
    (raw_emote : PartialEmote) : M NormalEmote :=
  let css := css raw_emote in
  let css := try_pop css "display" in
  let css := try_pop css "clear" in
  let css := try_pop css "float" in
  '(w, css) ← pop css "width";
  width ← call as_size w;
  '(h, css) ← pop css "height";
  height ← call as_size h;
  let size := (width, height) in
  '(offset, css) ←
    (if Dict.contains css "background-position" then
       '(p, css) ← pop css "background-position";
       o ← call (λ raw, as_position raw width height) p;
       mret (Some o, css)
     else mret (None, css));
  let css := try_pop css "background-repeat" in
  _ ← lift (tt, extra_properties key css);
  mret (mkNormal key.1 key.2 css image_url size offset).

(** The first loop of [build_spritesheet_map].  The [pop] of
    "background-image" acts on the emote handed in; the converted
    emote is built from what is left. *)
Fixpoint group_loop (spritesheets : Dict.t string Spritesheet)
    (items : emote_map) : M (Dict.t string Spritesheet) :=
  match items with
  | [] => mret spritesheets
  | (key, raw_emote) :: rest =>
      '(bg, css') ← pop (css raw_emote) "background-image";
      image_url ← call as_url bg;
      let raw_emote := set_css raw_emote css' in
      let spritesheets :=
        if Dict.contains spritesheets image_url then spritesheets
        else Dict.set_item spritesheets image_url (mkSheet image_url []) in
      emote ← _convert_emote key image_url raw_emote;
      let spritesheets :=
        match Dict.get spritesheets image_url with
        | Some ss =>
            Dict.set_item spritesheets image_url
              (mkSheet (ss_image_url ss)
                 (Dict.set_item (ss_emotes ss) key emote))
        | None => spritesheets
        end in
      group_loop spritesheets rest
  end.

Definition build_spritesheet_map (emotes : emote_map)
  : M (Dict.t string Spritesheet) :=
  spritesheets ← group_loop [] emotes;
  lift (verify_all spritesheets).

(** ** The stages in sequence *)

Variable combine_name_pair : string → option string → string.

(** Modelled from the spec: the driver that chains the stages is not
    part of [extract.py]; section 2 of the specification gives their
    order, each stage consuming the whole output of the one before:
    ignore filter, partial-emote extractor, emote map builder, specials
    collapser, emote classifier, spritesheet map builder.  The result is
    the pair of the spritesheet map and the custom-emote map. *)
Definition pipeline (args_extract : list string) (css_rules : list CssRule)
  : M (Dict.t string Spritesheet * Dict.t name_pair CustomEmote) :=
  css_rules ← lift (filter_ponyscript_ignores css_rules);
  emotes ← lift (build_emote_map_gen
                   (extract_raw_emotes combine_name_pair args_extract
                      css_rules));
  let emotes := collapse_specials_properties emotes in
  let '(normal_emotes, custom_emotes) := classify_emotes emotes in
  spritesheets ← build_spritesheet_map normal_emotes;
  mret (spritesheets, custom_emotes).
End Spritesheets.

(** ** Emotes that share a property dictionary

    [classify_emotes] and [build_spritesheet_map] are handed emote
    objects, and [build_spritesheet_map] pops "background-image" from
    the property dictionary of the emote itself
    ([raw_emote.css.pop("background-image")]), before [_convert_emote]
    copies what is left.  When the same dictionary is reached from two
    entries of the map, the second entry finds it without its
    "background-image".  Here the property dictionaries live in a heap,
    an emote holds the address of its dictionary, and the pop is a write
    to the heap. *)

Module Store.

(** The property dictionaries, by address. *)
Definition heap : Type := nat → Dict.t string string.

(** The heap after a write to the dictionary at [r]. *)
Definition write (h : heap) (r : nat) (d : Dict.t string string) : heap :=
  λ r', if decide (r' = r) then d else h r'.

(** An emote object: [css] is the address of its dictionary. *)
Record Emote : Type := mkEmote {
  name : string;
  suffix : option string;
  css : nat
}.

(** A custom emote; [CustomEmote(emote.name, emote.suffix, emote.css)]
    keeps the dictionary of the emote it is made from. *)
Record CustomEmote : Type := mkCustom {
  c_name : string;
  c_suffix : option string;
  c_css : nat
}.

Definition emote_map : Type := Dict.t name_pair Emote.

(** The emote with the dictionary it holds at present. *)
Definition deref (h : heap) (e : Emote) : PartialEmote :=
  mkPartial (name e) (suffix e) (h (css e)).

(** *** classify_emotes *)

Definition to_custom (e : Emote) : CustomEmote :=
  mkCustom (name e) (suffix e) (css e).

Fixpoint classify_loop (h : heap) (normal_emotes : emote_map)
    (custom_emotes : Dict.t name_pair CustomEmote) (items : emote_map)
  : emote_map * Dict.t name_pair CustomEmote :=
  match items with
  | [] => (normal_emotes, custom_emotes)
  | (key, emote) :: rest =>
      if is_normal (deref h emote) then
        classify_loop h (Dict.set_item normal_emotes key emote)
                      custom_emotes rest
      else
        classify_loop h normal_emotes
                      (Dict.set_item custom_emotes key (to_custom emote)) rest
  end.

Definition classify_emotes (h : heap) (emotes : emote_map)
  : emote_map * Dict.t name_pair CustomEmote :=
  classify_loop h [] [] emotes.

(** *** build_spritesheet_map *)

Section Spritesheets.
Variable as_url : string → option string.
Variable as_size : string → option Z.
Variable as_position : string → Z → Z → option (Z * Z).

(** The first loop; the heap is the one left by the rounds before. *)
Fixpoint group_loop (h : heap) (spritesheets : Dict.t string Spritesheet)
    (items : emote_map) : M (heap * Dict.t string Spritesheet) :=
  match items with
  | [] => mret (h, spritesheets)
  | (key, raw_emote) :: rest =>
      '(bg, css') ← pop (h (css raw_emote)) "background-image";
      let h := write h (css raw_emote) css' in
      image_url ← call as_url bg;
      let spritesheets :=
        if Dict.contains spritesheets image_url then spritesheets
        else Dict.set_item spritesheets image_url (mkSheet image_url []) in
      emote ← _convert_emote as_size as_position key image_url
                 (deref h raw_emote);
      let spritesheets :=
        match Dict.get spritesheets image_url with
        | Some ss =>
            Dict.set_item spritesheets image_url
              (mkSheet (ss_image_url ss)
                 (Dict.set_item (ss_emotes ss) key emote))
        | None => spritesheets
        end in
      group_loop h spritesheets rest
  end.

(** The heap it leaves, and the spritesheets it returns. *)
Definition build_spritesheet_map (h : heap) (emotes : emote_map)
  : M (heap * Dict.t string Spritesheet) :=
  '(h, spritesheets) ← group_loop h [] emotes;
  spritesheets ← lift (verify_all spritesheets);
  mret (h, spritesheets).
End Spritesheets.
End Store.

(** * Definitions used to state the properties *)

(** ** The ignore flags and the split warnings *)

(** The flag a rule receives when the loop reaches it in state
    [ignoring], and the state in which the loop leaves it. *)
Definition flag_of (ignoring : bool) (rule : CssRule) : bool :=
  if bool_decide (START ∈ selectors rule) then true else ignoring.

Definition state_after (ignoring : bool) (rule : CssRule) : bool :=
  if bool_decide (END_ ∈ selectors rule) then false
  else flag_of ignoring rule.

Fixpoint flags_from (ignoring : bool) (rules : list CssRule) : list bool :=
  match rules with
  | [] => []
  | rule :: rest =>
      flag_of ignoring rule :: flags_from (state_after ignoring rule) rest
  end.

Definition state_after_all (ignoring : bool) (rules : list CssRule) : bool :=
  foldl state_after ignoring rules.

(** A rule with the given selectors, as the parser hands it over. *)
Definition rule_of (sels : list string) : CssRule := mkRule sels [] false.

(** The flags [filter_ponyscript_ignores] assigns, in rule order. *)
Definition flags_of (css_rules : list CssRule) : list bool :=
  ignore <$> (filter_ponyscript_ignores css_rules).1.

(** How often the warning for [x] is in a log. *)
Definition split_warnings (x : string) (log : list message) : nat :=
  length (filter (λ m, m = WarnSplit x) log).

(** How often [x] is among the selectors of one rule, and among those
    of the rules whose flag is [b]. *)
Definition occurrences (x : string) (sels : list string) : nat :=
  length (filter (λ y, y = x) sels).

Definition occurrences_in (x : string) (b : bool) (rules : list CssRule)
  : nat :=
  sum_list ((λ r, if bool_decide (ignore r = b)
                  then occurrences x (selectors r) else 0) <$> rules).

(** The loop seen from [x]: all that matters of the two sets is
    whether they hold [x]. *)
Fixpoint warnings_from (x : string) (inV inH ign : bool)
    (rules : list CssRule) : nat :=
  match rules with
  | [] => 0
  | r :: rest =>
      let o := occurrences x (selectors r) in
      if flag_of ign r then
        (if inV then o else 0)
        + warnings_from x inV (inH || bool_decide (0 < o))
            (state_after ign r) rest
      else
        (if inH then o else 0)
        + warnings_from x (inV || bool_decide (0 < o)) inH
            (state_after ign r) rest
  end.

(** Occurrences among the rules that get flag [b]. *)
Fixpoint occ_from (x : string) (b ign : bool) (rules : list CssRule) : nat :=
  match rules with
  | [] => 0
  | r :: rest =>
      (if bool_decide (flag_of ign r = b)
       then occurrences x (selectors r) else 0)
      + occ_from x b (state_after ign r) rest
  end.

Global Instance wf_dec {K V : Type} `{EqDecision K} (d : Dict.t K V) :
  Decision (Dict.wf d).
Proof. unfold Dict.wf. apply _. Defined.

(** ** Merged emotes, variants and spritesheets *)

Definition key_of (e : PartialEmote) : name_pair := (name e, suffix e).

(** The values the fragments with key [key] give to property [p], in
    the order of the fragments. *)
Definition definitions (key : name_pair) (p : string)
    (partial_emotes : list PartialEmote) : list string :=
  omap (λ e, if decide (key_of e = key) then Dict.get (css e) p else None)
       partial_emotes.

(** The value of property [p] of the emote at [key], if any. *)
Definition property_of (emotes : emote_map) (key : name_pair) (p : string)
  : option string :=
  e ← Dict.get emotes key; Dict.get (css e) p.

(** Two fragments of one emote, the second redefining the width. *)
Definition width_5 : PartialEmote := mkPartial "/aj" None [("width", "5")].
Definition width_10 : PartialEmote :=
  mkPartial "/aj" None [("width", "10"); ("height", "7")].

(** Every emote sits at the key made of its own name and suffix, as
    [build_emote_map] places it. *)
Definition keyed (emotes : emote_map) : Prop :=
  Forall (λ ke, ke.1 = key_of ke.2) emotes.

(** What becomes of one entry, with respect to the map handed in. *)
Definition collapse_entry (emotes : emote_map)
    (ke : name_pair * PartialEmote)
  : name_pair * PartialEmote := (ke.1, collapse_emote emotes ke.2).

(** A base emote with the three required properties. *)
Definition aj_base : PartialEmote :=
  mkPartial "/aj" None
    [("background-image", "url(x.png)"); ("width", "10"); ("height", "10")].

Definition aj_and_red : emote_map :=
  [(("/aj", None), aj_base);
   (("/red", None), mkPartial "/red" None [("color", "red")])].

(** An emote after validation: a missing offset has become (0, 0). *)
Definition with_offset (e : NormalEmote) : NormalEmote :=
  match n_offset e with
  | None =>
      mkNormal (n_name e) (n_suffix e) (n_css e) (n_image_url e) (n_size e)
        (Some (0, 0)%Z)
  | Some _ => e
  end.

(** The keys of the emotes without an offset, in the order of the map. *)
Definition unpositioned (items : Dict.t name_pair NormalEmote)
  : list name_pair :=
  (filter (λ ke, n_offset ke.2 = None) items).*1.

(** A sheet in which two emotes of three have no offset. *)
Definition sheet_two_unpositioned : Spritesheet :=
  mkSheet "s.png"
    [(("/a", None), mkNormal "/a" None [] "s.png" (10, 10)%Z None);
     (("/b", None),
      mkNormal "/b" None [] "s.png" (10, 10)%Z (Some (-10, 0)%Z));
     (("/c", Some ":hover"),
      mkNormal "/c" (Some ":hover") [] "s.png" (10, 10)%Z None)].

(** The rule [a[href|="/smile"] { background-image: url(s.png);
    width: 10px; height: 10px; background-position: 0px 0px }]. *)
Definition smile_rule (flag : bool) : CssRule :=
  mkRule [sel "" "" "|" "/smile" "" ""]
    [("background-image", "url(s.png)"); ("width", "10px");
     ("height", "10px"); ("background-position", "0px 0px")]
    flag.

Definition smile_emote (emote_name : string) : NormalEmote :=
  mkNormal emote_name None [] "s.png" (10, 10)%Z (Some (0, 0)%Z).

(** The result with one spritesheet "s.png" that holds one emote of the
    given name, no custom emote, and nothing printed. *)
Definition smile_result (emote_name : string)
  : M (Dict.t string Spritesheet * Dict.t name_pair CustomEmote) :=
  ([], Ok ([("s.png",
             mkSheet "s.png" [((emote_name, None), smile_emote emote_name)])],
           [])).

(** Two normal emotes of one image, neither with a background-position,
    and the sheet they make. *)
Definition two_plain : emote_map :=
  [(("/a", None),
    mkPartial "/a" None
      [("background-image", "url(s.png)"); ("width", "10px");
       ("height", "10px")]);
   (("/b", None),
    mkPartial "/b" None
      [("background-image", "url(s.png)"); ("width", "10px");
       ("height", "10px"); ("color", "red")])].

Definition two_plain_sheet : Spritesheet :=
  mkSheet "s.png"
    [(("/a", None), mkNormal "/a" None [] "s.png" (10, 10)%Z (Some (0, 0)%Z));
     (("/b", None),
      mkNormal "/b" None [("color", "red")] "s.png" (10, 10)%Z
        (Some (0, 0)%Z))].

(** ** The selectors the emote pattern accepts

    The pattern in declarative form: a selector is [sel ws pc1 op path
    pc2 tail] where [ws] is white space, [pc1] and [pc2] are absent
    (empty) or pseudo-class tokens, [op] is absent or one character other
    than a newline, [path] is a slash and a name, and [tail] is empty or
    one newline. *)

Fixpoint all_chars (p : ascii → bool) (s : string) : bool :=
  match s with
  | EmptyString => true
  | String c t => p c && all_chars p t
  end.

Definition starts_with (p : ascii → bool) (s : string) : bool :=
  match s with
  | EmptyString => false
  | String c _ => p c
  end.

(** [strip l s]: [s] without its prefix [l], if it has it. *)
Fixpoint strip (l s : string) : option string :=
  match l with
  | EmptyString => Some s
  | String c l' =>
      match s with
      | String c' s' => if Chars.is_char c c' then strip l' s' else None
      | EmptyString => None
      end
  end.

(** A token: the literal [l] and then one or more characters of [p]. *)
Definition token (l : string) (p : ascii → bool) (tok : string) : bool :=
  match strip l tok with
  | Some w => starts_with p w && all_chars p w
  | None => false
  end.

(** [(l[p]+)] as group [n]. *)
Definition token_re (n : nat) (l : string) (p : ascii → bool) : Re.regex :=
  Re.Group n (Re.Lit l (Re.Plus p)).

(** The pattern from its second pseudo-class on, and from the attribute
    selector on. *)
Definition tail_re : Re.regex := Re.Seq (Re.Opt (pseudo_re 3)) Re.Eos.

Definition attr_re : Re.regex :=
  Re.Lit "[href"
  (Re.Seq (Re.Opt (Re.Chr Chars.dot))
  (Re.Lit ("=" +:+ dq)
  (Re.Seq (Re.Group 2 (Re.Lit "/" (Re.Plus Chars.name)))
  (Re.Lit (dq +:+ "]") tail_re)))).

(** The parts of a selector the pattern accepts. *)
Definition opt_token (pc : string) : bool :=
  String.eqb pc "" || token ":" Chars.pseudo pc.

Definition op_ok (op : string) : bool :=
  match op with
  | EmptyString => true
  | String c EmptyString => Chars.dot c
  | _ => false
  end.

Definition path_ok (path : string) : bool := token "/" Chars.name path.

Definition tail_ok (tail : string) : bool :=
  String.eqb tail "" || String.eqb tail (String Chars.newline "").

Definition selector_ok (ws pc1 op path pc2 tail : string) : bool :=
  all_chars Chars.space ws && opt_token pc1 && op_ok op && path_ok path
  && opt_token pc2 && tail_ok tail.

(** The group an optional token sets. *)
Definition opt_group (n : nat) (pc : string) : Re.groups :=
  if String.eqb pc "" then [] else [(n, pc)].

(** The continuation of [re.match]: the groups are the result. *)
Definition k0 : string → Re.groups → option Re.groups := λ _ g, Some g.

(** [a:hover[href="/x"]:active], [a [href="/x"]] and [a[href="/x"]]
    followed by a newline. *)
Definition two_pseudo : string := sel "" ":hover" "" "/x" ":active" "".
Definition spaced : string := sel " " "" "" "/x" "" "".
Definition newline_ended : string :=
  sel "" "" "" "/x" "" (String Chars.newline "").

(** [a[href|="/x"]:nth-of-type(2)] and [a:nth-of-type(2)[href|="/x"]]. *)
Definition nth_2_trailing : string := sel "" "" "|" "/x" ":nth-of-type(2)" "".
Definition nth_2_leading : string := sel "" ":nth-of-type(2)" "|" "/x" "" "".

(** ** Definitions for the spritesheet stage *)

(** A dictionary without the key [k]. *)
Definition without (k : string) (d : Dict.t string string)
  : Dict.t string string :=
  filter (λ kv, kv.1 ≠ k) (d : list (string * string)).

(** The properties [_convert_emote] takes out of an emote. *)
Definition stripped_properties : list string :=
  ["display"; "clear"; "float"; "width"; "height"; "background-position";
   "background-repeat"].

(** What is left of a property map after [_convert_emote]. *)
Definition residual (d : Dict.t string string) : Dict.t string string :=
  filter (λ kv, kv.1 ∉ stripped_properties) (d : list (string * string)).


(** The computation does not end in a [KeyError]. *)
Definition no_key_error {A} (c : M A) : Prop :=
  ∀ k, c.2 ≠ Raise (KeyError k).

(** What holds of every sheet [build_spritesheet_map] makes. *)
Definition sheet_consistent (us : string * Spritesheet) : Prop :=
  ss_image_url us.2 = us.1
  ∧ ss_emotes us.2 ≠ []
  ∧ Forall (λ ke : name_pair * NormalEmote,
              n_image_url ke.2 = us.1
              ∧ n_name ke.2 = ke.1.1 ∧ n_suffix ke.2 = ke.1.2)
           (ss_emotes us.2).

(** The emote keys of all the sheets, sheet after sheet. *)
Definition sheet_keys (sheets : Dict.t string Spritesheet)
  : list name_pair :=
  concat ((λ us : string * Spritesheet, Dict.keys (ss_emotes us.2))
            <$> (sheets : list (string * Spritesheet))).

(** The sheets of the first loop of [build_spritesheet_map] once an
    emote has been put under [image_url]. *)
Definition add_emote (sheets : Dict.t string Spritesheet)
    (image_url : string) (key : name_pair) (emote : NormalEmote)
  : Dict.t string Spritesheet :=
  let sheets :=
    if Dict.contains sheets image_url then sheets
    else Dict.set_item sheets image_url (mkSheet image_url []) in
  match Dict.get sheets image_url with
  | Some ss =>
      Dict.set_item sheets image_url
        (mkSheet (ss_image_url ss) (Dict.set_item (ss_emotes ss) key emote))
  | None => sheets
  end.

(** Where the emotes of the sheets come from: each is the conversion
    of an emote of [emotes] whose background image has the URL of the
    sheet. *)
Definition sheets_from (as_url : string → option string)
    (emotes : emote_map) (sheets : Dict.t string Spritesheet) : Prop :=
  ∀ url ss key,
    (url, ss) ∈ sheets → key ∈ Dict.keys (ss_emotes ss) →
    ∃ raw bg, (key, raw) ∈ emotes
              ∧ Dict.get (css raw) "background-image" = Some bg
              ∧ as_url bg = Some url.

(** The elements of a list in the order of their first occurrences. *)
Fixpoint first_occurrences {A} `{EqDecision A} (l : list A) : list A :=
  match l with
  | [] => []
  | x :: rest => x :: filter (λ y, y ≠ x) (first_occurrences rest)
  end.

(** The URL of the sheet an emote goes to; [None] when the emote has no
    background-image or [as_url] raises. *)
Definition image_url_of (as_url : string → option string)
    (e : PartialEmote) : option string :=
  Dict.get (css e) "background-image" ≫= as_url.

(** The emote keys of the sheet under [url], none without such a
    sheet. *)
Definition emotes_at (sheets : Dict.t string Spritesheet) (url : string)
  : list name_pair :=
  match Dict.get sheets url with
  | Some ss => Dict.keys (ss_emotes ss)
  | None => []
  end.

(** ** Definitions for shared dictionaries and for validation *)

(** The addresses of the dictionaries of the emotes of a map, entry by
    entry. *)
Definition css_refs (emotes : Store.emote_map) : list nat :=
  (λ ke : name_pair * Store.Emote, Store.css ke.2)
    <$> (emotes : list (name_pair * Store.Emote)).

(** The map with every emote holding its dictionary itself. *)
Definition deref_map (h : Store.heap) (emotes : Store.emote_map)
  : emote_map :=
  (λ ke : name_pair * Store.Emote, (ke.1, Store.deref h ke.2))
    <$> (emotes : list (name_pair * Store.Emote)).

(** The result without the heap. *)
Definition sheets_of {A B} (c : M (A * B)) : M B :=
  (c.1, match c.2 with Ok a => Ok a.2 | Raise e => Raise e end).

(** One dictionary, with the three required properties, under two
    keys. *)
Definition one_css : Store.heap :=
  λ _, [("background-image", "url(s.png)"); ("width", "10px");
        ("height", "10px")].
Definition shared_twice : Store.emote_map :=
  [(("/a", None), Store.mkEmote "/a" None 0);
   (("/b", None), Store.mkEmote "/a" None 0)].
Definition owned_twice : Store.emote_map :=
  [(("/a", None), Store.mkEmote "/a" None 0);
   (("/b", None), Store.mkEmote "/b" None 1)].

(** The emotes of the sheets are conversions of emotes of [emotes], and
    have an offset exactly when these have a background-position. *)
Definition offsets_from (emotes : emote_map)
    (sheets : Dict.t string Spritesheet) : Prop :=
  ∀ url ss key e,
    (url, ss) ∈ sheets → (key, e) ∈ ss_emotes ss →
    ∃ raw, (key, raw) ∈ emotes
           ∧ (n_offset e = None
              ↔ Dict.get (css raw) "background-position" = None).

(** * Properties *)

(** ** The model on small inputs *)

Example parse_smile :
  _parse_emote_selector (sel "" "" "|" "/smile" "" "")
  = ([], Some ("/smile", None)).
Proof. vm_compute. reflexivity. Qed.

Example parse_hover_trailing :
  _parse_emote_selector (sel "" "" "|" "/aj" ":hover" "")
  = ([], Some ("/aj", Some ":hover")).
Proof. vm_compute. reflexivity. Qed.

Example parse_active_leading :
  _parse_emote_selector (sel "" ":active" "" "/pp:3" "" "")
  = ([], Some ("/pp:3", Some ":active")).
Proof. vm_compute. reflexivity. Qed.

Example parse_nth_literal :
  _parse_emote_selector (sel "" "" "^" "/c!red" ":nth-of-type(n)" "")
  = ([], Some ("/c!red", None)).
Proof. vm_compute. reflexivity. Qed.

Example parse_after :
  _parse_emote_selector (sel "" "" "|" "/x" ":after" "")
  = ([WarnUnknownPseudo (sel "" "" "|" "/x" ":after" "")],
     Some ("/x", Some ":after")).
Proof. vm_compute. reflexivity. Qed.

Example parse_not_emote :
  _parse_emote_selector ".foo" = ([], None).
Proof. vm_compute. reflexivity. Qed.

(** ** The ignore flags *)

Section IgnoreFlags.
Implicit Types (rule : CssRule) (rules : list CssRule).

Lemma filter_loop_rules V H ign rules :
  (filter_loop V H ign rules).1
  = zip_with set_ignore rules (flags_from ign rules).
Proof.
  revert V H ign. induction rules as [|rule rest IH]; intros V H ign.
  - reflexivity.
  - cbn [filter_loop flags_from zip_with]. unfold flag_of, state_after, flag_of.
    destruct (bool_decide (START ∈ selectors rule)),
      (bool_decide (END_ ∈ selectors rule)), ign; cbn;
      repeat match goal with
      | |- context [split_detection ?a ?b ?c] =>
          destruct (split_detection a b c)
      end;
      match goal with
      | |- context [filter_loop ?a ?b ?c ?d] =>
          specialize (IH a b c); destruct (filter_loop a b c d)
      end; cbn in *; by rewrite IH.
Qed.

Lemma flags_from_length ign rules :
  length (flags_from ign rules) = length rules.
Proof.
  revert ign. induction rules; intros; cbn; [done | by rewrite IHrules].
Qed.

Lemma filter_flags rules :
  ignore <$> (filter_ponyscript_ignores rules).1 = flags_from false rules.
Proof.
  unfold filter_ponyscript_ignores. rewrite filter_loop_rules.
  generalize false. induction rules as [|r rest IH]; intros b; cbn.
  - done.
  - by rewrite IH.
Qed.

(** The flag only is assigned: selectors and properties stay. *)
Lemma filter_keeps_rules rules :
  selectors <$> (filter_ponyscript_ignores rules).1 = selectors <$> rules
  ∧ properties <$> (filter_ponyscript_ignores rules).1
    = properties <$> rules.
Proof.
  unfold filter_ponyscript_ignores. rewrite filter_loop_rules.
  generalize false. induction rules as [|r rest IH]; intros b; cbn.
  - done.
  - destruct (IH (state_after b r)) as [-> ->]. done.
Qed.

Lemma flags_from_app ign rules1 rules2 :
  flags_from ign (rules1 ++ rules2)
  = flags_from ign rules1
    ++ flags_from (state_after_all ign rules1) rules2.
Proof.
  revert ign. induction rules1 as [|r rest IH]; intros ign; cbn.
  - done.
  - by rewrite IH.
Qed.

Lemma state_after_all_app ign rules1 rules2 :
  state_after_all ign (rules1 ++ rules2)
  = state_after_all (state_after_all ign rules1) rules2.
Proof. apply foldl_app. Qed.

Lemma state_after_all_cons ign r rules :
  state_after_all ign (r :: rules)
  = state_after_all (state_after ign r) rules.
Proof. reflexivity. Qed.

(** Without a start marker, a visible stretch stays visible. *)
Lemma flags_no_start rules :
  (∀ r, r ∈ rules → START ∉ selectors r) →
  flags_from false rules = replicate (length rules) false
  ∧ state_after_all false rules = false.
Proof.
  induction rules as [|r rest IH]; intros Hno.
  - done.
  - assert (START ∉ selectors r) as Hr by (apply Hno; left).
    assert (∀ r0, r0 ∈ rest → START ∉ selectors r0) as Hrest
      by (intros r0 ?; apply Hno; by right).
    destruct (IH Hrest) as [IH1 IH2].
    assert (flag_of false r = false) as Hflag
      by (unfold flag_of; by rewrite (bool_decide_eq_false_2 _ Hr)).
    assert (state_after false r = false) as Hst
      by (unfold state_after; rewrite Hflag;
          by destruct (bool_decide (END_ ∈ selectors r))).
    rewrite state_after_all_cons. cbn [flags_from length replicate].
    by rewrite Hflag, Hst, IH1, IH2.
Qed.

(** Without an end marker, an ignored stretch stays ignored. *)
Lemma flags_no_end rules :
  (∀ r, r ∈ rules → END_ ∉ selectors r) →
  flags_from true rules = replicate (length rules) true
  ∧ state_after_all true rules = true.
Proof.
  induction rules as [|r rest IH]; intros Hno.
  - done.
  - assert (END_ ∉ selectors r) as Hr by (apply Hno; left).
    assert (∀ r0, r0 ∈ rest → END_ ∉ selectors r0) as Hrest
      by (intros r0 ?; apply Hno; by right).
    destruct (IH Hrest) as [IH1 IH2].
    assert (flag_of true r = true) as Hflag
      by (unfold flag_of; by destruct (bool_decide (START ∈ selectors r))).
    assert (state_after true r = true) as Hst
      by (unfold state_after;
          by rewrite Hflag, (bool_decide_eq_false_2 _ Hr)).
    rewrite state_after_all_cons. cbn [flags_from length replicate].
    by rewrite Hflag, Hst, IH1, IH2.
Qed.

(** A start marker is ignored whatever the state, and so is what
    follows it up to and including the next end marker. *)
Lemma flags_region ign s mid e :
  START ∈ selectors s → END_ ∉ selectors s →
  (∀ r, r ∈ mid → END_ ∉ selectors r) →
  END_ ∈ selectors e →
  flags_from ign (s :: mid ++ [e]) = replicate (S (length mid + 1)) true
  ∧ state_after_all ign (s :: mid ++ [e]) = false.
Proof.
  intros Hs Hse Hmid He.
  destruct (flags_no_end mid Hmid) as [Hf Hst].
  assert (flag_of ign s = true) as Hflag
    by (unfold flag_of; by rewrite (bool_decide_eq_true_2 _ Hs)).
  assert (state_after ign s = true) as Hsts
    by (unfold state_after; by rewrite Hflag, (bool_decide_eq_false_2 _ Hse)).
  assert (flag_of true e = true) as Hfe
    by (unfold flag_of; by destruct (bool_decide (START ∈ selectors e))).
  assert (state_after true e = false) as Hste
    by (unfold state_after; by rewrite (bool_decide_eq_true_2 _ He)).
  rewrite state_after_all_cons. cbn [flags_from].
  rewrite Hflag, Hsts, flags_from_app, state_after_all_app, Hf, Hst.
  cbn [replicate]. rewrite replicate_add. cbn [replicate flags_from].
  rewrite Hfe. split; [done|].
  rewrite state_after_all_cons, Hste. done.
Qed.
End IgnoreFlags.

Example flags_region_example :
  flags_of [rule_of [".a"]; rule_of [START]; rule_of [".foo"];
            rule_of [END_]; rule_of [".b"]]
  = [false; true; true; true; false].
Proof. vm_compute. reflexivity. Qed.

(** The flags around one ignore region: a visible stretch, the region
    from its start marker to its end marker, a visible stretch, and the
    rest. *)
Lemma flags_around_region pre s mid e post1 post2 :
  Forall (λ r, START ∉ selectors r) pre →
  START ∈ selectors s → END_ ∉ selectors s →
  Forall (λ r, END_ ∉ selectors r) mid →
  END_ ∈ selectors e →
  Forall (λ r, START ∉ selectors r) post1 →
  flags_of (pre ++ (s :: mid ++ [e]) ++ post1 ++ post2)
  = replicate (length pre) false
    ++ replicate (S (length mid + 1)) true
    ++ replicate (length post1) false
    ++ flags_from false post2.
Proof.
  intros Hpre Hs Hse Hmid He Hpost.
  rewrite Forall_forall in Hpre, Hmid, Hpost.
  unfold flags_of. rewrite filter_flags, !flags_from_app.
  destruct (flags_no_start pre Hpre) as [-> ->].
  destruct (flags_region false s mid e Hs Hse Hmid He) as [-> ->].
  destruct (flags_no_start post1 Hpost) as [-> ->].
  done.
Qed.

(** The same without any assumption on what precedes the start marker. *)
Lemma flags_after_region pre s mid e post1 post2 :
  START ∈ selectors s → END_ ∉ selectors s →
  Forall (λ r, END_ ∉ selectors r) mid →
  END_ ∈ selectors e →
  Forall (λ r, START ∉ selectors r) post1 →
  flags_of (pre ++ (s :: mid ++ [e]) ++ post1 ++ post2)
  = flags_from false pre
    ++ replicate (S (length mid + 1)) true
    ++ replicate (length post1) false
    ++ flags_from false post2.
Proof.
  intros Hs Hse Hmid He Hpost.
  rewrite Forall_forall in Hmid, Hpost.
  unfold flags_of. rewrite filter_flags, !flags_from_app.
  destruct (flags_region (state_after_all false pre) s mid e Hs Hse Hmid He)
    as [-> ->].
  destruct (flags_no_start post1 Hpost) as [-> ->].
  done.
Qed.

(** C2, amended.  In a rule sequence [preceding rules, start marker,
    '.foo' rule, end marker, following rules], where no preceding or
    following rule holds a start marker and the start marker rule does
    not hold the end marker too, the three rules from the start marker to
    the end marker have ignore = true, and all rules before and after
    have ignore = false. *)
Theorem filter_region_ignored pre s foo e post :
  Forall (λ r, START ∉ selectors r) pre →
  START ∈ selectors s → END_ ∉ selectors s →
  selectors foo = [".foo"] →
  END_ ∈ selectors e →
  Forall (λ r, START ∉ selectors r) post →
  flags_of (pre ++ [s; foo; e] ++ post)
  = replicate (length pre) false ++ [true; true; true]
    ++ replicate (length post) false.
Proof.
  intros Hpre Hs Hse Hfoo He Hpost.
  assert (Forall (λ r, END_ ∉ selectors r) [foo]) as Hmid.
  { constructor; [|constructor]. rewrite Hfoo.
    intros H%list_elem_of_singleton. discriminate. }
  pose proof (flags_around_region pre s [foo] e post [] Hpre Hs Hse Hmid He
                Hpost) as H.
  rewrite app_nil_r in H. cbn in H. rewrite app_nil_r in H. exact H.
Qed.

Lemma filter_region_ignored_witness :
  flags_of ([rule_of [".a"]]
              ++ [rule_of [START]; rule_of [".foo"]; rule_of [END_]]
              ++ [rule_of [".b"]; rule_of [".c"]])
  = replicate 1 false ++ [true; true; true] ++ replicate 2 false.
Proof.
  apply (filter_region_ignored [rule_of [".a"]] (rule_of [START])
           (rule_of [".foo"]) (rule_of [END_])
           [rule_of [".b"]; rule_of [".c"]]).
  - apply (bool_decide_unpack _). vm_compute. exact I.
  - apply (bool_decide_unpack _). vm_compute. exact I.
  - apply (bool_decide_unpack _). vm_compute. exact I.
  - reflexivity.
  - apply (bool_decide_unpack _). vm_compute. exact I.
  - apply (bool_decide_unpack _). vm_compute. exact I.
Defined.

(** C2 as stated fails: on [start marker, '.foo', end marker] the two
    marker rules have ignore = true as well, so '.foo' is not the only
    ignored rule. *)
Lemma filter_only_foo_counterexample :
  flags_of [rule_of [START]; rule_of [".foo"]; rule_of [END_]]
  = [true; true; true]
  ∧ flags_of [rule_of [START]; rule_of [".foo"]; rule_of [END_]]
    ≠ [false; true; false].
Proof. split; vm_compute; [reflexivity | discriminate]. Qed.

(** C3, amended.  When a rule holding the start marker (and not the end
    marker) is followed by a rule holding the end marker, with no end
    marker in between, both marker rules (and the rules between them)
    have ignore = true, and the rules after the end marker, up to the
    next start marker, have ignore = false. *)
Theorem filter_markers_ignored pre s mid e post1 post2 :
  START ∈ selectors s → END_ ∉ selectors s →
  Forall (λ r, END_ ∉ selectors r) mid →
  END_ ∈ selectors e →
  Forall (λ r, START ∉ selectors r) post1 →
  let flags := flags_of (pre ++ (s :: mid ++ [e]) ++ post1 ++ post2) in
  flags !! length pre = Some true
  ∧ flags !! (length pre + S (length mid)) = Some true
  ∧ (∀ i, i < length mid → flags !! (length pre + S i) = Some true)
  ∧ (∀ i, i < length post1 →
       flags !! (length pre + S (length mid + 1) + i) = Some false).
Proof.
  intros Hs Hse Hmid He Hpost flags. subst flags.
  rewrite (flags_after_region pre s mid e post1 post2 Hs Hse Hmid He Hpost).
  assert (length (flags_from false pre) = length pre) as Hlen
    by apply flags_from_length.
  repeat split.
  - rewrite lookup_app_r by lia. rewrite Hlen, Nat.sub_diag. done.
  - rewrite lookup_app_r by lia. rewrite Hlen.
    rewrite lookup_app_l by (rewrite length_replicate; lia).
    apply lookup_replicate_2. lia.
  - intros i Hi. rewrite lookup_app_r by lia. rewrite Hlen.
    rewrite lookup_app_l by (rewrite length_replicate; lia).
    apply lookup_replicate_2. lia.
  - intros i Hi. rewrite lookup_app_r by lia. rewrite Hlen.
    rewrite lookup_app_r by (rewrite length_replicate; lia).
    rewrite length_replicate.
    rewrite lookup_app_l by (rewrite length_replicate; lia).
    apply lookup_replicate_2. lia.
Qed.

Lemma filter_markers_ignored_witness :
  let flags :=
    flags_of ([rule_of [".a"]]
                ++ (rule_of [START; ".x"] :: [rule_of [".foo"]]
                      ++ [rule_of [END_]])
                ++ [rule_of [".b"]] ++ [rule_of [START]]) in
  flags !! 1 = Some true
  ∧ flags !! (1 + 2) = Some true
  ∧ (∀ i, i < 1 → flags !! (1 + S i) = Some true)
  ∧ (∀ i, i < 1 → flags !! (1 + 3 + i) = Some false).
Proof.
  apply (filter_markers_ignored [rule_of [".a"]] (rule_of [START; ".x"])
           [rule_of [".foo"]] (rule_of [END_]) [rule_of [".b"]]
           [rule_of [START]]).
  - apply (bool_decide_unpack _). vm_compute. exact I.
  - apply (bool_decide_unpack _). vm_compute. exact I.
  - apply (bool_decide_unpack _). vm_compute. exact I.
  - apply (bool_decide_unpack _). vm_compute. exact I.
  - apply (bool_decide_unpack _). vm_compute. exact I.
Defined.

(** C3 as stated fails.  In [start, end, end] the first rule holds the
    start marker and precedes the third, which holds the end marker, yet
    the third has ignore = false.  In [start-and-end, end] the only end
    marker after the first rule has ignore = false. *)
Lemma filter_stray_end_counterexample :
  START ∈ selectors (rule_of [START])
  ∧ END_ ∈ selectors (rule_of [END_])
  ∧ flags_of [rule_of [START]; rule_of [END_]; rule_of [END_]]
    = [true; true; false]
  ∧ START ∈ selectors (rule_of [START; END_])
  ∧ flags_of [rule_of [START; END_]; rule_of [END_]] = [true; false].
Proof.
  repeat split; try (apply (bool_decide_unpack _); vm_compute; exact I);
    vm_compute; reflexivity.
Qed.

(** ** The split-selector warning *)

Section SplitWarnings.
Variable x : string.

Lemma occurrences_in_cons b r rules :
  occurrences_in x b (r :: rules)
  = (if bool_decide (ignore r = b) then occurrences x (selectors r) else 0)
    + occurrences_in x b rules.
Proof. reflexivity. Qed.

Lemma split_warnings_app log1 log2 :
  split_warnings x (log1 ++ log2)
  = split_warnings x log1 + split_warnings x log2.
Proof. unfold split_warnings. by rewrite filter_app, length_app. Qed.

Lemma split_warnings_pos log :
  WarnSplit x ∈ log ↔ 0 < split_warnings x log.
Proof.
  unfold split_warnings. split.
  - intros Hin.
    assert (WarnSplit x ∈ filter (λ m, m = WarnSplit x) log) as H
      by (by apply list_elem_of_filter).
    destruct (filter _ log); [by apply elem_of_nil in H | cbn; lia].
  - intros Hlen.
    destruct (filter (λ m, m = WarnSplit x) log) as [|m l] eqn:E;
      [cbn in Hlen; lia|].
    assert (m ∈ filter (λ m, m = WarnSplit x) log) as H
      by (rewrite E; left).
    apply list_elem_of_filter in H as [-> H]. done.
Qed.

Lemma occurrences_pos sels : x ∈ sels ↔ 0 < occurrences x sels.
Proof.
  unfold occurrences. split.
  - intros Hin.
    assert (x ∈ filter (λ y, y = x) sels) as H
      by (by apply list_elem_of_filter).
    destruct (filter _ sels); [by apply elem_of_nil in H | cbn; lia].
  - intros Hlen.
    destruct (filter (λ y, y = x) sels) as [|m l] eqn:E;
      [cbn in Hlen; lia|].
    assert (m ∈ filter (λ y, y = x) sels) as H by (rewrite E; left).
    apply list_elem_of_filter in H as [-> H]. done.
Qed.

Lemma split_warnings_one s :
  split_warnings x [WarnSplit s] = if decide (s = x) then 1 else 0.
Proof.
  unfold split_warnings. rewrite filter_cons.
  destruct (decide (s = x)) as [->|Hne].
  - by destruct (decide (WarnSplit x = WarnSplit x)).
  - destruct (decide (WarnSplit s = WarnSplit x)); [congruence|done].
Qed.

Lemma occurrences_cons s sels :
  occurrences x (s :: sels)
  = (if decide (s = x) then 1 else 0) + occurrences x sels.
Proof.
  unfold occurrences. rewrite filter_cons. by destruct (decide (s = x)).
Qed.

(** The inner loop adds the selectors, and warns about [x] at each of
    its occurrences x if [refuse_in] holds it. *)
Lemma split_detection_spec add_to refuse_in sels :
  (split_detection add_to refuse_in sels).1 = list_to_set sels ∪ add_to
  ∧ split_warnings x (split_detection add_to refuse_in sels).2
    = if bool_decide (x ∈ refuse_in) then occurrences x sels else 0.
Proof.
  revert add_to. induction sels as [|s rest IH]; intros add_to.
  - cbn. split; [set_solver | by destruct (bool_decide _)].
  - cbn [split_detection].
    destruct (IH ({[s]} ∪ add_to)) as [IH1 IH2].
    destruct (split_detection ({[s]} ∪ add_to) refuse_in rest)
      as [a l] eqn:E.
    cbn [fst snd] in *. split.
    + rewrite IH1. cbn. set_solver.
    + rewrite split_warnings_app, IH2, occurrences_cons.
      destruct (decide (s = x)) as [->|Hne].
      * destruct (bool_decide (x ∈ refuse_in)) eqn:Hx.
        -- rewrite split_warnings_one. by destruct (decide (x = x)).
        -- done.
      * destruct (bool_decide (s ∈ refuse_in)).
        -- rewrite split_warnings_one.
           by destruct (decide (s = x)).
        -- done.
Qed.

(** The log of the loop, one rule at a time. *)
Lemma filter_loop_log_cons V H ign r rest :
  (filter_loop V H ign (r :: rest)).2
  = if flag_of ign r then
      (split_detection H V (selectors r)).2
      ++ (filter_loop V (split_detection H V (selectors r)).1
            (state_after ign r) rest).2
    else
      (split_detection V H (selectors r)).2
      ++ (filter_loop (split_detection V H (selectors r)).1 H
            (state_after ign r) rest).2.
Proof.
  cbn [filter_loop]. unfold state_after.
  destruct (flag_of ign r) eqn:Hf; unfold flag_of in Hf; rewrite Hf.
  - destruct (split_detection H V (selectors r)) as [h l].
    cbn [fst snd].
    by destruct (filter_loop V h _ rest).
  - destruct (split_detection V H (selectors r)) as [v l].
    cbn [fst snd].
    by destruct (filter_loop v H _ rest).
Qed.

Lemma holds_after_rule (S : gset string) sels :
  bool_decide (x ∈ list_to_set sels ∪ S)
  = bool_decide (x ∈ S) || bool_decide (0 < occurrences x sels).
Proof.
  rewrite <- bool_decide_or. apply bool_decide_ext.
  rewrite elem_of_union, elem_of_list_to_set, occurrences_pos. tauto.
Qed.

Lemma filter_loop_warnings V H ign rules :
  split_warnings x (filter_loop V H ign rules).2
  = warnings_from x (bool_decide (x ∈ V)) (bool_decide (x ∈ H)) ign rules.
Proof.
  revert V H ign. induction rules as [|r rest IH]; intros V H ign.
  - done.
  - rewrite filter_loop_log_cons. cbn [warnings_from].
    destruct (flag_of ign r).
    + destruct (split_detection_spec H V (selectors r)) as [E1 E2].
      by rewrite split_warnings_app, E2, IH, E1, holds_after_rule.
    + destruct (split_detection_spec V H (selectors r)) as [E1 E2].
      by rewrite split_warnings_app, E2, IH, E1, holds_after_rule.
Qed.

Lemma occurrences_in_flags b ign rules :
  occurrences_in x b (zip_with set_ignore rules (flags_from ign rules))
  = occ_from x b ign rules.
Proof.
  revert ign. induction rules as [|r rest IH]; intros ign.
  - done.
  - cbn [flags_from zip_with occ_from].
    by rewrite occurrences_in_cons, IH.
Qed.
Ltac step_rule r ign :=
  cbn [warnings_from occ_from] in *;
  set (o := occurrences x (selectors r)) in *;
  destruct (flag_of ign r);
  change (bool_decide (true = true)) with true in *;
  change (bool_decide (true = false)) with false in *;
  change (bool_decide (false = true)) with false in *;
  change (bool_decide (false = false)) with true in *;
  cbn iota in *; rewrite ?Nat.add_0_l in *;
  destruct (bool_decide_reflect (0 < o));
  rewrite ?orb_true_r, ?orb_false_r in *.

(** A warning for [x] needs an occurrence on either side, counting
    what the two sets held at the start. *)
Lemma warnings_from_pos inV inH ign rules :
  0 < warnings_from x inV inH ign rules ↔
    (0 < occ_from x true ign rules
     ∧ (inV = true ∨ 0 < occ_from x false ign rules))
    ∨ (0 < occ_from x false ign rules
       ∧ (inH = true ∨ 0 < occ_from x true ign rules)).
Proof.
  revert inV inH ign. induction rules as [|r rest IH]; intros inV inH ign.
  - cbn. lia.
  - step_rule r ign; clearbody o.
    + specialize (IH inV true (state_after ign r)).
      destruct inV, inH; split; intros; try lia;
        intuition (try congruence; try lia).
    + specialize (IH inV inH (state_after ign r)).
      replace o with 0 by lia.
      destruct inV; rewrite ?Nat.add_0_l; exact IH.
    + specialize (IH true inH (state_after ign r)).
      destruct inV, inH; split; intros; try lia;
        intuition (try congruence; try lia).
    + specialize (IH inV inH (state_after ign r)).
      replace o with 0 by lia.
      destruct inH; rewrite ?Nat.add_0_l; exact IH.
Qed.

Lemma warnings_from_none inV inH ign rules :
  occ_from x true ign rules = 0 → occ_from x false ign rules = 0 →
  warnings_from x inV inH ign rules = 0.
Proof.
  intros H1 H2. pose proof (warnings_from_pos inV inH ign rules). lia.
Qed.

(** Without an occurrence in an ignored rule, and with [hidden] not
    holding [x], there is no warning for [x]. *)
Lemma warnings_from_all_visible inV ign rules :
  occ_from x true ign rules = 0 → warnings_from x inV false ign rules = 0.
Proof.
  intros H1. pose proof (warnings_from_pos inV false ign rules).
  assert (¬ 0 < warnings_from x inV false ign rules); [|lia].
  intuition (try congruence; try lia).
Qed.

(** [x] is known on one side, and occurs once, on the other side. *)
Lemma warnings_from_visible_once ign rules :
  occ_from x false ign rules = 0 → occ_from x true ign rules = 1 →
  warnings_from x true false ign rules = 1.
Proof.
  revert ign. induction rules as [|r rest IH]; intros ign HV HH.
  - cbn in HH. lia.
  - step_rule r ign; clearbody o; try lia.
    + rewrite (warnings_from_none true true) by lia. lia.
    + rewrite IH by lia. lia.
    + rewrite IH by lia. lia.
Qed.

Lemma warnings_from_hidden_once ign rules :
  occ_from x true ign rules = 0 → occ_from x false ign rules = 1 →
  warnings_from x false true ign rules = 1.
Proof.
  revert ign. induction rules as [|r rest IH]; intros ign HH HV.
  - cbn in HV. lia.
  - step_rule r ign; clearbody o; try lia.
    + rewrite IH by lia. lia.
    + rewrite (warnings_from_none true true) by lia. lia.
    + rewrite IH by lia. lia.
Qed.

(** [x] is new, and occurs once on each side. *)
Lemma warnings_from_once_each ign rules :
  occ_from x false ign rules = 1 → occ_from x true ign rules = 1 →
  warnings_from x false false ign rules = 1.
Proof.
  revert ign. induction rules as [|r rest IH]; intros ign HV HH.
  - cbn in HH. lia.
  - step_rule r ign; clearbody o; try lia.
    + rewrite warnings_from_hidden_once by lia. lia.
    + rewrite IH by lia. lia.
    + rewrite warnings_from_visible_once by lia. lia.
    + rewrite IH by lia. lia.
Qed.

Lemma occurrences_in_pos b rules :
  0 < occurrences_in x b rules ↔
    ∃ r, r ∈ rules ∧ x ∈ selectors r ∧ ignore r = b.
Proof.
  induction rules as [|r rest IH].
  - cbn. split; [lia|]. intros (r & Hr & _). by apply elem_of_nil in Hr.
  - rewrite occurrences_in_cons. split.
    + intros Hpos.
      destruct (decide (0 < occurrences_in x b rest)) as [Hrest|Hrest].
      * apply IH in Hrest as (r' & ? & ? & ?).
        exists r'. split; [by right|done].
      * case_bool_decide as Hb; [|lia].
        exists r. split; [left|]. rewrite occurrences_pos.
        split; [lia|done].
    + intros (r' & Hin & Hx & Hb).
      apply elem_of_cons in Hin as [->|Hin].
      * rewrite bool_decide_eq_true_2 by done.
        apply occurrences_pos in Hx. lia.
      * assert (0 < occurrences_in x b rest) by (apply IH; eauto). lia.
Qed.
End SplitWarnings.

Example split_outside_inside :
  filter_ponyscript_ignores
    [rule_of [".bar"]; rule_of [START]; rule_of [".bar"]; rule_of [END_]]
  = ([mkRule [".bar"] [] false; mkRule [START] [] true;
      mkRule [".bar"] [] true; mkRule [END_] [] true],
     [WarnSplit ".bar"]).
Proof. vm_compute. reflexivity. Qed.

Example split_both_visible :
  (filter_ponyscript_ignores
     [rule_of [".bar"]; rule_of [START]; rule_of [END_]; rule_of [".bar"]]).2
  = [].
Proof. vm_compute. reflexivity. Qed.

(** C4.  The split warning for a selector string is printed exactly
    when the string occurs both in a rule flagged ignored and in a rule
    flagged visible.  When all its occurrences are in visible rules (as
    with one before a start marker and one after the end marker), no
    warning for it is printed; when it occurs once in a visible and once
    in an ignored rule, exactly one warning for it is printed. *)
Theorem split_warning_iff_straddling (css_rules : list CssRule) (x : string) :
  let rules := (filter_ponyscript_ignores css_rules).1 in
  let log := (filter_ponyscript_ignores css_rules).2 in
  (WarnSplit x ∈ log ↔
     (∃ r, r ∈ rules ∧ x ∈ selectors r ∧ ignore r = true)
     ∧ (∃ r, r ∈ rules ∧ x ∈ selectors r ∧ ignore r = false))
  ∧ (occurrences_in x true rules = 0 → split_warnings x log = 0)
  ∧ (occurrences_in x false rules = 1 → occurrences_in x true rules = 1 →
     split_warnings x log = 1).
Proof.
  intros rules log. subst rules log. unfold filter_ponyscript_ignores.
  rewrite filter_loop_rules, filter_loop_warnings.
  change (bool_decide (x ∈ (∅ : gset string))) with false.
  split; [|split].
  - rewrite split_warnings_pos, filter_loop_warnings.
    change (bool_decide (x ∈ (∅ : gset string))) with false.
    rewrite warnings_from_pos, <- !occurrences_in_pos, !occurrences_in_flags.
    intuition (try congruence; try lia).
  - rewrite occurrences_in_flags. apply warnings_from_all_visible.
  - rewrite !occurrences_in_flags. apply warnings_from_once_each.
Qed.

Lemma split_warning_iff_straddling_witness :
  split_warnings ".bar"
    (filter_ponyscript_ignores
       [rule_of [".bar"; ".x"]; rule_of [START]; rule_of [".x"; ".bar"];
        rule_of [END_]; rule_of [".y"]]).2 = 1.
Proof.
  apply (split_warning_iff_straddling
           [rule_of [".bar"; ".x"]; rule_of [START]; rule_of [".x"; ".bar"];
            rule_of [END_]; rule_of [".y"]] ".bar").
  - vm_compute. reflexivity.
  - vm_compute. reflexivity.
Defined.

(** ** Dictionaries *)

Section DictFacts.
Context {K V : Type} `{EqDecision K}.
Implicit Types (d : Dict.t K V) (k : K) (v : V).

Lemma get_set_item_eq d k v : Dict.get (Dict.set_item d k v) k = Some v.
Proof.
  induction d as [|[k' v'] d IH]; cbn.
  - by destruct (decide (k = k)).
  - destruct (decide (k' = k)) as [->|Hne]; cbn.
    + by destruct (decide (k = k)).
    + by destruct (decide (k' = k)).
Qed.

Lemma get_set_item_ne d k k' v :
  k ≠ k' → Dict.get (Dict.set_item d k v) k' = Dict.get d k'.
Proof.
  intros Hne. induction d as [|[k0 v0] d IH]; cbn.
  - by destruct (decide (k = k')).
  - destruct (decide (k0 = k)) as [->|Hne0]; cbn.
    + by destruct (decide (k = k')).
    + by rewrite IH.
Qed.

Lemma get_set_item d k k' v :
  Dict.get (Dict.set_item d k v) k'
  = if decide (k = k') then Some v else Dict.get d k'.
Proof.
  destruct (decide (k = k')) as [->|Hne].
  - apply get_set_item_eq.
  - by apply get_set_item_ne.
Qed.

Lemma get_None d k : Dict.get d k = None ↔ k ∉ Dict.keys d.
Proof.
  unfold Dict.keys. induction d as [|[k' v'] d IH]; cbn.
  - split; [intros _; apply not_elem_of_nil | done].
  - rewrite not_elem_of_cons. destruct (decide (k' = k)) as [->|Hne].
    + split; [done | intros [? _]; done].
    + rewrite IH. split; [intros ?; split; [congruence|done] | tauto].
Qed.

Lemma get_Some_elem d k v : Dict.get d k = Some v → (k, v) ∈ d.
Proof.
  induction d as [|[k' v'] d IH]; cbn; [done|].
  destruct (decide (k' = k)) as [->|Hne].
  - intros [= ->]. left.
  - intros H1. right. by apply IH.
Qed.

Lemma elem_get_Some d k v :
  Dict.wf d → (k, v) ∈ d → Dict.get d k = Some v.
Proof.
  unfold Dict.wf, Dict.keys. induction d as [|[k' v'] d IH]; cbn.
  - intros _ Hin. by apply elem_of_nil in Hin.
  - rewrite NoDup_cons. intros [Hk Hd] Hin.
    apply elem_of_cons in Hin as [[= -> ->]|Hin].
    + by destruct (decide (k' = k')).
    + destruct (decide (k' = k)) as [->|Hne]; [|by apply IH].
      exfalso. apply Hk. apply list_elem_of_fmap. by exists (k, v).
Qed.

Lemma keys_set_item_present d k v :
  k ∈ Dict.keys d → Dict.keys (Dict.set_item d k v) = Dict.keys d.
Proof.
  unfold Dict.keys. induction d as [|[k' v'] d IH]; cbn.
  - intros Hin. by apply elem_of_nil in Hin.
  - intros Hin. destruct (decide (k' = k)) as [->|Hne]; cbn; [done|].
    apply elem_of_cons in Hin as [->|Hin]; [done|]. by rewrite IH.
Qed.

Lemma keys_set_item_absent d k v :
  k ∉ Dict.keys d → Dict.keys (Dict.set_item d k v) = Dict.keys d ++ [k].
Proof.
  unfold Dict.keys. induction d as [|[k' v'] d IH]; cbn; [done|].
  rewrite not_elem_of_cons. intros [Hne Hin].
  destruct (decide (k' = k)) as [->|_]; [done|]. cbn. by rewrite IH.
Qed.

Lemma wf_set_item d k v : Dict.wf d → Dict.wf (Dict.set_item d k v).
Proof.
  unfold Dict.wf. intros Hwf.
  destruct (decide (k ∈ Dict.keys d)) as [Hin|Hin].
  - by rewrite keys_set_item_present.
  - rewrite keys_set_item_absent by done.
    apply NoDup_app. split; [done|]. split; [|apply NoDup_singleton].
    intros x Hx ->%list_elem_of_singleton. done.
Qed.

(** [update]: the values of [d2] win, the other entries stay. *)
Lemma get_update d d2 k :
  Dict.wf d2 →
  Dict.get (Dict.update d d2) k
  = match Dict.get d2 k with Some v => Some v | None => Dict.get d k end.
Proof.
  unfold Dict.update, Dict.wf, Dict.keys. revert d.
  induction d2 as [|[k2 v2] d2 IH]; intros d Hwf; cbn; [done|].
  cbn in Hwf. apply NoDup_cons in Hwf as [Hk2 Hwf].
  rewrite IH by done. destruct (decide (k2 = k)) as [->|Hne].
  - assert (Dict.get d2 k = None) as -> by (by apply get_None).
    apply get_set_item_eq.
  - destruct (Dict.get d2 k); [done|]. by apply get_set_item_ne.
Qed.

Lemma update_nil d : Dict.update d [] = d.
Proof. reflexivity. Qed.

End DictFacts.

(** ** Merging partial emotes *)

Lemma build_loop_app acc steps1 steps2 :
  build_loop acc (steps1 ++ steps2)
  = let r1 := build_loop acc steps1 in
    let r2 := build_loop r1.1 steps2 in
    (r2.1, r1.2 ++ r2.2).
Proof.
  revert acc. induction steps1 as [|[m|e] rest IH]; intros acc; cbn.
  - by destruct (build_loop acc steps2).
  - rewrite IH. cbn. by destruct (build_loop acc rest).
  - destruct (merge_emote acc e) as [acc' l]. rewrite IH. cbn.
    destruct (build_loop acc' rest) as [a1 l1]. cbn.
    by rewrite app_assoc.
Qed.

Lemma build_emote_map_snoc pre e :
  build_emote_map (pre ++ [e])
  = let r := build_emote_map pre in
    let s := merge_emote r.1 e in
    (s.1, r.2 ++ s.2).
Proof.
  unfold build_emote_map, build_emote_map_gen.
  rewrite fmap_app, build_loop_app. cbn.
  destruct (merge_emote _ e) as [a l]. cbn. by rewrite app_nil_r.
Qed.

Lemma merge_emote_key acc e :
  is_Some (Dict.get (merge_emote acc e).1 (key_of e)).
Proof.
  unfold merge_emote. fold (key_of e).
  destruct (Dict.get acc (key_of e)); cbn; rewrite get_set_item_eq; eauto.
Qed.

Lemma merge_emote_other acc e key :
  key_of e ≠ key →
  Dict.get (merge_emote acc e).1 key = Dict.get acc key.
Proof.
  intros Hne. unfold merge_emote. fold (key_of e).
  destruct (Dict.get acc (key_of e)); cbn; by rewrite get_set_item_ne.
Qed.

(** The property of an emote after one more fragment. *)
Lemma merge_emote_property acc e key p :
  Dict.wf (css e) →
  property_of (merge_emote acc e).1 key p
  = if decide (key_of e = key) then
      match Dict.get (css e) p with
      | Some v => Some v
      | None => property_of acc key p
      end
    else property_of acc key p.
Proof.
  intros Hwf. unfold property_of.
  destruct (decide (key_of e = key)) as [<-|Hne].
  - unfold merge_emote. fold (key_of e).
    destruct (Dict.get acc (key_of e)) as [base|] eqn:Hb; cbn;
      rewrite get_set_item_eq; cbn.
    + by apply get_update.
    + by destruct (Dict.get (css e) p).
  - by rewrite merge_emote_other.
Qed.

Lemma definitions_snoc key p pre e :
  definitions key p (pre ++ [e])
  = definitions key p pre
    ++ (if decide (key_of e = key)
        then option_list (Dict.get (css e) p) else []).
Proof.
  unfold definitions. rewrite omap_app. f_equal. cbn.
  destruct (decide (key_of e = key)); [|done].
  by destruct (Dict.get (css e) p).
Qed.

(** The merged value of a property is the one of the last fragment of
    that key that defines it. *)
Lemma build_emote_map_property partial_emotes key p :
  Forall (λ e, Dict.wf (css e)) partial_emotes →
  property_of (build_emote_map partial_emotes).1 key p
  = last (definitions key p partial_emotes).
Proof.
  induction partial_emotes as [|e pre IH] using rev_ind; intros Hwf.
  - done.
  - apply Forall_app in Hwf as [Hpre He]. rewrite Forall_singleton in He.
    rewrite build_emote_map_snoc, definitions_snoc. cbn [fst].
    rewrite merge_emote_property by exact He. rewrite IH by exact Hpre.
    destruct (decide (key_of e = key)); [|by rewrite app_nil_r].
    destruct (Dict.get (css e) p); cbn.
    + by rewrite last_snoc.
    + by rewrite app_nil_r.
Qed.

Lemma elem_of_concat {A} (x : A) (ls : list (list A)) :
  x ∈ concat ls ↔ ∃ l, x ∈ l ∧ l ∈ ls.
Proof.
  induction ls as [|l0 ls IH]; cbn.
  - split; [intros H; by apply elem_of_nil in H|].
    intros (l & _ & H). by apply elem_of_nil in H.
  - rewrite elem_of_app, IH. split.
    + intros [H|(l & H1 & H2)].
      * exists l0. split; [done|left].
      * exists l. split; [done|by right].
    + intros (l & H1 & H2). apply elem_of_cons in H2 as [->|H2].
      * by left.
      * right. by exists l.
Qed.

(** The warnings of one iteration. *)
Lemma merge_emote_warnings acc e key p old new :
  Dict.wf (css e) →
  WarnRedefined key p old new ∈ (merge_emote acc e).2 ↔
    key_of e = key ∧ Dict.get (css e) p = Some new
    ∧ property_of acc key p = Some old ∧ old ≠ new.
Proof.
  intros Hwf. unfold merge_emote, property_of. fold (key_of e).
  destruct (Dict.get acc (key_of e)) as [base|] eqn:Hb; cbn [snd].
  - unfold redefinitions. rewrite elem_of_concat. split.
    + intros (l & Hin & Hl).
      apply list_elem_of_fmap in Hl as ([p' v'] & -> & Hpv).
      cbn in Hin. destruct (Dict.get (css base) p') as [old'|] eqn:Hold;
        [|by apply elem_of_nil in Hin].
      case_bool_decide; [|by apply elem_of_nil in Hin].
      apply list_elem_of_singleton in Hin as [= -> -> -> ->].
      rewrite Hb. cbn. repeat split; try done.
      by apply elem_get_Some.
    + intros (<- & Hnew & Hold & Hne). rewrite Hb in Hold. cbn in Hold.
      exists [WarnRedefined (key_of e) p old new]. split; [left|].
      apply list_elem_of_fmap. exists (p, new). split.
      * cbn. rewrite Hold. by rewrite bool_decide_eq_true_2.
      * by apply get_Some_elem.
  - split; [intros Hin; by apply elem_of_nil in Hin|].
    intros (<- & _ & Hold & _). rewrite Hb in Hold. done.
Qed.

Lemma snoc_split {A} (l pre post : list A) (a e : A) :
  l ++ [a] = pre ++ e :: post →
  (post = [] ∧ pre = l ∧ e = a)
  ∨ (∃ post', post = post' ++ [a] ∧ l = pre ++ e :: post').
Proof.
  destruct post as [|b post' _] using rev_ind.
  - intros [-> ->]%app_inj_tail. by left.
  - rewrite app_comm_cons, app_assoc. intros [-> ->]%app_inj_tail.
    right. by exists post'.
Qed.

(** A redefinition warning is in the log exactly when a fragment gives
    a property a value other than the one the fragments before it had
    left for it. *)
Lemma build_emote_map_warnings partial_emotes key p old new :
  Forall (λ e, Dict.wf (css e)) partial_emotes →
  WarnRedefined key p old new ∈ (build_emote_map partial_emotes).2 ↔
    ∃ pre e post,
      partial_emotes = pre ++ e :: post
      ∧ key_of e = key
      ∧ Dict.get (css e) p = Some new
      ∧ last (definitions key p pre) = Some old
      ∧ old ≠ new.
Proof.
  induction partial_emotes as [|e0 l IH] using rev_ind; intros Hwf.
  - cbn. split; [intros Hin; by apply elem_of_nil in Hin|].
    intros (pre & e & post & Heq & _). by destruct pre.
  - apply Forall_app in Hwf as [Hl He]. rewrite Forall_singleton in He.
    rewrite build_emote_map_snoc. cbn [snd].
    rewrite elem_of_app, IH by exact Hl.
    rewrite merge_emote_warnings by exact He.
    rewrite build_emote_map_property by exact Hl. split.
    + intros [(pre & e & post & -> & Hrest)|(Hk & Hn & Ho & Hne)].
      * exists pre, e, (post ++ [e0]). split; [|done].
        by rewrite <- app_assoc.
      * exists l, e0, []. done.
    + intros (pre & e & post & Heq & Hk & Hn & Ho & Hne).
      apply snoc_split in Heq as [(-> & -> & ->)|(post' & -> & ->)].
      * by right.
      * left. by exists pre, e, post'.
Qed.

Lemma definitions_app key p l1 l2 :
  definitions key p (l1 ++ l2) = definitions key p l1 ++ definitions key p l2.
Proof. apply omap_app. Qed.

Example merge_width :
  build_emote_map [width_5; width_10]
  = ([(("/aj", None),
       mkPartial "/aj" None [("width", "10"); ("height", "7")])],
     [WarnRedefined ("/aj", None) "width" "5" "10"]).
Proof. vm_compute. reflexivity. Qed.

Example merge_equal_value :
  build_emote_map [width_5; width_5]
  = ([(("/aj", None), width_5)], []).
Proof. vm_compute. reflexivity. Qed.

(** C5.  In the map [build_emote_map] returns, a property of an emote
    has the value of the last fragment of that key that defines it: of
    two fragments with the same key the later one wins for each property
    it defines, and no property is dropped.  A redefinition warning
    naming key, property, old and new value is printed exactly when a
    fragment defines a property that the earlier fragments of its key
    had left with a different value; nothing else is printed, so an
    equal value overwrites without a warning. *)
Theorem build_emote_map_later_wins (partial_emotes : list PartialEmote) :
  Forall (λ e, Dict.wf (css e)) partial_emotes →
  (∀ key p,
     property_of (build_emote_map partial_emotes).1 key p
     = last (definitions key p partial_emotes))
  ∧ (∀ pre e1 mid e2 post p v,
       partial_emotes = pre ++ e1 :: mid ++ e2 :: post →
       key_of e1 = key_of e2 →
       Dict.get (css e2) p = Some v →
       definitions (key_of e2) p post = [] →
       property_of (build_emote_map partial_emotes).1 (key_of e2) p = Some v)
  ∧ (∀ key p old new,
       WarnRedefined key p old new ∈ (build_emote_map partial_emotes).2 ↔
         ∃ pre e post,
           partial_emotes = pre ++ e :: post
           ∧ key_of e = key
           ∧ Dict.get (css e) p = Some new
           ∧ last (definitions key p pre) = Some old
           ∧ old ≠ new)
  ∧ (∀ m, m ∈ (build_emote_map partial_emotes).2 →
       ∃ key p old new, m = WarnRedefined key p old new).
Proof.
  intros Hwf. split; [|split; [|split]].
  - intros key p. by apply build_emote_map_property.
  - intros pre e1 mid e2 post p v -> Hkey Hv Hpost.
    rewrite build_emote_map_property by done.
    replace (pre ++ e1 :: mid ++ e2 :: post)
      with ((pre ++ e1 :: mid) ++ [e2] ++ post)
      by (by rewrite <- app_assoc).
    rewrite !definitions_app, Hpost, app_nil_r. cbn.
    destruct (decide (key_of e2 = key_of e2)); [|done].
    rewrite Hv. apply last_snoc.
  - intros key p old new. by apply build_emote_map_warnings.
  - clear Hwf. induction partial_emotes as [|e l IH] using rev_ind.
    + intros m Hm. by apply elem_of_nil in Hm.
    + intros m. rewrite build_emote_map_snoc. cbn [snd].
      rewrite elem_of_app. intros [Hm|Hm]; [by apply IH|].
      unfold merge_emote in Hm.
      destruct (Dict.get _ _); cbn [snd] in Hm;
        [|by apply elem_of_nil in Hm].
      unfold redefinitions in Hm.
      apply elem_of_concat in Hm as (l0 & Hm & Hl0).
      apply list_elem_of_fmap in Hl0 as ([p0 v0] & -> & _). cbn in Hm.
      destruct (Dict.get _ _); [|by apply elem_of_nil in Hm].
      case_bool_decide; [|by apply elem_of_nil in Hm].
      apply list_elem_of_singleton in Hm as ->. eauto.
Qed.

Lemma build_emote_map_later_wins_witness :
  property_of (build_emote_map [width_5; width_10]).1 ("/aj", None) "width"
  = Some "10"
  ∧ (WarnRedefined ("/aj", None) "width" "5" "10"
       ∈ (build_emote_map [width_5; width_10]).2).
Proof.
  assert (Forall (λ e, Dict.wf (css e)) [width_5; width_10]) as Hwf.
  { apply (bool_decide_unpack _). vm_compute. exact I. }
  destruct (build_emote_map_later_wins [width_5; width_10] Hwf)
    as (H1 & H2 & H3 & H4).
  split.
  - apply (H2 [] width_5 [] width_10 [] "width" "10"); reflexivity.
  - apply H3. exists [width_5], width_10, [].
    repeat split; [discriminate].
Defined.

(** ** Collapsing the variants *)

Section Collapse.
Variable emotes : emote_map.

Lemma get_app {K V} `{EqDecision K} (d1 d2 : Dict.t K V) k :
  Dict.get (d1 ++ d2) k
  = match Dict.get d1 k with Some v => Some v | None => Dict.get d2 k end.
Proof.
  induction d1 as [|[k' v'] d1 IH]; cbn; [done|].
  by destruct (decide (k' = k)).
Qed.

Lemma get_collapse_entry (l : list (name_pair * PartialEmote)) key :
  Dict.get (collapse_entry emotes <$> l) key
  = collapse_emote emotes <$> Dict.get l key.
Proof.
  induction l as [|[k e] l IH]; cbn; [done|].
  by destruct (decide (k = key)).
Qed.

(** A base emote is not collapsed, so an entry at a base key is the
    same before and after. *)
Lemma get_collapse_entry_base (l : list (name_pair * PartialEmote)) n :
  keyed l →
  Dict.get (collapse_entry emotes <$> l) (n, None) = Dict.get l (n, None).
Proof.
  intros Hk. rewrite get_collapse_entry.
  destruct (Dict.get l (n, None)) as [e|] eqn:He; [|done].
  apply get_Some_elem in He.
  unfold keyed in Hk. rewrite Forall_forall in Hk.
  specialize (Hk _ He). cbn in Hk. unfold key_of in Hk.
  injection Hk as _ Hs. cbn. f_equal.
  unfold collapse_emote. by rewrite <- Hs.
Qed.

Lemma collapse_loop_spec (l1 l2 : list (name_pair * PartialEmote)) :
  emotes = l1 ++ l2 → keyed emotes →
  collapse_loop (collapse_entry emotes <$> l1) l2
  = collapse_entry emotes <$> emotes.
Proof.
  revert l1. induction l2 as [|[k e] rest IH]; intros l1 Heq Hk.
  - cbn. by rewrite Heq, app_nil_r.
  - cbn [collapse_loop].
    assert (collapse_emote ((collapse_entry emotes <$> l1) ++ (k, e) :: rest) e
            = collapse_emote emotes e) as ->.
    { unfold collapse_emote. destruct (truthy (suffix e)); [|done].
      assert (keyed l1) as Hk1.
      { unfold keyed in *. rewrite Heq in Hk.
        by apply Forall_app in Hk as [? _]. }
      rewrite get_app, get_collapse_entry_base by done.
      by rewrite <- get_app, <- Heq. }
    specialize (IH (l1 ++ [(k, e)])).
    rewrite fmap_app in IH. apply IH; [|done].
    by rewrite <- app_assoc.
Qed.

Lemma collapse_spec :
  keyed emotes →
  collapse_specials_properties emotes
  = collapse_entry emotes <$> (emotes : list (name_pair * PartialEmote)).
Proof. intros Hk. by apply (collapse_loop_spec [] emotes). Qed.
End Collapse.

Example collapse_hover_empty :
  collapse_specials_properties
    [(("/aj", None), aj_base);
     (("/aj", Some ":hover"), mkPartial "/aj" (Some ":hover") [])]
  = [(("/aj", None), aj_base);
     (("/aj", Some ":hover"), mkPartial "/aj" (Some ":hover") (css aj_base))].
Proof. vm_compute. reflexivity. Qed.

(** C6, amended.  In a map where every emote sits at the key of its name
    and suffix, an emote whose suffix is neither null nor the empty string
    and whose base emote (same name, suffix null) exists gets the base's
    properties updated by its own: a property of its own keeps the
    variant's value, another one has the base's, and with no property of
    its own the variant ends with exactly the base's.  Variants without a
    base, base emotes, and emotes with an empty suffix are left unchanged;
    the keys and their order stay. *)
Theorem collapse_specials_spec (emotes : emote_map) :
  keyed emotes →
  Dict.keys (collapse_specials_properties emotes) = Dict.keys emotes
  ∧ ∀ key e, Dict.get emotes key = Some e →
      ∃ e', Dict.get (collapse_specials_properties emotes) key = Some e'
        ∧ name e' = name e ∧ suffix e' = suffix e
        ∧ (∀ s base, suffix e = Some s → s ≠ "" →
             Dict.get emotes (name e, None) = Some base →
             css e' = Dict.update (css base) (css e)
             ∧ (css e = [] → css e' = css base)
             ∧ (Dict.wf (css e) → ∀ p,
                  Dict.get (css e') p
                  = match Dict.get (css e) p with
                    | Some v => Some v
                    | None => Dict.get (css base) p
                    end))
        ∧ (Dict.get emotes (name e, None) = None → e' = e)
        ∧ (suffix e = None → e' = e)
        ∧ (suffix e = Some "" → e' = e).
Proof.
  intros Hk. rewrite collapse_spec by done. split.
  - unfold Dict.keys. rewrite <- list_fmap_compose.
    by apply list_fmap_ext.
  - intros key e He. exists (collapse_emote emotes e).
    rewrite get_collapse_entry, He. split; [done|].
    unfold collapse_emote.
    split; [|split; [|split; [|split; [|split]]]].
    + destruct (truthy (suffix e)); [|done].
      by destruct (Dict.get emotes (name e, None)).
    + destruct (truthy (suffix e)); [|done].
      by destruct (Dict.get emotes (name e, None)).
    + intros s base Hs Hne Hb. rewrite Hs, Hb. cbn.
      destruct (String.eqb_spec s ""); [done|]. cbn.
      split; [done|]. split.
      * intros ->. apply update_nil.
      * intros Hwf p. by apply get_update.
    + intros ->. by destruct (truthy (suffix e)).
    + intros ->. done.
    + intros ->. done.
Qed.

Lemma collapse_specials_spec_witness :
  ∃ e', Dict.get
          (collapse_specials_properties
             [(("/aj", None), aj_base);
              (("/aj", Some ":hover"),
               mkPartial "/aj" (Some ":hover") [("width", "12")])])
          ("/aj", Some ":hover") = Some e'
        ∧ css e' = Dict.update (css aj_base) [("width", "12")].
Proof.
  assert (keyed [(("/aj", None), aj_base);
                 (("/aj", Some ":hover"),
                  mkPartial "/aj" (Some ":hover") [("width", "12")])]) as Hk.
  { repeat constructor. }
  destruct (collapse_specials_spec _ Hk) as [_ H].
  destruct (H ("/aj", Some ":hover")
              (mkPartial "/aj" (Some ":hover") [("width", "12")]))
    as (e' & He' & _ & _ & Hcss & _); [reflexivity|].
  exists e'. split; [exact He'|].
  apply (Hcss ":hover" aj_base); [reflexivity | discriminate | reflexivity].
Defined.

(** C6 as stated fails for a suffix that is not null but empty: such an
    emote is skipped, and keeps its own properties although its base
    exists. *)
Lemma collapse_empty_suffix_counterexample :
  Dict.get
    (collapse_specials_properties
       [(("/aj", None), aj_base);
        (("/aj", Some ""), mkPartial "/aj" (Some "") [])])
    ("/aj", Some "")
  = Some (mkPartial "/aj" (Some "") [])
  ∧ mkPartial "/aj" (Some "") []
    ≠ mkPartial "/aj" (Some "") (Dict.update (css aj_base) []).
Proof. split; [vm_compute; reflexivity | discriminate]. Qed.

Lemma Forall_set_item {K V} `{EqDecision K} (P : K * V → Prop)
    (d : Dict.t K V) k v :
  Forall P d → (∀ k', k' = k → P (k', v)) →
  Forall P (Dict.set_item d k v).
Proof.
  intros Hd Hkv. induction d as [|[k' v'] d IH]; cbn.
  - constructor; [by apply Hkv | constructor].
  - apply Forall_cons in Hd as [H1 H2].
    destruct (decide (k' = k)) as [->|Hne].
    + constructor; [by apply Hkv | done].
    + constructor; [done | by apply IH].
Qed.

(** [build_emote_map] puts every emote at the key of its name and
    suffix, and never has a key twice. *)
Lemma build_emote_map_keyed partial_emotes :
  keyed (build_emote_map partial_emotes).1
  ∧ Dict.wf (build_emote_map partial_emotes).1.
Proof.
  induction partial_emotes as [|e l [IH1 IH2]] using rev_ind.
  - split; [constructor | apply NoDup_nil_2].
  - rewrite build_emote_map_snoc. cbn [fst].
    unfold merge_emote. fold (key_of e).
    destruct (Dict.get (build_emote_map l).1 (key_of e)) as [base|] eqn:Hb;
      cbn [fst]; (split; [|by apply wf_set_item]).
    + apply Forall_set_item; [done|]. intros k' ->. cbn.
      apply get_Some_elem in Hb. unfold keyed in IH1.
      rewrite Forall_forall in IH1. by apply (IH1 _ Hb).
    + apply Forall_set_item; [done|]. by intros k' ->.
Qed.

(** ** Classification *)

Lemma classify_loop_spec normal custom (items : emote_map) key :
  Dict.wf items →
  Dict.get (classify_loop normal custom items).1 key
  = match Dict.get items key with
    | Some e => if is_normal e then Some e else Dict.get normal key
    | None => Dict.get normal key
    end
  ∧ Dict.get (classify_loop normal custom items).2 key
    = match Dict.get items key with
      | Some e =>
          if is_normal e then Dict.get custom key else Some (to_custom e)
      | None => Dict.get custom key
      end.
Proof.
  revert normal custom.
  induction items as [|[k e] rest IH]; intros normal custom Hwf; [done|].
  unfold Dict.wf in Hwf. cbn in Hwf. apply NoDup_cons in Hwf as [Hk Hwf].
  cbn [classify_loop Dict.get].
  destruct (decide (k = key)) as [->|Hne].
  - assert (Dict.get rest key = None) as Hnone by (by apply get_None).
    destruct (is_normal e) eqn:Hn.
    + destruct (IH (Dict.set_item normal key e) custom Hwf) as [-> ->].
      rewrite Hnone. by rewrite get_set_item_eq.
    + destruct (IH normal (Dict.set_item custom key (to_custom e)) Hwf)
        as [-> ->].
      rewrite Hnone. by rewrite get_set_item_eq.
  - destruct (is_normal e) eqn:Hn.
    + destruct (IH (Dict.set_item normal k e) custom Hwf) as [-> ->].
      by rewrite get_set_item_ne.
    + destruct (IH normal (Dict.set_item custom k (to_custom e)) Hwf)
        as [-> ->].
      by rewrite get_set_item_ne.
Qed.

Lemma is_normal_spec e :
  is_normal e = true ↔
    is_Some (Dict.get (css e) "background-image")
    ∧ is_Some (Dict.get (css e) "width")
    ∧ is_Some (Dict.get (css e) "height").
Proof.
  unfold is_normal, required_properties, Dict.contains. cbn.
  destruct (Dict.get (css e) "background-image"),
    (Dict.get (css e) "width"), (Dict.get (css e) "height"); cbn;
    split; try done; intros (H1 & H2 & H3);
    try (by destruct H1); try (by destruct H2); by destruct H3.
Qed.

Example classify_example :
  classify_emotes
    [(("/aj", None), aj_base);
     (("/red", None), mkPartial "/red" None [("color", "red")])]
  = ([(("/aj", None), aj_base)],
     [(("/red", None), mkCustom "/red" None [("color", "red")])]).
Proof. vm_compute. reflexivity. Qed.

(** C7.  [classify_emotes] partitions the emote map: an emote whose
    properties include background-image, width and height is in the normal
    map, unchanged, and not in the custom map; any other emote is in the
    custom map, with its name, suffix and properties unchanged, and not
    in the normal map; a key that is not in the emote map is in neither.
    background-position plays no part. *)
Theorem classify_emotes_partition (emotes : emote_map) :
  Dict.wf emotes →
  ∀ key,
    match Dict.get emotes key with
    | Some e =>
        (is_normal e = true ↔
           is_Some (Dict.get (css e) "background-image")
           ∧ is_Some (Dict.get (css e) "width")
           ∧ is_Some (Dict.get (css e) "height"))
        ∧ if is_normal e then
            Dict.get (classify_emotes emotes).1 key = Some e
            ∧ Dict.get (classify_emotes emotes).2 key = None
          else
            Dict.get (classify_emotes emotes).1 key = None
            ∧ Dict.get (classify_emotes emotes).2 key
              = Some (mkCustom (name e) (suffix e) (css e))
    | None =>
        Dict.get (classify_emotes emotes).1 key = None
        ∧ Dict.get (classify_emotes emotes).2 key = None
    end.
Proof.
  intros Hwf key. unfold classify_emotes.
  destruct (classify_loop_spec [] [] emotes key Hwf) as [-> ->].
  destruct (Dict.get emotes key) as [e|]; [|done].
  split; [apply is_normal_spec|]. by destruct (is_normal e).
Qed.

Lemma classify_emotes_partition_witness :
  Dict.get (classify_emotes aj_and_red).1 (("/red", None) : name_pair) = None
  ∧ Dict.get (classify_emotes aj_and_red).2 (("/red", None) : name_pair)
    = Some (mkCustom "/red" None [("color", "red")]).
Proof.
  assert (Dict.wf aj_and_red) as Hwf.
  { apply (bool_decide_unpack _). vm_compute. exact I. }
  exact (proj2 (classify_emotes_partition _ Hwf ("/red", None))).
Defined.

(** ** Validation of the spritesheets *)

Lemma unpositioned_cons k e (rest : list (name_pair * NormalEmote)) :
  unpositioned ((k, e) :: rest)
  = match n_offset e with
    | None => k :: unpositioned rest
    | Some _ => unpositioned rest
    end.
Proof.
  unfold unpositioned.
  rewrite (filter_cons (λ ke : name_pair * NormalEmote, n_offset ke.2 = None)).
  cbn. destruct (n_offset e) as [o|] eqn:Ho.
  - by destruct (decide (Some o = None)).
  - by destruct (decide (None = None)).
Qed.

Lemma verify_loop_spec (items : list (name_pair * NormalEmote)) :
  verify_loop items
  = ((λ ke, (ke.1, with_offset ke.2)) <$> items, unpositioned items).
Proof.
  induction items as [|[k e] rest IH]; [done|].
  cbn [verify_loop]. rewrite IH, unpositioned_cons. cbn.
  unfold with_offset. by destruct (n_offset e).
Qed.

Lemma with_offset_is_Some e : is_Some (n_offset (with_offset e)).
Proof. unfold with_offset. destruct (n_offset e) eqn:Ho; cbn; eauto. Qed.

Lemma verify_spritesheet_spec image_url ss :
  _verify_spritesheet image_url ss
  = (mkSheet (ss_image_url ss)
       ((λ ke, (ke.1, with_offset ke.2)) <$> ss_emotes ss),
     if decide (1 < length (unpositioned (ss_emotes ss)))
     then [ErrorMultipleUnsized image_url (unpositioned (ss_emotes ss))]
     else []).
Proof. unfold _verify_spritesheet. by rewrite verify_loop_spec. Qed.

Lemma verify_all_spec (sheets : list (string * Spritesheet)) :
  (verify_all sheets).1
  = (λ us, (us.1, (_verify_spritesheet us.1 us.2).1)) <$> sheets
  ∧ (verify_all sheets).2
    = concat ((λ us, (_verify_spritesheet us.1 us.2).2) <$> sheets).
Proof.
  induction sheets as [|[url ss] rest [IH1 IH2]]; [done|].
  cbn [verify_all].
  destruct (_verify_spritesheet url ss) as [ss' log] eqn:E.
  destruct (verify_all rest) as [rest' log']. cbn in *.
  rewrite E. cbn. by rewrite IH1, IH2.
Qed.

Example verify_two_unpositioned :
  _verify_spritesheet "s.png" sheet_two_unpositioned
  = (mkSheet "s.png"
       [(("/a", None),
         mkNormal "/a" None [] "s.png" (10, 10)%Z (Some (0, 0)%Z));
        (("/b", None),
         mkNormal "/b" None [] "s.png" (10, 10)%Z (Some (-10, 0)%Z));
        (("/c", Some ":hover"),
         mkNormal "/c" (Some ":hover") [] "s.png" (10, 10)%Z
           (Some (0, 0)%Z))],
     [ErrorMultipleUnsized "s.png" [("/a", None); ("/c", Some ":hover")]]).
Proof. vm_compute. reflexivity. Qed.

(** ** The whole pipeline on one rule *)

Lemma parse_smile_selector :
  parse_selectors [sel "" "" "|" "/smile" "" ""]
  = ([], [Some ("/smile", None)]).
Proof. vm_compute. reflexivity. Qed.

Lemma filter_smile flag :
  filter_ponyscript_ignores [smile_rule flag] = ([smile_rule false], []).
Proof. destruct flag; vm_compute; reflexivity. Qed.

(** C9, amended.  With an empty explicit-request set, and utilities that
    resolve the url to "s.png", the sizes to 10 and the position to
    (0, 0), the pipeline on the single smile rule prints nothing and
    returns one spritesheet "s.png" holding the single normal emote
    ("/smile", null), the name being the path with its leading slash, of
    size (10, 10) and offset (0, 0), and an empty custom-emote map. *)
Theorem pipeline_smile
    (as_url : string → option string) (as_size : string → option Z)
    (as_position : string → Z → Z → option (Z * Z))
    (combine_name_pair : string → option string → string) (flag : bool) :
  as_url "url(s.png)" = Some "s.png" →
  as_size "10px" = Some 10%Z →
  as_position "0px 0px" 10%Z 10%Z = Some (0, 0)%Z →
  pipeline as_url as_size as_position combine_name_pair [] [smile_rule flag]
  = smile_result "/smile".
Proof.
  intros Hurl Hsize Hpos. unfold pipeline.
  rewrite filter_smile. cbn [lift fst snd mbind M_bind app].
  unfold extract_raw_emotes, extract_rule.
  cbn [fmap list_fmap selectors smile_rule].
  rewrite parse_smile_selector.
  cbn -[sel].
  rewrite (bool_decide_eq_false_2 (combine_name_pair "/smile" None ∈ []))
    by apply not_elem_of_nil.
  vm_compute. rewrite Hurl. vm_compute. rewrite Hsize. vm_compute.
  rewrite Hpos. reflexivity.
Qed.

Lemma pipeline_smile_witness :
  pipeline (λ _, Some "s.png") (λ _, Some 10%Z) (λ _ _ _, Some (0, 0)%Z)
    (λ n s, n +:+ default "" s) [] [smile_rule false]
  = smile_result "/smile".
Proof.
  apply (pipeline_smile (λ _, Some "s.png") (λ _, Some 10%Z)
           (λ _ _ _, Some (0, 0)%Z) (λ n s, n +:+ default "" s) false);
    reflexivity.
Defined.

(** C9 as stated fails: the emote is not named "smile"; the result is
    not the one with the emote ("smile", null). *)
Lemma pipeline_smile_name_counterexample :
  pipeline (λ _, Some "s.png") (λ _, Some 10%Z) (λ _ _ _, Some (0, 0)%Z)
    (λ n s, n +:+ default "" s) [] [smile_rule false]
  ≠ smile_result "smile".
Proof. vm_compute. discriminate. Qed.

Example build_two_plain :
  build_spritesheet_map (λ _, Some "s.png") (λ _, Some 10%Z)
    (λ _ _ _, Some (0, 0)%Z) two_plain
  = ([WarnExtraProperty ("/b", None) "color" "red";
      ErrorMultipleUnsized "s.png" [("/a", None); ("/b", None)]],
     Ok [("s.png", two_plain_sheet)]).
Proof. vm_compute. reflexivity. Qed.

(** ** Strings *)

Lemma app_cons (x : ascii) (a b : string) :
  String x a +:+ b = String x (a +:+ b).
Proof. reflexivity. Qed.

Lemma app_nil_l (b : string) : "" +:+ b = b.
Proof. reflexivity. Qed.

Lemma string_app_assoc (a b c : string) : (a +:+ b) +:+ c = a +:+ b +:+ c.
Proof.
  induction a as [|x a IH]; [done|]. rewrite !app_cons. by f_equal.
Qed.

Lemma string_app_nil_r (a : string) : a +:+ "" = a.
Proof. induction a as [|x a IH]; [done|]. rewrite app_cons. by f_equal. Qed.

Lemma string_length_app (a b : string) :
  String.length (a +:+ b) = String.length a + String.length b.
Proof.
  induction a as [|x a IH]; [done|]. rewrite app_cons. cbn. by f_equal.
Qed.

Lemma substring_app (w t : string) :
  String.substring 0 (String.length w) (w +:+ t) = w.
Proof.
  induction w as [|x w IH]; [by destruct t|].
  rewrite app_cons. cbn. by f_equal.
Qed.

Lemma consumed_app (w t : string) : Re.consumed (w +:+ t) t = w.
Proof.
  unfold Re.consumed. rewrite string_length_app.
  replace (String.length w + String.length t - String.length t)
    with (String.length w) by lia.
  apply substring_app.
Qed.

Lemma is_char_true c c' : Chars.is_char c c' = true ↔ c = c'.
Proof. unfold Chars.is_char. apply Ascii.eqb_eq. Qed.

Lemma strip_app l t : strip l (l +:+ t) = Some t.
Proof.
  induction l as [|c l IH]; [done|]. rewrite app_cons. cbn.
  unfold Chars.is_char. by rewrite Ascii.eqb_refl.
Qed.

Lemma strip_Some l s t : strip l s = Some t → s = l +:+ t.
Proof.
  revert s. induction l as [|c l IH]; intros s; cbn.
  - by intros [= ->].
  - destruct s as [|c' s]; [done|].
    destruct (Chars.is_char c c') eqn:E; [|done].
    apply is_char_true in E as ->. intros H.
    by rewrite (IH _ H), app_cons.
Qed.

Lemma all_chars_app p a b :
  all_chars p (a +:+ b) = all_chars p a && all_chars p b.
Proof.
  induction a as [|x a IH]; [done|]. rewrite app_cons. cbn.
  rewrite IH. by rewrite andb_assoc.
Qed.

(** ** The matcher, construct by construct *)

Section Run.
Context {A : Type}.
Implicit Types (k : string → Re.groups → option A) (g : Re.groups).

Lemma run_Lit l r s g k :
  Re.run (Re.Lit l r) s g k
  = match strip l s with
    | Some t => Re.run r t g k
    | None => None
    end.
Proof.
  revert s. induction l as [|c l IH]; intros s; cbn; [done|].
  destruct s as [|c' s]; [done|].
  destruct (Chars.is_char c c'); [apply IH | done].
Qed.

Lemma run_Seq r1 r2 s g k :
  Re.run (Re.Seq r1 r2) s g k
  = Re.run r1 s g (λ s1 g1, Re.run r2 s1 g1 k).
Proof. reflexivity. Qed.

Lemma run_Star p s g k : Re.run (Re.Star p) s g k = Re.star p s g k.
Proof. reflexivity. Qed.

Lemma run_Lit_app l r t g k :
  Re.run (Re.Lit l r) (l +:+ t) g k = Re.run r t g k.
Proof. by rewrite run_Lit, strip_app. Qed.

(** A repetition stops where the class ends, if the continuation
    cannot take over any earlier. *)
Lemma star_exact p w t g k :
  all_chars p w = true → starts_with p t = false →
  (∀ c s', p c = true → k (String c s') g = None) →
  Re.star p (w +:+ t) g k = k t g.
Proof.
  intros Hw Ht Hk. induction w as [|c w IH].
  - rewrite app_nil_l. destruct t as [|c t]; [done|].
    cbn in *. by rewrite Ht.
  - rewrite app_cons. cbn in *. apply andb_true_iff in Hw as [Hc Hw].
    rewrite Hc, (IH Hw). destruct (k t g) eqn:E; [done|].
    by apply Hk.
Qed.

Lemma star_sound p s g k x :
  Re.star p s g k = Some x →
  ∃ w t, s = w +:+ t ∧ all_chars p w = true ∧ k t g = Some x.
Proof.
  induction s as [|c s IH]; cbn.
  - intros H. by exists "", "".
  - destruct (p c) eqn:Hc.
    + destruct (Re.star p s g k) as [y|] eqn:E.
      * intros [= ->]. destruct (IH eq_refl) as (w & t & -> & Hw & Hk).
        exists (String c w), t. rewrite app_cons. cbn. by rewrite Hc, Hw.
      * intros H. by exists "", (String c s).
    + intros H. by exists "", (String c s).
Qed.

Lemma token_exact n l p tok t g k :
  token l p tok = true → starts_with p t = false →
  (∀ c s' g', p c = true → k (String c s') g' = None) →
  Re.run (token_re n l p) (tok +:+ t) g k = k t ((n, tok) :: g).
Proof.
  unfold token, token_re. intros Htok Ht Hk.
  destruct (strip l tok) as [w|] eqn:Hs; [|done].
  apply strip_Some in Hs as ->. apply andb_true_iff in Htok as [Hw1 Hw].
  cbn [Re.run]. rewrite string_app_assoc, run_Lit_app.
  destruct w as [|c w]; [done|]. cbn in Hw1, Hw.
  rewrite app_cons. unfold Re.Plus. cbn [Re.run].
  rewrite Hw1 in *. cbn in Hw.
  rewrite star_exact; [|done|done|by intros; apply Hk].
  do 3 f_equal. rewrite <- app_cons, <- string_app_assoc.
  apply consumed_app.
Qed.

Lemma token_sound n l p s g k x :
  Re.run (token_re n l p) s g k = Some x →
  ∃ tok t,
    s = tok +:+ t ∧ token l p tok = true ∧ k t ((n, tok) :: g) = Some x.
Proof.
  unfold token_re. cbn [Re.run]. rewrite run_Lit.
  destruct (strip l s) as [u|] eqn:Hs; [|done].
  apply strip_Some in Hs as ->. unfold Re.Plus. cbn [Re.run].
  destruct u as [|c u]; [done|]. destruct (p c) eqn:Hc; [|done].
  intros (w & t & -> & Hw & Hk)%star_sound.
  exists (l +:+ String c w), t. split; [|split].
  - by rewrite string_app_assoc, app_cons.
  - unfold token. rewrite strip_app. cbn. by rewrite Hc, Hw.
  - rewrite <- Hk. do 3 f_equal.
    rewrite <- app_cons, <- string_app_assoc. by rewrite consumed_app.
Qed.

Lemma token_absent n l p s g k :
  strip l s = None → Re.run (token_re n l p) s g k = None.
Proof. intros H. unfold token_re. cbn [Re.run]. by rewrite run_Lit, H. Qed.
End Run.

(** ** The emote pattern *)

Lemma emote_re_parts :
  emote_re
  = Re.Lit "a"
      (Re.Seq (Re.Star Chars.space) (Re.Seq (Re.Opt (pseudo_re 1)) attr_re)).
Proof. reflexivity. Qed.

Lemma space_not_colon c : Chars.space c = true → Chars.is_char ":" c = false.
Proof.
  intros H. destruct (Chars.is_char ":" c) eqn:E; [|done].
  apply is_char_true in E as <-. discriminate.
Qed.

Lemma space_not_bracket c :
  Chars.space c = true → Chars.is_char "[" c = false.
Proof.
  intros H. destruct (Chars.is_char "[" c) eqn:E; [|done].
  apply is_char_true in E as <-. discriminate.
Qed.

Lemma pseudo_not_bracket c :
  Chars.pseudo c = true → Chars.is_char "[" c = false.
Proof.
  intros H. destruct (Chars.is_char "[" c) eqn:E; [|done].
  apply is_char_true in E as <-. discriminate.
Qed.

Lemma pseudo_not_newline c :
  Chars.pseudo c = true → Chars.is_char Chars.newline c = false.
Proof.
  intros H. destruct (Chars.is_char Chars.newline c) eqn:E; [|done].
  apply is_char_true in E as <-. discriminate.
Qed.

Lemma name_not_dquote c :
  Chars.name c = true → Chars.is_char dquote c = false.
Proof.
  intros H. destruct (Chars.is_char dquote c) eqn:E; [|done].
  apply is_char_true in E as <-. discriminate.
Qed.

Lemma token_cons l p tok :
  token (String l "") p tok = true →
  ∃ c w, tok = String l (String c w) ∧ p c = true ∧ all_chars p w = true.
Proof.
  unfold token. destruct (strip (String l "") tok) as [u|] eqn:Hs; [|done].
  apply strip_Some in Hs as ->. destruct u as [|c w]; [done|]. cbn.
  intros [Hc [_ Hw]%andb_true_iff]%andb_true_iff. by exists c, w.
Qed.

Lemma opt_token_cases pc :
  opt_token pc = true →
  pc = "" ∨ (token ":" Chars.pseudo pc = true ∧ String.eqb pc "" = false).
Proof.
  unfold opt_token. destruct (String.eqb_spec pc "") as [->|Hne]; [by left|].
  cbn. intros H. by right.
Qed.

Lemma tail_ok_cases tail :
  tail_ok tail = true → tail = "" ∨ tail = String Chars.newline "".
Proof.
  unfold tail_ok. destruct (String.eqb_spec tail ""); [by left|].
  destruct (String.eqb_spec tail (String Chars.newline "")); [by right|done].
Qed.

Lemma run_tail pc2 tail g :
  opt_token pc2 = true → tail_ok tail = true →
  Re.run tail_re (pc2 +:+ tail) g k0 = Some (opt_group 3 pc2 ++ g).
Proof.
  intros Hpc Htail. unfold tail_re. cbn [Re.run].
  apply opt_token_cases in Hpc as [->|[Htok Hne]].
  - rewrite app_nil_l.
    rewrite (token_absent 3 ":" Chars.pseudo)
      by (by apply tail_ok_cases in Htail as [->| ->]).
    by apply tail_ok_cases in Htail as [->| ->].
  - change (pseudo_re 3) with (token_re 3 ":" Chars.pseudo).
    rewrite token_exact; [| done | |].
    + unfold opt_group. rewrite Hne.
      by apply tail_ok_cases in Htail as [->| ->].
    + by apply tail_ok_cases in Htail as [->| ->].
    + intros c s' g' Hc. cbn [Re.run Re.at_end]. destruct s'; [|done].
      by rewrite (pseudo_not_newline c Hc).
Qed.

(** A trailing pseudo-class with a character outside the class. *)
Lemma run_tail_bad w c t' g :
  all_chars Chars.pseudo w = true → Chars.pseudo c = false →
  Re.at_end (String c t') = false →
  Re.run tail_re (":" +:+ w +:+ String c t') g k0 = None.
Proof.
  intros Hw Hc Hend. unfold tail_re, pseudo_re. cbn [Re.run].
  rewrite run_Lit_app. unfold Re.Plus. cbn [Re.run].
  destruct w as [|c0 w].
  - rewrite app_nil_l, Hc. cbn. by destruct t'.
  - rewrite !app_cons. cbn in Hw. apply andb_true_iff in Hw as [Hc0 Hw].
    rewrite Hc0. rewrite star_exact; [| done | by cbn | ].
    + cbn [Re.run]. rewrite Hend. cbn.
      by destruct (w +:+ String c t') eqn:E; [destruct w|].
    + intros c1 s' Hc1. cbn [Re.run Re.at_end]. destruct s'; [|done].
      by rewrite (pseudo_not_newline c1 Hc1).
Qed.

Lemma opt_dot_absent {A} r R g (k : string → Re.groups → option A) :
  Re.run (Re.Seq (Re.Opt (Re.Chr Chars.dot)) (Re.Lit ("=" +:+ dq) r))
    ("=" +:+ dq +:+ R) g k
  = Re.run r R g k.
Proof.
  change ("=" +:+ dq +:+ R) with (String "=" (String dquote R)).
  change ("=" +:+ dq) with (String "=" (String dquote "")).
  cbn. reflexivity.
Qed.

Lemma opt_dot_present {A} c r R g (k : string → Re.groups → option A) :
  Chars.dot c = true →
  Re.run (Re.Seq (Re.Opt (Re.Chr Chars.dot)) (Re.Lit ("=" +:+ dq) r))
    (String c "" +:+ "=" +:+ dq +:+ R) g k
  = Re.run r R g k.
Proof.
  intros Hc.
  change (String c "" +:+ "=" +:+ dq +:+ R)
    with (String c (String "=" (String dquote R))).
  change ("=" +:+ dq) with (String "=" (String dquote "")).
  cbn [Re.run Re.Lit]. rewrite Hc.
  change (Chars.is_char "=" "=") with true.
  change (Chars.is_char dquote dquote) with true.
  change (Chars.is_char dquote "=") with false. cbn iota.
  destruct (Re.run r R g k); [done|].
  by destruct (Chars.is_char "=" c).
Qed.

Lemma run_attr {A} op path t g (k : string → Re.groups → option A) :
  op_ok op = true → path_ok path = true →
  Re.run attr_re
    ("[href" +:+ op +:+ "=" +:+ dq +:+ path +:+ dq +:+ "]" +:+ t) g k
  = Re.run tail_re t ((2, path) :: g) k.
Proof.
  intros Hop Hpath. unfold attr_re. rewrite run_Lit_app.
  change (Re.Group 2 (Re.Lit "/" (Re.Plus Chars.name)))
    with (token_re 2 "/" Chars.name).
  assert (Re.run (Re.Seq (token_re 2 "/" Chars.name)
                    (Re.Lit (dq +:+ "]") tail_re))
            (path +:+ dq +:+ "]" +:+ t) g k
          = Re.run tail_re t ((2, path) :: g) k) as Hrest.
  { cbn [Re.run]. rewrite token_exact; [| done | by cbn |].
    - by rewrite <- (string_app_assoc dq "]"), run_Lit_app.
    - intros c s' g' Hc. rewrite run_Lit.
      change (dq +:+ "]") with (String dquote "]"). cbn [strip].
      by rewrite (name_not_dquote c Hc). }
  destruct op as [|c [|c' op']]; [| |done].
  - by rewrite app_nil_l, opt_dot_absent.
  - by rewrite opt_dot_present.
Qed.

Lemma attr_needs_bracket {A} c s g (k : string → Re.groups → option A) :
  Chars.is_char "[" c = false → Re.run attr_re (String c s) g k = None.
Proof.
  intros Hc. unfold attr_re. rewrite run_Lit. cbn [strip]. by rewrite Hc.
Qed.

Lemma run_head {A} ws pc1 t (k : string → Re.groups → option A) :
  all_chars Chars.space ws = true → opt_token pc1 = true →
  Re.run emote_re ("a" +:+ ws +:+ pc1 +:+ "[href" +:+ t) [] k
  = Re.run attr_re ("[href" +:+ t) (opt_group 1 pc1) k.
Proof.
  intros Hws Hpc. rewrite emote_re_parts, run_Lit_app.
  change (pseudo_re 1) with (token_re 1 ":" Chars.pseudo).
  cbn [Re.run]. rewrite star_exact; [| done | |].
  - apply opt_token_cases in Hpc as [->|[Htok Hne]].
    + rewrite app_nil_l. by rewrite token_absent.
    + rewrite token_exact; [| done | by cbn |].
      * unfold opt_group. rewrite Hne.
        destruct (Re.run attr_re _ _ k); [done|].
        apply token_cons in Htok as (c & w & -> & _).
        rewrite app_cons. by apply attr_needs_bracket.
      * intros c s' g' Hc. apply attr_needs_bracket.
        by apply pseudo_not_bracket.
  - apply opt_token_cases in Hpc as [->|[Htok Hne]]; [done|].
    by apply token_cons in Htok as (c & w & -> & _).
  - intros c s' Hc. rewrite token_absent.
    + apply attr_needs_bracket. by apply space_not_bracket.
    + cbn [strip]. by rewrite space_not_colon.
Qed.

(** A leading pseudo-class with a character outside the class. *)
Lemma run_head_bad {A} ws w c t' (k : string → Re.groups → option A) :
  all_chars Chars.space ws = true →
  all_chars Chars.pseudo w = true → Chars.pseudo c = false →
  Chars.is_char "[" c = false →
  Re.run emote_re ("a" +:+ ws +:+ ":" +:+ w +:+ String c t') [] k = None.
Proof.
  intros Hws Hw Hc Hb. rewrite emote_re_parts, run_Lit_app.
  cbn [Re.run]. rewrite star_exact; [| done | by cbn |].
  - unfold pseudo_re. cbn [Re.run]. rewrite run_Lit_app.
    unfold Re.Plus. cbn [Re.run].
    assert (Re.run attr_re (":" +:+ w +:+ String c t') [] k = None) as ->
      by (by apply attr_needs_bracket).
    destruct w as [|c0 w].
    + rewrite app_nil_l, Hc. done.
    + rewrite app_cons. cbn in Hw. apply andb_true_iff in Hw as [Hc0 Hw].
      rewrite Hc0. rewrite star_exact; [| done | by cbn |].
      * by rewrite attr_needs_bracket.
      * intros c1 s' Hc1. apply attr_needs_bracket.
        by apply pseudo_not_bracket.
  - intros c1 s' Hc1.
    change (pseudo_re 1) with (token_re 1 ":" Chars.pseudo).
    rewrite token_absent.
    + apply attr_needs_bracket. by apply space_not_bracket.
    + cbn [strip]. by rewrite space_not_colon.
Qed.

(** The pattern on a selector made of acceptable parts. *)
Lemma re_match_sel ws pc1 op path pc2 tail :
  selector_ok ws pc1 op path pc2 tail = true →
  Re.re_match emote_re (sel ws pc1 op path pc2 tail)
  = Some (opt_group 3 pc2 ++ (2, path) :: opt_group 1 pc1).
Proof.
  unfold selector_ok. rewrite !andb_true_iff.
  intros [[[[[Hws Hpc1] Hop] Hpath] Hpc2] Htail].
  unfold Re.re_match, sel.
  rewrite run_head, run_attr by done. by apply run_tail.
Qed.

(** ... and only on those. *)
Lemma opt_token_sound {A} n s g (k : string → Re.groups → option A) x :
  Re.run (Re.Opt (pseudo_re n)) s g k = Some x →
  ∃ pc t g', s = pc +:+ t ∧ opt_token pc = true ∧ k t g' = Some x.
Proof.
  change (pseudo_re n) with (token_re n ":" Chars.pseudo). cbn [Re.run].
  destruct (Re.run (token_re n ":" Chars.pseudo) s g k) as [y|] eqn:E.
  - intros [= ->].
    apply token_sound in E as (tok & t & -> & Htok & Hk).
    exists tok, t, ((n, tok) :: g). split; [done|]. split; [|done].
    unfold opt_token. by rewrite Htok, orb_true_r.
  - intros Hk. exists "", s, g. done.
Qed.

Lemma attr_sound {A} s g (k : string → Re.groups → option A) x :
  Re.run attr_re s g k = Some x →
  ∃ op path t g',
    s = "[href" +:+ op +:+ "=" +:+ dq +:+ path +:+ dq +:+ "]" +:+ t
    ∧ op_ok op = true ∧ path_ok path = true
    ∧ Re.run tail_re t g' k = Some x.
Proof.
  unfold attr_re. rewrite run_Lit.
  destruct (strip "[href" s) as [s1|] eqn:Hs; [|done].
  apply strip_Some in Hs as ->.
  change (Re.Group 2 (Re.Lit "/" (Re.Plus Chars.name)))
    with (token_re 2 "/" Chars.name).
  cbn [Re.run].
  assert (∀ u, Re.run (Re.Lit ("=" +:+ dq)
                 (Re.Seq (token_re 2 "/" Chars.name)
                    (Re.Lit (dq +:+ "]") tail_re))) u g k = Some x →
            ∃ path t g',
              u = "=" +:+ dq +:+ path +:+ dq +:+ "]" +:+ t
              ∧ path_ok path = true ∧ Re.run tail_re t g' k = Some x)
    as Hrest.
  { intros u. rewrite run_Lit.
    destruct (strip ("=" +:+ dq) u) as [u1|] eqn:Hu; [|done].
    apply strip_Some in Hu as ->. cbn [Re.run].
    intros (path & u2 & -> & Hpath & H)%token_sound.
    rewrite run_Lit in H.
    destruct (strip (dq +:+ "]") u2) as [u3|] eqn:Hu2; [|done].
    apply strip_Some in Hu2 as ->.
    exists path, u3, ((2, path) :: g). split; [|done].
    by rewrite !string_app_assoc. }
  destruct s1 as [|c s1].
  - intros H. apply Hrest in H as (path & t & g' & Heq & Hp & Ht).
    exists "", path, t, g'. by rewrite app_nil_l, <- Heq.
  - destruct (Chars.dot c) eqn:Hc.
    + destruct (Re.run _ s1 g k) as [y|] eqn:E.
      * intros [= ->]. apply Hrest in E as (path & t & g' & -> & Hp & Ht).
        exists (String c ""), path, t, g'. done.
      * intros H. apply Hrest in H as (path & t & g' & Heq & Hp & Ht).
        exists "", path, t, g'. by rewrite app_nil_l, <- Heq.
    + intros H. apply Hrest in H as (path & t & g' & Heq & Hp & Ht).
      exists "", path, t, g'. by rewrite app_nil_l, <- Heq.
Qed.

Lemma tail_sound s g x :
  Re.run tail_re s g k0 = Some x →
  ∃ pc tail, s = pc +:+ tail ∧ opt_token pc = true ∧ tail_ok tail = true.
Proof.
  unfold tail_re. rewrite run_Seq.
  intros (pc & t & g' & -> & Hpc & H)%opt_token_sound.
  exists pc, t. split; [done|]. split; [done|].
  cbn [Re.run] in H. destruct (Re.at_end t) eqn:E; [|done].
  destruct t as [|c [|c' t]]; [done| |done]. cbn [Re.at_end] in E.
  apply is_char_true in E as <-. done.
Qed.

Lemma re_match_sound s g :
  Re.re_match emote_re s = Some g →
  ∃ ws pc1 op path pc2 tail,
    s = sel ws pc1 op path pc2 tail
    ∧ selector_ok ws pc1 op path pc2 tail = true.
Proof.
  unfold Re.re_match. rewrite emote_re_parts, run_Lit.
  destruct (strip "a" s) as [s1|] eqn:Hs; [|done].
  apply strip_Some in Hs as ->. rewrite run_Seq, run_Star.
  intros (ws & s2 & -> & Hws & H)%star_sound.
  rewrite run_Seq in H.
  apply opt_token_sound in H as (pc1 & s3 & g1 & -> & Hpc1 & H).
  apply attr_sound in H as (op & path & s4 & g2 & -> & Hop & Hpath & H).
  apply tail_sound in H as (pc2 & tail & -> & Hpc2 & Htail).
  exists ws, pc1, op, path, pc2, tail. split; [done|].
  unfold selector_ok. by rewrite Hws, Hpc1, Hop, Hpath, Hpc2, Htail.
Qed.

Lemma token_not_empty l p pc :
  token (String l "") p pc = true → String.eqb pc "" = false.
Proof. intros (c & w & -> & _)%token_cons. done. Qed.

Lemma parse_sel ws pc1 op path pc2 tail :
  selector_ok ws pc1 op path pc2 tail = true →
  _parse_emote_selector (sel ws pc1 op path pc2 tail)
  = ((if negb (String.eqb pc1 "") && negb (String.eqb pc2 "")
      then [WarnMultiplePseudo (sel ws pc1 op path pc2 tail)] else [])
     ++ (if bool_decide
              ((if String.eqb pc1 "" then pc2 else pc1)
                 ∈ [""; ":hover"; ":active"; ":nth-of-type(n)"])
         then [] else [WarnUnknownPseudo (sel ws pc1 op path pc2 tail)]),
     Some (path,
           if bool_decide
                ((if String.eqb pc1 "" then pc2 else pc1)
                   ∈ [""; ":nth-of-type(n)"])
           then None
           else Some (if String.eqb pc1 "" then pc2 else pc1))).
Proof.
  intros Hok. unfold _parse_emote_selector. rewrite re_match_sel by done.
  unfold selector_ok in Hok. rewrite !andb_true_iff in Hok.
  destruct Hok as [[[[[_ Hpc1] _] _] Hpc2] _].
  generalize (sel ws pc1 op path pc2 tail). intros selector.
  apply opt_token_cases in Hpc1 as [->|[Ht1 Hn1]];
    apply opt_token_cases in Hpc2 as [->|[Ht2 Hn2]];
    unfold opt_group, py_or, truthy; rewrite ?Hn1, ?Hn2;
    cbn [String.eqb app Re.group Nat.eqb negb andb];
    rewrite ?Hn1, ?Hn2;
    cbn [String.eqb app Re.group Nat.eqb negb andb];
    rewrite ?Hn1, ?Hn2; cbn [negb andb];
    repeat case_bool_decide; try done; set_unfold; naive_solver.
Qed.

Lemma parse_not_sel s :
  (∀ ws pc1 op path pc2 tail,
     selector_ok ws pc1 op path pc2 tail = true →
     s ≠ sel ws pc1 op path pc2 tail) →
  _parse_emote_selector s = ([], None).
Proof.
  intros Hno. unfold _parse_emote_selector.
  destruct (Re.re_match emote_re s) as [g|] eqn:E; [|done].
  apply re_match_sound in E as (ws & pc1 & op & path & pc2 & tail & -> & Hok).
  by destruct (Hno ws pc1 op path pc2 tail Hok).
Qed.


(** ** _parse_emote_selector against the grammar *)

Example parse_spaced :
  _parse_emote_selector spaced = ([], Some ("/x", None)).
Proof. vm_compute. reflexivity. Qed.

Example parse_newline_ended :
  _parse_emote_selector newline_ended = ([], Some ("/x", None)).
Proof. vm_compute. reflexivity. Qed.

Example parse_two_pseudo :
  _parse_emote_selector two_pseudo
  = ([WarnMultiplePseudo two_pseudo], Some ("/x", Some ":hover")).
Proof. vm_compute. reflexivity. Qed.

(** C1, amended.  A selector made of the token a, optional white space,
    an optional pseudo-class, an attribute selector [href<op>="/path"]
    whose comparison character is absent or any one character but a
    newline and whose path matches /[\w:!]+, an optional second
    pseudo-class and an optional final newline is parsed to the pair
    (path, suffix).  The pseudo-class that counts is the leading one if
    there is one, else the trailing one; the suffix is that pseudo-class
    if it is ':hover' or ':active', null if it is ':nth-of-type(n)' or
    absent, and the pseudo-class itself, with the unknown-pseudo-class
    warning, otherwise; with two pseudo-classes the multiple-pseudo-class
    warning is printed first.  Any other string is parsed to null and
    nothing is printed. *)
Theorem parse_emote_selector_grammar :
  (∀ ws pc1 op path pc2 tail,
     selector_ok ws pc1 op path pc2 tail = true →
     let selector := sel ws pc1 op path pc2 tail in
     let pc := if String.eqb pc1 "" then pc2 else pc1 in
     _parse_emote_selector selector
     = ((if negb (String.eqb pc1 "") && negb (String.eqb pc2 "")
         then [WarnMultiplePseudo selector] else [])
        ++ (if bool_decide
                 (pc ∈ [""; ":hover"; ":active"; ":nth-of-type(n)"])
            then [] else [WarnUnknownPseudo selector]),
        Some (path,
              if bool_decide (pc ∈ [""; ":nth-of-type(n)"])
              then None else Some pc)))
  ∧ (∀ s,
       (∀ ws pc1 op path pc2 tail,
          selector_ok ws pc1 op path pc2 tail = true →
          s ≠ sel ws pc1 op path pc2 tail) →
       _parse_emote_selector s = ([], None)).
Proof.
  split.
  - intros ws pc1 op path pc2 tail Hok selector pc. by apply parse_sel.
  - apply parse_not_sel.
Qed.

Lemma parse_emote_selector_grammar_witness :
  _parse_emote_selector (sel " " "" "~" "/pp:3" ":before" "")
  = ([WarnUnknownPseudo (sel " " "" "~" "/pp:3" ":before" "")],
     Some ("/pp:3", Some ":before"))
  ∧ _parse_emote_selector ".foo" = ([], None).
Proof.
  split.
  - apply (proj1 parse_emote_selector_grammar " " "" "~" "/pp:3" ":before" "").
    reflexivity.
  - apply (proj2 parse_emote_selector_grammar ".foo").
    intros ws pc1 op path pc2 tail _ H. discriminate H.
Defined.

(** C1 as stated fails: [a:hover[href="/x"]:active] is not made of the
    token a, at most one pseudo-class and the attribute selector, and yet
    it is parsed to a pair, not to null. *)
Lemma parse_two_pseudo_counterexample :
  (¬ ∃ pc1 op path pc2,
       selector_ok "" pc1 op path pc2 "" = true
       ∧ (pc1 = "" ∨ pc2 = "")
       ∧ two_pseudo = sel "" pc1 op path pc2 "")
  ∧ _parse_emote_selector two_pseudo
    = ([WarnMultiplePseudo two_pseudo], Some ("/x", Some ":hover")).
Proof.
  split; [|apply parse_two_pseudo].
  intros (pc1 & op & path & pc2 & Hok & Hone & Heq).
  pose proof (parse_sel "" pc1 op path pc2 "" Hok) as H.
  rewrite <- Heq, parse_two_pseudo in H.
  destruct Hone as [-> | ->].
  - cbn [String.eqb negb andb app] in H.
    by destruct (bool_decide _) in H.
  - rewrite andb_false_r in H. cbn [app] in H.
    by destruct (bool_decide _) in H.
Qed.

(** ** Pseudo-classes with an index *)

Lemma digit_not_pseudo d :
  Chars.ascii_digit d = true →
  Chars.pseudo d = false ∧ Chars.is_char "[" d = false.
Proof.
  destruct d as [[] [] [] [] [] [] [] []]; intros H;
    vm_compute in H; try discriminate H; by vm_compute.
Qed.

Lemma selector_ok_swap ws op path pc tail :
  selector_ok ws "" op path pc tail = selector_ok ws pc op path "" tail.
Proof.
  unfold selector_ok. change (opt_token "") with true.
  by destruct (all_chars Chars.space ws), (opt_token pc), (op_ok op),
    (path_ok path), (tail_ok tail).
Qed.

Lemma nth_of_type_split (index rest : string) :
  (":nth-of-type(" +:+ index +:+ ")") +:+ rest
  = ":" +:+ "nth-of-type(" +:+ index +:+ ")" +:+ rest.
Proof. by rewrite !string_app_assoc. Qed.

(** A pseudo-class with a digit in it never matches, at either place. *)
Lemma re_match_indexed ws op path index tail :
  all_chars Chars.space ws = true → op_ok op = true →
  path_ok path = true →
  all_chars Chars.ascii_digit index = true → index ≠ "" →
  Re.re_match emote_re
    (sel ws "" op path (":nth-of-type(" +:+ index +:+ ")") tail) = None
  ∧ Re.re_match emote_re
      (sel ws (":nth-of-type(" +:+ index +:+ ")") op path "" tail) = None.
Proof.
  intros Hws Hop Hpath Hidx Hne.
  destruct index as [|d ds]; [done|]. cbn in Hidx.
  apply andb_true_iff in Hidx as [Hd _].
  destruct (digit_not_pseudo d Hd) as [Hp Hb].
  unfold Re.re_match, sel. split.
  - rewrite run_head, run_attr by done.
    rewrite nth_of_type_split, app_cons.
    apply (run_tail_bad "nth-of-type(" d); [done | done |].
    cbn [Re.at_end]. by destruct ds.
  - rewrite nth_of_type_split, app_cons.
    by apply (run_head_bad ws "nth-of-type(" d).
Qed.

(** C10, amended.  Of the pseudo-classes the pattern accepts (a colon
    and then letters, hyphens and parentheses), at either place, only
    ':nth-of-type(n)' is dropped without a warning; ':hover' and ':active'
    are kept without a warning; every other one is kept as the suffix and
    the unknown-pseudo-class warning is printed.  A pseudo-class with an
    index in digits, such as ':nth-of-type(2)', is not accepted by the
    pattern: the selector is parsed to null and nothing is printed. *)
Theorem parse_pseudo_class_resolution :
  (∀ ws op path pc tail,
     selector_ok ws "" op path pc tail = true → pc ≠ "" →
     let trailing := sel ws "" op path pc tail in
     let leading := sel ws pc op path "" tail in
     (pc = ":nth-of-type(n)" →
        _parse_emote_selector trailing = ([], Some (path, None))
        ∧ _parse_emote_selector leading = ([], Some (path, None)))
     ∧ (pc ∈ [":hover"; ":active"] →
          _parse_emote_selector trailing = ([], Some (path, Some pc))
          ∧ _parse_emote_selector leading = ([], Some (path, Some pc)))
     ∧ (pc ∉ [":hover"; ":active"; ":nth-of-type(n)"] →
          _parse_emote_selector trailing
          = ([WarnUnknownPseudo trailing], Some (path, Some pc))
          ∧ _parse_emote_selector leading
            = ([WarnUnknownPseudo leading], Some (path, Some pc))))
  ∧ (∀ ws op path index tail,
       all_chars Chars.space ws = true → op_ok op = true →
       path_ok path = true →
       all_chars Chars.ascii_digit index = true → index ≠ "" →
       _parse_emote_selector
         (sel ws "" op path (":nth-of-type(" +:+ index +:+ ")") tail)
       = ([], None)
       ∧ _parse_emote_selector
           (sel ws (":nth-of-type(" +:+ index +:+ ")") op path "" tail)
         = ([], None)).
Proof.
  split.
  - intros ws op path pc tail Hok Hne trailing leading.
    subst trailing leading.
    pose proof Hok as Hok'. rewrite selector_ok_swap in Hok'.
    rewrite (parse_sel _ _ _ _ _ _ Hok), (parse_sel _ _ _ _ _ _ Hok').
    apply String.eqb_neq in Hne. rewrite Hne.
    cbn [String.eqb negb andb app].
    split; [|split].
    + intros ->. done.
    + intros Hin. repeat case_bool_decide; try done; set_unfold; naive_solver.
    + intros Hin. apply String.eqb_neq in Hne.
      repeat case_bool_decide; try done; set_unfold; naive_solver.
  - intros ws op path index tail Hws Hop Hpath Hidx Hne.
    destruct (re_match_indexed ws op path index tail Hws Hop Hpath Hidx Hne)
      as [H1 H2].
    unfold _parse_emote_selector. by rewrite H1, H2.
Qed.

Lemma parse_pseudo_class_resolution_witness :
  (_parse_emote_selector (sel "" "" "|" "/c!red" ":nth-of-type(n)" "")
   = ([], Some ("/c!red", None))
   ∧ _parse_emote_selector (sel "" ":nth-of-type(n)" "|" "/c!red" "" "")
     = ([], Some ("/c!red", None)))
  ∧ (_parse_emote_selector nth_2_trailing = ([], None)
     ∧ _parse_emote_selector nth_2_leading = ([], None)).
Proof.
  split.
  - apply (proj1 parse_pseudo_class_resolution
             "" "|" "/c!red" ":nth-of-type(n)" ""); reflexivity || discriminate.
  - apply (proj2 parse_pseudo_class_resolution "" "|" "/x" "2" "");
      reflexivity || discriminate.
Defined.

(** C10 as stated fails: on a selector with ':nth-of-type(2)' no warning
    is printed and no suffix is kept; the selector is not recognised as an
    emote selector at all. *)
Lemma parse_nth_index_counterexample :
  _parse_emote_selector nth_2_trailing = ([], None)
  ∧ _parse_emote_selector nth_2_trailing
    ≠ ([WarnUnknownPseudo nth_2_trailing],
       Some ("/x", Some ":nth-of-type(2)"))
  ∧ _parse_emote_selector nth_2_leading = ([], None).
Proof. repeat split; vm_compute; (reflexivity || discriminate). Qed.

(** * Further properties of the stages *)

(** ** More on the ignore filter *)

Lemma flags_from_set_ignore ign rules (fl : list bool) :
  length fl = length rules →
  flags_from ign (zip_with set_ignore rules fl) = flags_from ign rules.
Proof.
  revert ign fl. induction rules as [|r rest IH]; intros ign [|b fl] Hlen;
    try done.
  cbn [zip_with flags_from].
  change (flag_of ign (set_ignore r b)) with (flag_of ign r).
  change (state_after ign (set_ignore r b)) with (state_after ign r).
  rewrite IH; [done|]. cbn in Hlen. lia.
Qed.

Lemma filter_loop_log_set_ignore V H ign rules (fl : list bool) :
  length fl = length rules →
  (filter_loop V H ign (zip_with set_ignore rules fl)).2
  = (filter_loop V H ign rules).2.
Proof.
  revert V H ign fl.
  induction rules as [|r rest IH]; intros V H ign [|b fl] Hlen; try done.
  cbn [zip_with]. rewrite !filter_loop_log_cons.
  change (flag_of ign (set_ignore r b)) with (flag_of ign r).
  change (state_after ign (set_ignore r b)) with (state_after ign r).
  change (selectors (set_ignore r b)) with (selectors r).
  cbn in Hlen. destruct (flag_of ign r); rewrite IH by lia; done.
Qed.

Lemma zip_with_set_ignore_twice rules (fl fl' : list bool) :
  length fl = length rules →
  zip_with set_ignore (zip_with set_ignore rules fl) fl'
  = zip_with set_ignore rules fl'.
Proof.
  revert fl fl'. induction rules as [|r rest IH]; intros [|b fl] [|b' fl'] Hlen;
    try done.
  cbn [zip_with]. rewrite IH; [done|]. cbn in Hlen. lia.
Qed.

(** X1.  [filter_ponyscript_ignores] is idempotent: run a second time,
    on the rules it has flagged, it sets the same flags and prints the
    same messages.  It leaves as many rules as it was given, in the same
    order, each with its selectors and properties untouched: only the
    ignore flags are set. *)
Theorem filter_idempotent (css_rules : list CssRule) :
  filter_ponyscript_ignores (filter_ponyscript_ignores css_rules).1
  = filter_ponyscript_ignores css_rules
  ∧ length (filter_ponyscript_ignores css_rules).1 = length css_rules
  ∧ selectors <$> (filter_ponyscript_ignores css_rules).1
    = selectors <$> css_rules
  ∧ properties <$> (filter_ponyscript_ignores css_rules).1
    = properties <$> css_rules.
Proof.
  split; [|split; [|apply filter_keeps_rules]].
  - unfold filter_ponyscript_ignores.
    rewrite (surjective_pairing (filter_loop ∅ ∅ false css_rules)) at 2.
    rewrite (surjective_pairing (filter_loop ∅ ∅ false (_).1)).
    rewrite !filter_loop_rules.
    assert (length (flags_from false css_rules) = length css_rules) as Hlen
      by apply flags_from_length.
    rewrite filter_loop_log_set_ignore, flags_from_set_ignore by done.
    by rewrite zip_with_set_ignore_twice.
  - unfold filter_ponyscript_ignores. rewrite filter_loop_rules.
    rewrite length_zip_with, flags_from_length. lia.
Qed.

Lemma split_detection_nothing_hidden add_to sels :
  (split_detection add_to ∅ sels).2 = [].
Proof.
  revert add_to. induction sels as [|s rest IH]; intros add_to; [done|].
  cbn [split_detection]. specialize (IH ({[s]} ∪ add_to)).
  destruct (split_detection ({[s]} ∪ add_to) ∅ rest). cbn in *.
  rewrite IH. by rewrite bool_decide_eq_false_2 by set_solver.
Qed.

Lemma zip_with_set_ignore_replicate rules b :
  zip_with set_ignore rules (replicate (length rules) b)
  = (λ r, set_ignore r b) <$> rules.
Proof. induction rules as [|r rest IH]; [done|]. cbn. by rewrite IH. Qed.

(** X2.  On rules none of which holds the start marker,
    [filter_ponyscript_ignores] marks every rule as not ignored, whatever
    its ignore flag was, stray end markers included, and prints
    nothing. *)
Theorem filter_without_start_marker (css_rules : list CssRule) :
  Forall (λ r, START ∉ selectors r) css_rules →
  filter_ponyscript_ignores css_rules
  = ((λ r, set_ignore r false) <$> css_rules, []).
Proof.
  intros Hno. unfold filter_ponyscript_ignores.
  rewrite (surjective_pairing (filter_loop ∅ ∅ false css_rules)).
  f_equal.
  - rewrite filter_loop_rules. rewrite Forall_forall in Hno.
    destruct (flags_no_start css_rules Hno) as [-> _].
    apply zip_with_set_ignore_replicate.
  - generalize (∅ : gset string) at 1. 
    induction css_rules as [|r rest IH]; intros V; [done|].
    apply Forall_cons in Hno as [Hr Hrest].
    rewrite filter_loop_log_cons.
    assert (flag_of false r = false) as Hf
      by (unfold flag_of; by rewrite bool_decide_eq_false_2).
    assert (state_after false r = false) as Hs
      by (unfold state_after; rewrite Hf;
          by destruct (bool_decide (END_ ∈ selectors r))).
    rewrite Hf, Hs, split_detection_nothing_hidden. by apply IH.
Qed.

Lemma filter_without_start_marker_witness :
  filter_ponyscript_ignores [rule_of [".a"; END_]; mkRule [".b"] [] true]
  = ([mkRule [".a"; END_] [] false; mkRule [".b"] [] false], []).
Proof.
  apply (filter_without_start_marker
           [rule_of [".a"; END_]; mkRule [".b"] [] true]).
  apply (bool_decide_unpack _). vm_compute. exact I.
Defined.

Lemma flags_from_start ign rules i r :
  rules !! i = Some r → START ∈ selectors r →
  flags_from ign rules !! i = Some true.
Proof.
  revert ign i. induction rules as [|r0 rest IH]; intros ign [|i] Hi Hs;
    try done.
  - cbn in Hi. injection Hi as ->. cbn. unfold flag_of.
    by rewrite bool_decide_eq_true_2.
  - cbn in *. by apply IH.
Qed.

(** X3.  A rule that holds the start marker is always marked ignored,
    wherever it stands, even when it holds the end marker too. *)
Theorem start_marker_rule_always_ignored (css_rules : list CssRule) i r :
  css_rules !! i = Some r → START ∈ selectors r →
  (filter_ponyscript_ignores css_rules).1 !! i = Some (set_ignore r true).
Proof.
  intros Hi Hs. unfold filter_ponyscript_ignores. rewrite filter_loop_rules.
  rewrite lookup_zip_with, Hi. cbn.
  by rewrite (flags_from_start false css_rules i r Hi Hs).
Qed.

Lemma start_marker_rule_always_ignored_witness :
  (filter_ponyscript_ignores
     [rule_of [".a"]; rule_of [END_; ".b"; START]]).1 !! 1
  = Some (set_ignore (rule_of [END_; ".b"; START]) true).
Proof.
  apply (start_marker_rule_always_ignored
           [rule_of [".a"]; rule_of [END_; ".b"; START]] 1
           (rule_of [END_; ".b"; START])).
  - reflexivity.
  - apply (bool_decide_unpack _). vm_compute. exact I.
Defined.

(** ** What _parse_emote_selector can return *)

(** The parser prints nothing but its two warnings, each naming the
    selector, and prints nothing when it returns null. *)
Lemma parse_messages (selector : string) m :
  m ∈ (_parse_emote_selector selector).1 →
  (_parse_emote_selector selector).2 ≠ None
  ∧ (m = WarnMultiplePseudo selector ∨ m = WarnUnknownPseudo selector).
Proof.
  destruct (Re.re_match emote_re selector) as [g|] eqn:E.
  - apply re_match_sound in E
      as (ws & pc1 & op & path & pc2 & tail & -> & Hok).
    rewrite (parse_sel _ _ _ _ _ _ Hok). cbn [fst snd].
    intros Hm. split; [done|]. apply elem_of_app in Hm as [Hm|Hm].
    + destruct (_ && _); [|by apply elem_of_nil in Hm].
      apply list_elem_of_singleton in Hm. by left.
    + destruct (bool_decide _); [by apply elem_of_nil in Hm|].
      apply list_elem_of_singleton in Hm. by right.
  - unfold _parse_emote_selector. rewrite E. cbn [fst].
    intros Hm. by apply elem_of_nil in Hm.
Qed.

(** X4.  What [_parse_emote_selector] can return: a name it returns
    is a slash followed by at least one word character, colon or
    exclamation mark; a suffix it returns is a colon followed by letters,
    hyphens and parentheses, and never ':nth-of-type(n)'; all it prints
    are the multiple-pseudo-class and the unknown-pseudo-class warnings
    for the selector handed in.  When it returns null it has printed
    nothing. *)
Theorem parse_result_shape (selector : string) :
  match (_parse_emote_selector selector).2 with
  | Some (emote_name, suffix) =>
      path_ok emote_name = true
      ∧ match suffix with
        | Some pc =>
            token ":" Chars.pseudo pc = true ∧ pc ≠ ":nth-of-type(n)"
        | None => True
        end
      ∧ ∀ m, m ∈ (_parse_emote_selector selector).1 →
             m = WarnMultiplePseudo selector ∨ m = WarnUnknownPseudo selector
  | None => (_parse_emote_selector selector).1 = []
  end.
Proof.
  destruct (Re.re_match emote_re selector) as [g|] eqn:E.
  - apply re_match_sound in E
      as (ws & pc1 & op & path & pc2 & tail & -> & Hok).
    rewrite (parse_sel _ _ _ _ _ _ Hok). cbn [fst snd].
    unfold selector_ok in Hok. rewrite !andb_true_iff in Hok.
    destruct Hok as [[[[[_ Hpc1] _] Hpath] Hpc2] _].
    split; [done|]. split.
    + apply opt_token_cases in Hpc1 as [->|[Ht1 Hn1]].
      * cbn [String.eqb]. case_bool_decide as Hin; [done|].
        apply opt_token_cases in Hpc2 as [->|[Ht2 Hn2]];
          [set_solver|]. split; [done|]. set_solver.
      * rewrite Hn1. case_bool_decide as Hin; [done|].
        split; [done|]. set_solver.
    + intros m Hm. apply elem_of_app in Hm as [Hm|Hm].
      * destruct (_ && _); [|by apply elem_of_nil in Hm].
        apply list_elem_of_singleton in Hm. by left.
      * destruct (bool_decide _); [by apply elem_of_nil in Hm|].
        apply list_elem_of_singleton in Hm. by right.
  - unfold _parse_emote_selector. by rewrite E.
Qed.

(** X5.  The white space after the a, the comparison character of the
    attribute selector and a final newline play no part in the result of
    [_parse_emote_selector]: two accepted selectors that differ only
    there give the same name and suffix, and as many warnings. *)
Theorem parse_ignores_space_operator_and_newline
    ws ws' pc1 op op' path pc2 tail tail' :
  selector_ok ws pc1 op path pc2 tail = true →
  selector_ok ws' pc1 op' path pc2 tail' = true →
  (_parse_emote_selector (sel ws pc1 op path pc2 tail)).2
  = (_parse_emote_selector (sel ws' pc1 op' path pc2 tail')).2
  ∧ length (_parse_emote_selector (sel ws pc1 op path pc2 tail)).1
    = length (_parse_emote_selector (sel ws' pc1 op' path pc2 tail')).1.
Proof.
  intros H1 H2.
  rewrite (parse_sel _ _ _ _ _ _ H1), (parse_sel _ _ _ _ _ _ H2).
  cbn [fst snd]. split; [done|]. rewrite !length_app.
  by destruct (_ && _), (bool_decide _).
Qed.

Lemma parse_ignores_space_operator_and_newline_witness :
  (_parse_emote_selector (sel "" ":hover" "|" "/aj" "" "")).2
  = (_parse_emote_selector
       (sel "  " ":hover" "" "/aj" "" (String Chars.newline ""))).2
  ∧ length (_parse_emote_selector (sel "" ":hover" "|" "/aj" "" "")).1
    = length (_parse_emote_selector
                (sel "  " ":hover" "" "/aj" ""
                   (String Chars.newline ""))).1.
Proof.
  apply (parse_ignores_space_operator_and_newline
           "" "  " ":hover" "|" "" "/aj" "" "" (String Chars.newline ""));
    reflexivity.
Defined.

(** ** extract_raw_emotes *)

Lemma parse_selectors_spec sels :
  parse_selectors sels
  = (concat ((λ s, (_parse_emote_selector s).1) <$> sels),
     (λ s, (_parse_emote_selector s).2) <$> sels).
Proof.
  induction sels as [|s rest IH]; [done|].
  cbn [parse_selectors fmap list_fmap concat]. rewrite IH.
  by destruct (_parse_emote_selector s).
Qed.

Section ExtractFacts.
Variable combine_name_pair : string → option string → string.
Variable args_extract : list string.

Lemma extract_rule_spec rule :
  extract_rule combine_name_pair args_extract rule
  = (GPrint <$> concat ((λ s, (_parse_emote_selector s).1)
                          <$> selectors rule))
    ++ concat (extract_pair combine_name_pair args_extract rule
                 <$> omap (λ s, (_parse_emote_selector s).2)
                          (selectors rule)).
Proof.
  unfold extract_rule. rewrite parse_selectors_spec.
  do 3 f_equal. induction (selectors rule) as [|s rest IH]; [done|].
  cbn. rewrite IH. by destruct ((_parse_emote_selector s).2).
Qed.

Lemma yield_in_extract_pair rule p e :
  GYield e ∈ extract_pair combine_name_pair args_extract rule p ↔
    (combine_name_pair p.1 p.2 ∈ args_extract ∨ ignore rule = false)
    ∧ e = mkPartial p.1 p.2 (properties rule).
Proof.
  destruct p as [n sf]. unfold extract_pair. cbn [fst snd].
  rewrite elem_of_app.
  destruct (bool_decide_reflect (combine_name_pair n sf ∈ args_extract))
    as [Hin|Hin]; cbn [orb].
  - rewrite !list_elem_of_singleton. split.
    + intros [[=]|[= ->]]. split; [by left|done].
    + intros [_ ->]. by right.
  - destruct (ignore rule); cbn [negb].
    + split; [intros [H|H]; by apply elem_of_nil in H|].
      intros [[?|?] _]; done.
    + rewrite list_elem_of_singleton. split.
      * intros [H|[= ->]]; [by apply elem_of_nil in H|].
        split; [by right|done].
      * intros [_ ->]. by right.
Qed.

Lemma notice_in_extract_pair rule p key :
  GPrint (NoticeExtract key)
    ∈ extract_pair combine_name_pair args_extract rule p ↔
    combine_name_pair p.1 p.2 ∈ args_extract ∧ key = p.
Proof.
  destruct p as [n sf]. unfold extract_pair. cbn [fst snd].
  rewrite elem_of_app.
  destruct (bool_decide_reflect (combine_name_pair n sf ∈ args_extract))
    as [Hin|Hin]; cbn [orb].
  - rewrite !list_elem_of_singleton. split.
    + intros [[= ->]|[=]]. done.
    + intros [_ ->]. by left.
  - split; [|intros [? _]; done].
    intros [H|H]; [by apply elem_of_nil in H|].
    destruct (negb (ignore rule)); [|by apply elem_of_nil in H].
    by apply list_elem_of_singleton in H.
Qed.

(** X6.  What [extract_raw_emotes] produces.  A partial emote is
    yielded exactly when it is made of the name and suffix parsed from a
    selector of a rule and of the properties of that rule, and the rule
    is not ignored or the emote is explicitly requested.  The extraction
    notice for a key is printed exactly when a selector of some rule
    parses to that key and the emote is requested, ignored rule or not.
    The warnings of the parser are printed for every selector of every
    rule, ignored or not. *)
Theorem extract_raw_emotes_yields (css_rules : list CssRule) :
  (∀ e,
     GYield e ∈ extract_raw_emotes combine_name_pair args_extract css_rules ↔
       ∃ rule s emote_name suffix,
         rule ∈ css_rules ∧ s ∈ selectors rule
         ∧ (_parse_emote_selector s).2 = Some (emote_name, suffix)
         ∧ (combine_name_pair emote_name suffix ∈ args_extract
            ∨ ignore rule = false)
         ∧ e = mkPartial emote_name suffix (properties rule))
  ∧ (∀ key,
       GPrint (NoticeExtract key)
         ∈ extract_raw_emotes combine_name_pair args_extract css_rules ↔
         ∃ rule s,
           rule ∈ css_rules ∧ s ∈ selectors rule
           ∧ (_parse_emote_selector s).2 = Some key
           ∧ combine_name_pair key.1 key.2 ∈ args_extract)
  ∧ (∀ rule s m,
       rule ∈ css_rules → s ∈ selectors rule →
       m ∈ (_parse_emote_selector s).1 →
       GPrint m ∈ extract_raw_emotes combine_name_pair args_extract css_rules).
Proof.
  unfold extract_raw_emotes. split; [|split].
  - intros e. rewrite elem_of_concat. split.
    + intros (l & He & Hl).
      apply list_elem_of_fmap in Hl as (rule & -> & Hrule).
      rewrite extract_rule_spec in He.
      apply elem_of_app in He as [He|He].
      { apply list_elem_of_fmap in He as (m & [=] & _). }
      apply elem_of_concat in He as (l & He & Hl).
      apply list_elem_of_fmap in Hl as ([n sf] & -> & Hp).
      apply list_elem_of_omap in Hp as (s & Hs & Hparse).
      apply yield_in_extract_pair in He as [Hor ->].
      by exists rule, s, n, sf.
    + intros (rule & s & n & sf & Hrule & Hs & Hparse & Hor & ->).
      exists (extract_rule combine_name_pair args_extract rule).
      split; [|apply list_elem_of_fmap; by exists rule].
      rewrite extract_rule_spec. apply elem_of_app. right.
      apply elem_of_concat.
      exists (extract_pair combine_name_pair args_extract rule (n, sf)).
      split; [by apply yield_in_extract_pair|].
      apply list_elem_of_fmap. exists (n, sf). split; [done|].
      apply list_elem_of_omap. by exists s.
  - intros key. rewrite elem_of_concat. split.
    + intros (l & He & Hl).
      apply list_elem_of_fmap in Hl as (rule & -> & Hrule).
      rewrite extract_rule_spec in He.
      apply elem_of_app in He as [He|He].
      { apply list_elem_of_fmap in He as (m & [= <-] & Hm).
        apply elem_of_concat in Hm as (l & Hm & Hl).
        apply list_elem_of_fmap in Hl as (s & -> & Hs).
        by destruct (parse_messages s _ Hm) as [_ [?|?]]. }
      apply elem_of_concat in He as (l & He & Hl).
      apply list_elem_of_fmap in Hl as (p & -> & Hp).
      apply list_elem_of_omap in Hp as (s & Hs & Hparse).
      apply notice_in_extract_pair in He as [Hin ->].
      by exists rule, s.
    + intros (rule & s & Hrule & Hs & Hparse & Hin).
      exists (extract_rule combine_name_pair args_extract rule).
      split; [|apply list_elem_of_fmap; by exists rule].
      rewrite extract_rule_spec. apply elem_of_app. right.
      apply elem_of_concat.
      exists (extract_pair combine_name_pair args_extract rule key).
      split; [by apply notice_in_extract_pair|].
      apply list_elem_of_fmap. exists key. split; [done|].
      apply list_elem_of_omap. by exists s.
  - intros rule s m Hrule Hs Hm. apply elem_of_concat.
    exists (extract_rule combine_name_pair args_extract rule).
    split; [|apply list_elem_of_fmap; by exists rule].
    rewrite extract_rule_spec. apply elem_of_app. left.
    apply list_elem_of_fmap. exists m. split; [done|].
    apply elem_of_concat. exists (_parse_emote_selector s).1.
    split; [done|]. apply list_elem_of_fmap. by exists s.
Qed.
End ExtractFacts.

(** ** More on dictionaries *)

Lemma filter_ext_in {A} (P Q : A → Prop) `{∀ x, Decision (P x)}
    `{∀ x, Decision (Q x)} (l : list A) :
  (∀ x, x ∈ l → P x ↔ Q x) → filter P l = filter Q l.
Proof.
  induction l as [|a l IH]; intros Hpq; [done|].
  rewrite (filter_cons P), (filter_cons Q).
  assert (filter P l = filter Q l) as ->
    by (apply IH; intros x Hx; apply Hpq; by right).
  pose proof (Hpq a (list_elem_of_here a l)) as Ha.
  destruct (decide (P a)), (decide (Q a)); tauto.
Qed.

Lemma filter_all {A} (P : A → Prop) `{∀ x, Decision (P x)} (l : list A) :
  (∀ x, x ∈ l → P x) → filter P l = l.
Proof.
  induction l as [|a l IH]; intros Hp; [done|].
  rewrite (filter_cons P).
  destruct (decide (P a)) as [_|Hn]; [|destruct Hn; apply Hp; left].
  f_equal. apply IH. intros x Hx. apply Hp. by right.
Qed.

Lemma filter_none {A} (P : A → Prop) `{∀ x, Decision (P x)} (l : list A) :
  (∀ x, x ∈ l → ¬ P x) → filter P l = [].
Proof.
  induction l as [|a l IH]; intros Hp; [done|].
  rewrite (filter_cons P).
  destruct (decide (P a)) as [Hy|_]; [by destruct (Hp a (list_elem_of_here a l))|].
  apply IH. intros x Hx. apply Hp. by right.
Qed.

Section DictMore.
Context {K V : Type} `{EqDecision K}.
Implicit Types (d : Dict.t K V) (k : K) (v : V).

Lemma set_item_absent d k v :
  k ∉ Dict.keys d → Dict.set_item d k v = d ++ [(k, v)].
Proof.
  unfold Dict.keys. induction d as [|[k' v'] d IH]; cbn; [done|].
  rewrite not_elem_of_cons. intros [Hne Hin].
  destruct (decide (k' = k)) as [->|_]; [done|]. by rewrite IH.
Qed.

Lemma keys_update d (d2 : Dict.t K V) :
  Dict.wf d2 →
  Dict.keys (Dict.update d d2)
  = Dict.keys d ++ filter (λ k, k ∉ Dict.keys d) (Dict.keys d2).
Proof.
  unfold Dict.update, Dict.wf. revert d.
  induction d2 as [|[k v] d2 IH]; intros d Hwf.
  - cbn. by rewrite app_nil_r.
  - unfold Dict.keys in Hwf. cbn in Hwf.
    apply NoDup_cons in Hwf as [Hk Hwf]. cbn [fold_left fst snd].
    rewrite IH by done.
    change (Dict.keys ((k, v) :: d2)) with (k :: Dict.keys d2).
    rewrite (filter_cons (λ k0, k0 ∉ Dict.keys d)).
    destruct (decide (k ∈ Dict.keys d)) as [Hin|Hin].
    + rewrite keys_set_item_present by done.
      by destruct (decide (k ∉ Dict.keys d)).
    + rewrite keys_set_item_absent by done.
      destruct (decide (k ∉ Dict.keys d)); [|done].
      rewrite <- app_assoc. cbn. do 2 f_equal.
      apply filter_ext_in. intros x Hx.
      rewrite not_elem_of_app, list_elem_of_singleton.
      split; [tauto|]. intros ?. split; [done|]. by intros ->.
Qed.

Lemma wf_update d (d2 : Dict.t K V) :
  Dict.wf d → Dict.wf d2 → Dict.wf (Dict.update d d2).
Proof.
  intros H1 H2. unfold Dict.wf. rewrite keys_update by done.
  apply NoDup_app. split; [done|]. split.
  - intros x Hx [Hnot _]%list_elem_of_filter. done.
  - by apply NoDup_filter.
Qed.

(** Two dictionaries with the same keys in the same order and the same
    values are the same. *)
Lemma dict_ext d (d' : Dict.t K V) :
  Dict.wf d → Dict.keys d = Dict.keys d' →
  (∀ k, Dict.get d k = Dict.get d' k) → d = d'.
Proof.
  unfold Dict.wf, Dict.keys. revert d'.
  induction d as [|[k v] d IH]; intros [|[k' v'] d'] Hwf Hkeys Hget;
    try done.
  cbn in Hkeys. injection Hkeys as -> Hkeys.
  cbn in Hwf. apply NoDup_cons in Hwf as [Hk Hwf].
  pose proof (Hget k') as Hk'. cbn in Hk'.
  destruct (decide (k' = k')); [|done]. injection Hk' as ->.
  f_equal. apply IH; [done|done|]. intros k0.
  specialize (Hget k0). cbn in Hget.
  destruct (decide (k' = k0)) as [->|Hne]; [|done].
  assert (Dict.get d k0 = None) as -> by (by apply get_None).
  symmetry. apply get_None. unfold Dict.keys. by rewrite <- Hkeys.
Qed.

(** Updating with what the update gave changes nothing. *)
Lemma update_absorb d (d2 : Dict.t K V) :
  Dict.wf d → Dict.wf d2 →
  Dict.update d (Dict.update d d2) = Dict.update d d2.
Proof.
  intros H1 H2.
  pose proof (wf_update d d2 H1 H2) as Hwf.
  apply dict_ext.
  - by apply wf_update.
  - rewrite (keys_update d (Dict.update d d2)) by done.
    rewrite (keys_update d d2) by done. f_equal.
    rewrite filter_app.
    rewrite (filter_none (λ k, k ∉ Dict.keys d) (Dict.keys d))
      by (by intros x Hx Hn).
    cbn. rewrite list_filter_filter. apply list_filter_iff. tauto.
  - intros k. rewrite !get_update by done.
    destruct (Dict.get d2 k); [done|]. by destruct (Dict.get d k).
Qed.

Lemma get_del_ne d k k' :
  k ≠ k' → Dict.get (Dict.del d k) k' = Dict.get d k'.
Proof.
  intros Hne. induction d as [|[k0 v0] d IH]; cbn; [done|].
  destruct (decide (k0 = k)) as [->|Hne0]; cbn.
  - by destruct (decide (k = k')).
  - by rewrite IH.
Qed.

Lemma del_filter d k :
  Dict.wf d → Dict.del d k = filter (λ kv, kv.1 ≠ k) d.
Proof.
  unfold Dict.wf, Dict.keys. induction d as [|[k0 v0] d IH]; intros Hwf;
    [done|].
  cbn in Hwf. apply NoDup_cons in Hwf as [Hk Hwf].
  rewrite (filter_cons (λ kv : K * V, kv.1 ≠ k)). cbn.
  destruct (decide (k0 = k)) as [->|Hne].
  - destruct (decide (k ≠ k)); [done|]. symmetry.
    apply filter_all. intros [k1 v1] Hin. cbn. intros ->.
    apply Hk. apply list_elem_of_fmap. by exists (k, v1).
  - destruct (decide (k0 ≠ k)); [|done]. by rewrite IH.
Qed.

Lemma filter_absent d k :
  Dict.get d k = None → filter (λ kv, kv.1 ≠ k) d = d.
Proof.
  intros Hnone%get_None. apply filter_all. intros [k1 v1] Hin. cbn.
  intros ->. apply Hnone. apply list_elem_of_fmap. by exists (k, v1).
Qed.

Lemma wf_filter (P : K * V → Prop) `{∀ x, Decision (P x)} d :
  Dict.wf d → Dict.wf (filter P d).
Proof.
  unfold Dict.wf, Dict.keys. induction d as [|[k v] d IH]; intros Hwf;
    [done|].
  cbn in Hwf. apply NoDup_cons in Hwf as [Hk Hwf].
  rewrite (filter_cons P). destruct (decide (P (k, v))); [|by apply IH].
  cbn. apply NoDup_cons. split; [|by apply IH].
  intros ([k1 v1] & Heq & [_ Hin]%list_elem_of_filter)%list_elem_of_fmap.
  cbn in Heq. subst k1. apply Hk. apply list_elem_of_fmap. by exists (k, v1).
Qed.

Lemma get_filter_keys (Q : K → Prop) `{∀ x, Decision (Q x)}
    (d : list (K * V)) k :
  Dict.get (filter (λ kv, Q kv.1) d) k
  = if decide (Q k) then Dict.get d k else None.
Proof.
  induction d as [|[k0 v0] d IH]; [by destruct (decide (Q k))|].
  rewrite (filter_cons (λ kv : K * V, Q kv.1)).
  destruct (decide (Q (k0, v0).1)) as [Hq|Hq]; cbn [Dict.get]; rewrite IH;
    cbn [fst] in Hq;
    destruct (decide (k0 = k)) as [->|Hne]; by destruct (decide (Q k)).
Qed.
End DictMore.

(** ** The keys of the merged map *)

Lemma merge_emote_keys acc e :
  Dict.keys (merge_emote acc e).1
  = if decide (key_of e ∈ Dict.keys acc) then Dict.keys acc
    else Dict.keys acc ++ [key_of e].
Proof.
  unfold merge_emote. fold (key_of e).
  destruct (Dict.get acc (key_of e)) as [base|] eqn:Hb; cbn [fst].
  - assert (key_of e ∈ Dict.keys acc) as Hin.
    { destruct (decide (key_of e ∈ Dict.keys acc)) as [|Hn]; [done|].
      apply get_None in Hn. congruence. }
    rewrite keys_set_item_present by done.
    by destruct (decide (key_of e ∈ Dict.keys acc)).
  - apply get_None in Hb. rewrite keys_set_item_absent by done.
    by destruct (decide (key_of e ∈ Dict.keys acc)).
Qed.

(** X7.  In the map [build_emote_map] returns every emote sits under
    the key made of its own name and suffix, no key occurs twice, and
    the keys are exactly the keys of the partial emotes handed in. *)
Theorem build_emote_map_keys (partial_emotes : list PartialEmote) :
  keyed (build_emote_map partial_emotes).1
  ∧ Dict.wf (build_emote_map partial_emotes).1
  ∧ (∀ key,
       key ∈ Dict.keys (build_emote_map partial_emotes).1 ↔
         ∃ e, e ∈ partial_emotes ∧ key_of e = key).
Proof.
  destruct (build_emote_map_keyed partial_emotes) as [Hk Hwf].
  split; [done|]. split; [done|].
  assert (∀ l key,
            key ∈ Dict.keys (build_emote_map l).1 ↔
              ∃ e, e ∈ l ∧ key_of e = key) as Hkeys.
  { induction l as [|e l IH] using rev_ind; intros key.
    - cbn. split; [intros H; by apply elem_of_nil in H|].
      intros (e & H & _). by apply elem_of_nil in H.
    - rewrite build_emote_map_snoc. cbn [fst]. rewrite merge_emote_keys.
      destruct (decide (key_of e ∈ Dict.keys (build_emote_map l).1))
        as [Hin|Hin].
      + rewrite IH. split.
        * intros (e0 & He0 & <-). exists e0. split; [|done].
          apply elem_of_app. by left.
        * intros (e0 & He0 & <-). apply elem_of_app in He0 as [He0|He0].
          -- by exists e0.
          -- apply list_elem_of_singleton in He0 as ->. by apply IH.
      + rewrite elem_of_app, list_elem_of_singleton, IH. split.
        * intros [(e0 & He0 & <-)| ->].
          -- exists e0. split; [|done]. apply elem_of_app. by left.
          -- exists e. split; [|done]. apply elem_of_app. right. left.
        * intros (e0 & He0 & <-). apply elem_of_app in He0 as [He0|He0].
          -- left. by exists e0.
          -- apply list_elem_of_singleton in He0 as ->. by right. }
  apply Hkeys.
Qed.

(** X8.  On partial emotes whose (name, suffix) keys are pairwise
    distinct, [build_emote_map] merges nothing: it returns the emotes
    as they were, in the order they came, each under its key, and
    prints nothing. *)
Theorem build_emote_map_distinct_keys (partial_emotes : list PartialEmote) :
  NoDup (key_of <$> partial_emotes) →
  build_emote_map partial_emotes
  = ((λ e, (key_of e, e)) <$> partial_emotes, []).
Proof.
  induction partial_emotes as [|e l IH] using rev_ind; intros Hnd; [done|].
  rewrite fmap_app in Hnd. apply NoDup_app in Hnd as (Hl & Hdisj & _).
  rewrite build_emote_map_snoc, (IH Hl). cbn [fst snd].
  assert (key_of e ∉ Dict.keys ((λ e0, (key_of e0, e0)) <$> l)) as Hnot.
  { unfold Dict.keys. rewrite <- list_fmap_compose. intros Hin.
    apply (Hdisj (key_of e)); [done|]. left. }
  unfold merge_emote. fold (key_of e).
  rewrite (proj2 (get_None _ _) Hnot). cbn [fst snd].
  by rewrite set_item_absent, fmap_app.
Qed.

Lemma build_emote_map_distinct_keys_witness :
  build_emote_map [width_5; mkPartial "/aj" (Some ":hover") []]
  = ([(("/aj", None), width_5);
      (("/aj", Some ":hover"), mkPartial "/aj" (Some ":hover") [])], []).
Proof.
  apply (build_emote_map_distinct_keys
           [width_5; mkPartial "/aj" (Some ":hover") []]).
  apply (bool_decide_unpack _). vm_compute. exact I.
Defined.

(** ** Collapsing twice *)

Lemma collapse_keyed emotes :
  keyed emotes → keyed (collapse_specials_properties emotes).
Proof.
  intros Hk. rewrite collapse_spec by done. unfold keyed in *.
  rewrite Forall_fmap. eapply Forall_impl; [exact Hk|].
  intros [k e] Hke. cbn in *. rewrite Hke. unfold collapse_emote, key_of.
  destruct (truthy (suffix e)); [|done].
  by destruct (Dict.get emotes (name e, None)).
Qed.

Lemma collapse_emote_fields emotes e :
  name (collapse_emote emotes e) = name e
  ∧ suffix (collapse_emote emotes e) = suffix e.
Proof.
  unfold collapse_emote. destruct (truthy (suffix e)); [|done].
  by destruct (Dict.get emotes (name e, None)).
Qed.

Lemma collapse_emote_twice (emotes : emote_map) e :
  keyed emotes →
  Dict.wf (css e) →
  (∀ base, Dict.get emotes (name e, None) = Some base → Dict.wf (css base)) →
  collapse_emote (collapse_entry emotes <$> emotes) (collapse_emote emotes e)
  = collapse_emote emotes e.
Proof.
  intros Hk Hwfe Hwfb.
  destruct (collapse_emote_fields emotes e) as [Hn Hs].
  unfold collapse_emote at 1. rewrite Hn, Hs.
  rewrite get_collapse_entry_base by done.
  destruct (truthy (suffix e)) eqn:Ht; [|done].
  destruct (Dict.get emotes (name e, None)) as [base|] eqn:Hb; [|done].
  unfold collapse_emote. rewrite Ht, Hb. unfold set_css. cbn [name suffix css].
  f_equal. apply update_absorb; [by apply Hwfb | done].
Qed.

(** X9.  [collapse_specials_properties] is idempotent on a map where
    every emote sits under the key of its name and suffix and no emote
    has a property twice: collapsing the collapsed map changes
    nothing. *)
Theorem collapse_idempotent (emotes : emote_map) :
  keyed emotes →
  Forall (λ ke, Dict.wf (css ke.2)) emotes →
  collapse_specials_properties (collapse_specials_properties emotes)
  = collapse_specials_properties emotes.
Proof.
  intros Hk Hwf.
  rewrite (collapse_spec (collapse_specials_properties emotes))
    by (by apply collapse_keyed).
  rewrite !(collapse_spec emotes) by done.
  rewrite <- list_fmap_compose. apply list_fmap_ext.
  intros i [k e] Hi. unfold collapse_entry. cbn [fst snd compose].
  f_equal. rewrite Forall_forall in Hwf.
  change (λ ke : name_pair * PartialEmote, (ke.1, collapse_emote emotes ke.2))
    with (collapse_entry emotes).
  apply collapse_emote_twice.
  - done.
  - apply (Hwf (k, e)). by eapply list_elem_of_lookup_2.
  - intros base Hb. apply (Hwf ((name e, None), base)).
    by apply get_Some_elem.
Qed.

Lemma collapse_idempotent_witness :
  collapse_specials_properties
    (collapse_specials_properties
       [(("/aj", None), aj_base);
        (("/aj", Some ":hover"),
         mkPartial "/aj" (Some ":hover") [("width", "12")])])
  = collapse_specials_properties
      [(("/aj", None), aj_base);
       (("/aj", Some ":hover"),
        mkPartial "/aj" (Some ":hover") [("width", "12")])].
Proof.
  apply collapse_idempotent.
  - repeat constructor.
  - apply (bool_decide_unpack _). vm_compute. exact I.
Defined.

(** ** Classification keeps the order *)

Lemma classify_loop_filter normal custom (items : emote_map) :
  Dict.wf items →
  (∀ k, k ∈ Dict.keys items → k ∉ Dict.keys normal) →
  (∀ k, k ∈ Dict.keys items → k ∉ Dict.keys custom) →
  classify_loop normal custom items
  = (normal ++ filter (λ ke, is_normal ke.2 = true) items,
     custom ++ ((λ ke, (ke.1, to_custom ke.2))
                  <$> (filter (λ ke, is_normal ke.2 = false) items))).
Proof.
  unfold Dict.wf. revert normal custom.
  induction items as [|[k e] rest IH]; intros normal custom Hnd Hn Hc.
  - cbn. by rewrite !app_nil_r.
  - change (Dict.keys ((k, e) :: rest)) with (k :: Dict.keys rest) in *.
    apply NoDup_cons in Hnd as [Hk Hnd].
    assert (k ∉ Dict.keys normal) as Hkn by (apply Hn; left).
    assert (k ∉ Dict.keys custom) as Hkc by (apply Hc; left).
    cbn [classify_loop].
    rewrite (filter_cons (λ ke : name_pair * PartialEmote,
                            is_normal ke.2 = true)).
    rewrite (filter_cons (λ ke : name_pair * PartialEmote,
                            is_normal ke.2 = false)).
    cbn [snd]. destruct (is_normal e) eqn:He.
    + rewrite set_item_absent by done. rewrite IH.
      * destruct (decide (true = true)); [|done].
        destruct (decide (true = false)); [done|].
        by rewrite <- app_assoc.
      * done.
      * intros k' Hk'. unfold Dict.keys. rewrite fmap_app.
        rewrite not_elem_of_app. split; [apply Hn; by right|].
        cbn. rewrite list_elem_of_singleton. by intros ->.
      * intros k' Hk'. apply Hc. by right.
    + rewrite set_item_absent by done. rewrite IH.
      * destruct (decide (false = true)); [done|].
        destruct (decide (false = false)); [|done].
        cbn. by rewrite <- app_assoc.
      * done.
      * intros k' Hk'. apply Hn. by right.
      * intros k' Hk'. unfold Dict.keys. rewrite fmap_app.
        rewrite not_elem_of_app. split; [apply Hc; by right|].
        cbn. rewrite list_elem_of_singleton. by intros ->.
Qed.

(** X10.  [classify_emotes] keeps the order of the emote map, when
    no key occurs twice in it: the normal map is the sequence of the
    emotes with the required properties, the custom map the sequence of
    the others, converted, each in the order of the map handed in. *)
Theorem classify_emotes_order (emotes : emote_map) :
  Dict.wf emotes →
  classify_emotes emotes
  = (filter (λ ke, is_normal ke.2 = true) emotes,
     (λ ke, (ke.1, to_custom ke.2))
       <$> (filter (λ ke, is_normal ke.2 = false) emotes)).
Proof.
  intros Hwf. unfold classify_emotes.
  rewrite classify_loop_filter; [done | done | |];
    intros k _; apply not_elem_of_nil.
Qed.

Lemma classify_emotes_order_witness :
  classify_emotes aj_and_red
  = (filter (λ ke, is_normal ke.2 = true) aj_and_red,
     (λ ke, (ke.1, to_custom ke.2))
       <$> (filter (λ ke, is_normal ke.2 = false) aj_and_red)).
Proof.
  apply classify_emotes_order.
  apply (bool_decide_unpack _). vm_compute. exact I.
Defined.

(** ** The monad *)

Lemma bind_Ok_inv {A B} (c : M A) (f : A → M B) log b :
  c ≫= f = (log, Ok b) →
  ∃ l1 a l2, c = (l1, Ok a) ∧ f a = (l2, Ok b) ∧ log = l1 ++ l2.
Proof.
  destruct c as [l1 [a|e]]; [|done]. unfold mbind, M_bind.
  destruct (f a) as [l2 r] eqn:E. intros [= <- ->]. by exists l1, a, l2.
Qed.


Lemma no_key_error_bind {A B} (c : M A) (f : A → M B) :
  no_key_error c → (∀ a, c.2 = Ok a → no_key_error (f a)) →
  no_key_error (c ≫= f).
Proof.
  unfold no_key_error. destruct c as [l1 [a|e]]; unfold mbind, M_bind; cbn.
  - intros _ Hf k. specialize (Hf a eq_refl k). destruct (f a). exact Hf.
  - intros Hc _ k [= ->]. by apply (Hc k).
Qed.


Lemma no_key_error_bind_Ok {A B} (c : M A) (f : A → M B) log a :
  c = (log, Ok a) → no_key_error (f a) → no_key_error (c ≫= f).
Proof.
  intros -> Hf. apply no_key_error_bind; [done|]. by intros ? [= <-].
Qed.

(** ** Dictionaries of properties *)

Lemma try_pop_without d k : Dict.wf d → try_pop d k = without k d.
Proof.
  intros Hwf. unfold try_pop, Dict.contains, without.
  destruct (Dict.get d k) eqn:E.
  - by apply del_filter.
  - symmetry. by apply filter_absent.
Qed.

Lemma pop_without d k v :
  Dict.wf d → Dict.get d k = Some v → pop d k = ([], Ok (v, without k d)).
Proof.
  intros Hwf Hg. unfold pop. rewrite Hg. unfold mret, M_ret.
  by rewrite del_filter.
Qed.

Lemma pop_missing d k : Dict.get d k = None → pop d k = ([], Raise (KeyError k)).
Proof. intros Hg. unfold pop. by rewrite Hg. Qed.

Lemma wf_without d k : Dict.wf d → Dict.wf (without k d).
Proof. apply wf_filter. Qed.

Lemma get_without d k k' :
  k' ≠ k → Dict.get (without k d) k' = Dict.get d k'.
Proof.
  intros Hne. unfold without.
  pose proof (get_filter_keys (λ k0, k0 ≠ k) d k') as H.
  destruct (decide (k' ≠ k)); [exact H|done].
Qed.

Lemma get_try_pop d k k' :
  k' ≠ k → Dict.get (try_pop d k) k' = Dict.get d k'.
Proof.
  intros Hne. unfold try_pop. destruct (Dict.contains d k); [|done].
  by apply get_del_ne.
Qed.

Lemma without_absent d k : Dict.get d k = None → without k d = d.
Proof. apply filter_absent. Qed.

Lemma residual_spec d :
  without "background-repeat"
    (without "background-position"
       (without "height"
          (without "width"
             (without "float" (without "clear" (without "display" d))))))
  = residual d.
Proof.
  unfold without, residual. rewrite !list_filter_filter.
  apply list_filter_iff. intros [k v]. cbn [fst].
  unfold stripped_properties. rewrite !not_elem_of_cons. 
  split; [|tauto]. intros H. repeat split; try tauto. apply not_elem_of_nil.
Qed.

Lemma pop_present d k v :
  Dict.get d k = Some v → pop d k = ([], Ok (v, Dict.del d k)).
Proof. intros Hg. unfold pop. by rewrite Hg. Qed.

(** *** Sheets *)

Lemma elem_of_set_item {K V} `{EqDecision K} (d : Dict.t K V) k v k' v' :
  (k', v') ∈ Dict.set_item d k v → (k', v') ∈ d ∨ (k' = k ∧ v' = v).
Proof.
  induction d as [|[k0 v0] d IH]; cbn.
  - intros [= -> ->]%list_elem_of_singleton. by right.
  - destruct (decide (k0 = k)) as [->|Hne].
    + intros [[= -> ->]|Hin]%elem_of_cons; [by right|].
      left. by right.
    + intros [[= -> ->]|Hin]%elem_of_cons; [left; by left|].
      destruct (IH Hin) as [?|?]; [left; by right|by right].
Qed.

Lemma set_item_not_nil {K V} `{EqDecision K} (d : Dict.t K V) k v :
  Dict.set_item d k v ≠ [].
Proof. destruct d as [|[k0 v0] d]; cbn; [done|]. by destruct (decide (k0 = k)). Qed.

Lemma set_item_twice {K V} `{EqDecision K} (d : Dict.t K V) k v v' :
  Dict.set_item (Dict.set_item d k v) k v' = Dict.set_item d k v'.
Proof.
  induction d as [|[k0 v0] d IH]; cbn.
  - by destruct (decide (k = k)).
  - destruct (decide (k0 = k)) as [->|Hne]; cbn.
    + by destruct (decide (k = k)).
    + destruct (decide (k0 = k)); [done|]. by rewrite IH.
Qed.

(** The sheet an emote is added to is the one already under its URL, or
    a new, empty one placed last. *)
Lemma add_emote_spec sheets url key emote :
  ∃ ss, ((Dict.get sheets url = None ∧ ss = mkSheet url [])
         ∨ Dict.get sheets url = Some ss)
        ∧ add_emote sheets url key emote
          = Dict.set_item sheets url
              (mkSheet (ss_image_url ss)
                 (Dict.set_item (ss_emotes ss) key emote)).
Proof.
  unfold add_emote, Dict.contains.
  destruct (Dict.get sheets url) as [ss|] eqn:Hg.
  - rewrite Hg. exists ss. split; [by right|done].
  - rewrite get_set_item_eq, set_item_twice.
    exists (mkSheet url []). split; [by left|done].
Qed.

Lemma add_emote_wf sheets url key emote :
  Dict.wf sheets → Dict.wf (add_emote sheets url key emote).
Proof.
  intros Hwf. destruct (add_emote_spec sheets url key emote) as (ss & _ & ->).
  by apply wf_set_item.
Qed.

Lemma add_emote_consistent sheets url key emote :
  n_image_url emote = url → n_name emote = key.1 →
  n_suffix emote = key.2 →
  Forall sheet_consistent sheets →
  Forall sheet_consistent (add_emote sheets url key emote).
Proof.
  intros Hu Hn Hs Hall.
  destruct (add_emote_spec sheets url key emote) as (ss & Hss & ->).
  assert (Hss' : ss_image_url ss = url
                 ∧ Forall (λ ke : name_pair * NormalEmote,
                             n_image_url ke.2 = url
                             ∧ n_name ke.2 = ke.1.1 ∧ n_suffix ke.2 = ke.1.2)
                          (ss_emotes ss)).
  { destruct Hss as [[_ ->]|Hg]; [by split|].
    apply get_Some_elem in Hg.
    rewrite Forall_forall in Hall. by destruct (Hall _ Hg) as (? & _ & ?). }
  destruct Hss' as [Hurl Hem].
  apply Forall_set_item; [done|].
  intros ? ->. split; [done|]. split; [apply set_item_not_nil|].
  cbn [snd fst ss_emotes]. apply Forall_set_item; [done|].
  by intros ? ->.
Qed.

Lemma sheet_keys_app (s1 s2 : list (string * Spritesheet)) :
  sheet_keys (s1 ++ s2) = sheet_keys s1 ++ sheet_keys s2.
Proof. unfold sheet_keys. by rewrite fmap_app, concat_app. Qed.

Lemma sheet_keys_cons u ss (rest : list (string * Spritesheet)) :
  sheet_keys ((u, ss) :: rest) = Dict.keys (ss_emotes ss) ++ sheet_keys rest.
Proof. reflexivity. Qed.

(** Adding an emote under a fresh key adds that key, and no other. *)
Lemma add_emote_keys sheets url key emote :
  key ∉ sheet_keys sheets →
  sheet_keys (add_emote sheets url key emote) ≡ₚ key :: sheet_keys sheets.
Proof.
  intros Hfresh.
  destruct (add_emote_spec sheets url key emote) as (ss & Hss & ->).
  set (ss' := mkSheet _ _).
  destruct Hss as [[Hg ->]|Hg].
  - apply get_None in Hg.
    assert (Dict.set_item sheets url ss' = sheets ++ [(url, ss')]) as ->.
    { clear -Hg. induction sheets as [|[u s0] sheets IH]; [done|].
      cbn in *. apply not_elem_of_cons in Hg as [Hne Hg].
      destruct (decide (u = url)); [done|]. by rewrite IH. }
    rewrite sheet_keys_app, sheet_keys_cons.
    change (sheet_keys []) with (@nil name_pair). rewrite app_nil_r.
    unfold ss'. cbn [ss_emotes Dict.set_item Dict.keys fmap list_fmap fst].
    by rewrite Permutation_app_comm.
  - revert Hfresh Hg. induction sheets as [|[u s0] sheets IH]; [done|].
    rewrite sheet_keys_cons, not_elem_of_app. intros [Hf1 Hf2].
    cbn [Dict.get Dict.set_item].
    destruct (decide (u = url)) as [->|Hne].
    + intros [= ->]. rewrite sheet_keys_cons. unfold ss'. cbn [ss_emotes].
      rewrite keys_set_item_absent by done.
      rewrite <- app_assoc. cbn. by rewrite <- Permutation_middle.
    + intros Hg. rewrite sheet_keys_cons, (IH Hf2 Hg).
      by rewrite <- Permutation_middle.
Qed.

(** *** Validation of the sheets *)

Lemma verify_all_sheets (sheets : list (string * Spritesheet)) :
  (verify_all sheets).1
  = (λ us : string * Spritesheet,
       (us.1, mkSheet (ss_image_url us.2)
                ((λ ke, (ke.1, with_offset ke.2)) <$> ss_emotes us.2)))
      <$> sheets.
Proof.
  destruct (verify_all_spec sheets) as [-> _].
  apply list_fmap_ext. intros _ [u ss] _. cbn [fst snd].
  by rewrite verify_spritesheet_spec.
Qed.

Lemma with_offset_fields e :
  n_name (with_offset e) = n_name e
  ∧ n_suffix (with_offset e) = n_suffix e
  ∧ n_css (with_offset e) = n_css e
  ∧ n_image_url (with_offset e) = n_image_url e
  ∧ n_size (with_offset e) = n_size e.
Proof. unfold with_offset. by destruct (n_offset e). Qed.

Lemma with_offset_twice e : with_offset (with_offset e) = with_offset e.
Proof.
  unfold with_offset. destruct (n_offset e) eqn:E; cbn; [by rewrite E|done].
Qed.

Lemma keys_with_offset (items : list (name_pair * NormalEmote)) :
  Dict.keys ((λ ke, (ke.1, with_offset ke.2)) <$> items) = Dict.keys items.
Proof.
  unfold Dict.keys. rewrite <- list_fmap_compose.
  by apply list_fmap_ext.
Qed.

Lemma unpositioned_with_offset (items : list (name_pair * NormalEmote)) :
  unpositioned ((λ ke, (ke.1, with_offset ke.2)) <$> items) = [].
Proof.
  induction items as [|[k e] items IH]; [done|].
  rewrite fmap_cons, unpositioned_cons. cbn [fst snd].
  destruct (with_offset_is_Some e) as [o ->]. done.
Qed.

Lemma verify_all_keys (sheets : list (string * Spritesheet)) :
  Dict.keys (verify_all sheets).1 = Dict.keys sheets
  ∧ sheet_keys (verify_all sheets).1 = sheet_keys sheets.
Proof.
  rewrite verify_all_sheets. unfold Dict.keys, sheet_keys.
  rewrite <- !list_fmap_compose. split.
  - by apply list_fmap_ext.
  - f_equal. apply list_fmap_ext. intros _ [u ss] _. cbn.
    apply keys_with_offset.
Qed.

Lemma verify_all_consistent (sheets : list (string * Spritesheet)) :
  Forall sheet_consistent sheets →
  Forall sheet_consistent (verify_all sheets).1.
Proof.
  rewrite verify_all_sheets, Forall_fmap. intros Hall.
  apply (Forall_impl _ _ _ Hall).
  intros [u ss] (H1 & H2 & H3). unfold sheet_consistent in *.
  cbn [fst snd ss_image_url ss_emotes compose] in *.
  split; [done|]. split.
  - destruct (ss_emotes ss); [done|]. done.
  - rewrite Forall_fmap. apply (Forall_impl _ _ _ H3).
    intros [k e] (? & ? & ?). cbn [fst snd compose] in *.
    by destruct (with_offset_fields e) as (-> & -> & _ & -> & _).
Qed.

Lemma verify_all_from as_url emotes (sheets : list (string * Spritesheet)) :
  sheets_from as_url emotes sheets →
  sheets_from as_url emotes (verify_all sheets).1.
Proof.
  rewrite verify_all_sheets. intros Hfrom url ss key.
  intros ([u s0] & [= -> ->] & Hin)%list_elem_of_fmap.
  cbn [fst snd ss_emotes]. rewrite keys_with_offset.
  by apply Hfrom.
Qed.

Lemma call_Some {A} (f : string → option A) raw a :
  f raw = Some a → call f raw = ([], Ok a).
Proof. intros H. unfold call. by rewrite H. Qed.

Lemma call_None {A} (f : string → option A) raw :
  f raw = None → call f raw = ([], Raise (CssValueError raw)).
Proof. intros H. unfold call. by rewrite H. Qed.

(** The final loop of [_convert_emote]: one warning for each property
    left, in their order, but for margin-left and margin-right. *)
Lemma extra_properties_spec key (d : list (string * string)) :
  extra_properties key d
  = (λ pv : string * string, WarnExtraProperty key pv.1 pv.2)
      <$> filter (λ pv : string * string,
                    pv.1 ∉ ["margin-left"; "margin-right"]) d.
Proof.
  unfold extra_properties. induction d as [|[p v] d IH]; [done|].
  rewrite fmap_cons. cbn [concat].
  rewrite (filter_cons (λ pv : string * string,
                          pv.1 ∉ ["margin-left"; "margin-right"])).
  rewrite IH. cbn [fst snd].
  destruct (decide (p ∉ ["margin-left"; "margin-right"])) as [Hp|Hp].
  - by rewrite bool_decide_eq_true_2.
  - by rewrite bool_decide_eq_false_2.
Qed.

Section ConvertFacts.
Variable as_size : string → option Z.
Variable as_position : string → Z → Z → option (Z * Z).

(** The result of [_convert_emote] with the warnings as the final loop
    gives them. *)
Lemma convert_emote_residual key image_url raw w h W H :
  Dict.wf (css raw) →
  Dict.get (css raw) "width" = Some w →
  Dict.get (css raw) "height" = Some h →
  as_size w = Some W → as_size h = Some H →
  (∀ p, Dict.get (css raw) "background-position" = Some p →
        is_Some (as_position p W H)) →
  _convert_emote as_size as_position key image_url raw
  = (extra_properties key (residual (css raw)),
     Ok (mkNormal key.1 key.2 (residual (css raw)) image_url (W, H)
           (Dict.get (css raw) "background-position"
              ≫= λ p, as_position p W H))).
Proof.
  intros Hwf Hw Hh HW HH Hpos. unfold _convert_emote.
  rewrite <- residual_spec.
  rewrite (try_pop_without (css raw) "display") by done.
  rewrite (try_pop_without (without "display" (css raw)) "clear")
    by auto using wf_without.
  rewrite (try_pop_without (without "clear" (without "display" (css raw)))
             "float") by auto using wf_without.
  set (c3 := without "float" (without "clear" (without "display" (css raw)))).
  assert (Hwf3 : Dict.wf c3) by (unfold c3; auto using wf_without).
  assert (Hg3 : ∀ k, k ∉ ["display"; "clear"; "float"] →
                     Dict.get c3 k = Dict.get (css raw) k).
  { intros k Hk. rewrite !not_elem_of_cons in Hk. unfold c3.
    rewrite !get_without by tauto. done. }
  rewrite (pop_without c3 "width" w Hwf3)
    by (rewrite Hg3; [done|rewrite !not_elem_of_cons; repeat split; try done; apply not_elem_of_nil]).
  cbn [mbind M_bind app]. rewrite (call_Some _ _ _ HW).
  cbn [mbind M_bind app].
  set (c4 := without "width" c3).
  assert (Hwf4 : Dict.wf c4) by (unfold c4; auto using wf_without).
  rewrite (pop_without c4 "height" h Hwf4)
    by (unfold c4; rewrite get_without by done; rewrite Hg3;
        [done|rewrite !not_elem_of_cons; repeat split; try done; apply not_elem_of_nil]).
  cbn [mbind M_bind app]. rewrite (call_Some _ _ _ HH).
  cbn [mbind M_bind app].
  set (c5 := without "height" c4).
  assert (Hwf5 : Dict.wf c5) by (unfold c5; auto using wf_without).
  assert (Hg5 : Dict.get c5 "background-position"
                = Dict.get (css raw) "background-position").
  { unfold c5, c4. rewrite !get_without by done. apply Hg3.
    rewrite !not_elem_of_cons; repeat split; try done; apply not_elem_of_nil. }
  unfold Dict.contains. rewrite Hg5.
  destruct (Dict.get (css raw) "background-position") as [p|] eqn:Hp.
  - destruct (Hpos p eq_refl) as [o Ho].
    rewrite (pop_without c5 "background-position" p Hwf5) by by rewrite Hg5.
    cbn [mbind M_bind app]. rewrite (call_Some _ _ _ Ho).
    cbn [mbind M_bind mret M_ret app fst snd lift option_bind].
    rewrite try_pop_without by auto using wf_without.
    by rewrite Ho, app_nil_r.
  - cbn [mbind M_bind mret M_ret app fst snd lift option_bind].
    rewrite try_pop_without by auto.
    rewrite (without_absent c5 "background-position") by by rewrite Hg5.
    by rewrite app_nil_r.
Qed.

(** X11.  The result of [_convert_emote] on an emote with a width and
    a height that [as_size] accepts, and with no background-position or
    one that [as_position] accepts, no property occurring twice: the
    emote has the name and suffix of the key, the image URL handed in,
    the size (width, height), the offset computed from
    background-position or null without one, and as properties the
    properties handed in without display, clear, float, width, height,
    background-position and background-repeat, in their order.  One
    extra-property warning, with the key, the property and its value,
    is printed for each of the properties handed in other than these
    seven and margin-left and margin-right, in their order; nothing
    else is printed. *)
Theorem convert_emote_result key image_url raw w h W H :
  Dict.wf (css raw) →
  Dict.get (css raw) "width" = Some w →
  Dict.get (css raw) "height" = Some h →
  as_size w = Some W → as_size h = Some H →
  (∀ p, Dict.get (css raw) "background-position" = Some p →
        is_Some (as_position p W H)) →
  _convert_emote as_size as_position key image_url raw
  = ((λ pv : string * string, WarnExtraProperty key pv.1 pv.2)
       <$> filter (λ pv : string * string,
                     pv.1 ∉ ["display"; "clear"; "float"; "width"; "height";
                             "background-position"; "background-repeat";
                             "margin-left"; "margin-right"])
                  (css raw : list (string * string)),
     Ok (mkNormal key.1 key.2
           (filter (λ pv : string * string,
                      pv.1 ∉ ["display"; "clear"; "float"; "width";
                              "height"; "background-position";
                              "background-repeat"])
                   (css raw : list (string * string)))
           image_url (W, H)
           (Dict.get (css raw) "background-position"
              ≫= λ p, as_position p W H))).
Proof.
  intros Hwf Hw Hh HW HH Hpos.
  rewrite (convert_emote_residual key image_url raw
             w h W H Hwf Hw Hh HW HH Hpos).
  rewrite extra_properties_spec. unfold residual, stripped_properties.
  f_equal. f_equal. rewrite list_filter_filter. apply list_filter_iff.
  intros [p v]. cbn [fst]. rewrite !not_elem_of_cons. tauto.
Qed.
Lemma get_after_try_pops d k :
  k ∉ ["display"; "clear"; "float"] →
  Dict.get (try_pop (try_pop (try_pop d "display") "clear") "float") k
  = Dict.get d k.
Proof.
  intros Hk. rewrite !not_elem_of_cons in Hk.
  rewrite !get_try_pop by tauto. done.
Qed.

(** What [_convert_emote] does up to the last [try_pop], in terms of
    the properties of the emote handed in. *)
Lemma convert_emote_cases key image_url raw :
  let c := css raw in
  let r := _convert_emote as_size as_position key image_url raw in
  match Dict.get c "width" with
  | None => r = ([], Raise (KeyError "width"))
  | Some w =>
      match as_size w with
      | None => r = ([], Raise (CssValueError w))
      | Some W =>
          match Dict.get c "height" with
          | None => r = ([], Raise (KeyError "height"))
          | Some h =>
              match as_size h with
              | None => r = ([], Raise (CssValueError h))
              | Some H =>
                  match Dict.get c "background-position" with
                  | None =>
                      ∃ css', r = (extra_properties key css',
                                   Ok (mkNormal key.1 key.2 css' image_url
                                         (W, H) None))
                  | Some p =>
                      match as_position p W H with
                      | None => r = ([], Raise (CssValueError p))
                      | Some o =>
                          ∃ css', r = (extra_properties key css',
                                       Ok (mkNormal key.1 key.2 css'
                                             image_url (W, H) (Some o)))
                      end
                  end
              end
          end
      end
  end.
Proof.
  intros c r. unfold r, _convert_emote. fold c.
  set (c3 := try_pop (try_pop (try_pop c "display") "clear") "float").
  assert (Hg3 : ∀ k, k ∉ ["display"; "clear"; "float"] →
                     Dict.get c3 k = Dict.get c k)
    by (intros; by apply get_after_try_pops).
  assert (Hw3 : Dict.get c3 "width" = Dict.get c "width").
  { apply Hg3. rewrite !not_elem_of_cons. repeat split; try done.
    apply not_elem_of_nil. }
  assert (Hh3 : Dict.get c3 "height" = Dict.get c "height").
  { apply Hg3. rewrite !not_elem_of_cons. repeat split; try done.
    apply not_elem_of_nil. }
  assert (Hp3 : Dict.get c3 "background-position"
                = Dict.get c "background-position").
  { apply Hg3. rewrite !not_elem_of_cons. repeat split; try done.
    apply not_elem_of_nil. }
  destruct (Dict.get c "width") as [w|] eqn:Hw.
  2: { by rewrite (pop_missing _ _ Hw3). }
  rewrite (pop_present _ _ _ Hw3). cbn [mbind M_bind app].
  destruct (as_size w) as [W|] eqn:HW.
  2: { by rewrite (call_None _ _ HW). }
  rewrite (call_Some _ _ _ HW). cbn [mbind M_bind app].
  assert (Hh4 : Dict.get (Dict.del c3 "width") "height"
                = Dict.get c "height")
    by (by rewrite get_del_ne).
  destruct (Dict.get c "height") as [h|] eqn:Hh.
  2: { by rewrite (pop_missing _ _ Hh4). }
  rewrite (pop_present _ _ _ Hh4). cbn [mbind M_bind app].
  destruct (as_size h) as [H|] eqn:HH.
  2: { by rewrite (call_None _ _ HH). }
  rewrite (call_Some _ _ _ HH). cbn [mbind M_bind app].
  assert (Hp5 : Dict.get (Dict.del (Dict.del c3 "width") "height")
                  "background-position"
                = Dict.get c "background-position")
    by (by rewrite !get_del_ne).
  unfold Dict.contains. rewrite Hp5.
  destruct (Dict.get c "background-position") as [p|] eqn:Hp.
  - rewrite (pop_present _ _ _ Hp5). cbn [mbind M_bind app].
    destruct (as_position p W H) as [o|] eqn:Ho.
    2: { by rewrite (call_None _ _ Ho). }
    rewrite (call_Some _ _ _ Ho).
    cbn [mbind M_bind mret M_ret app fst snd lift].
    eexists. by rewrite app_nil_r.
  - cbn [mbind M_bind mret M_ret app fst snd lift].
    eexists. by rewrite app_nil_r.
Qed.

(** X12.  When [_convert_emote] raises it has printed nothing, and the
    error is a KeyError for width or for height, the property being
    absent, or the error a css utility raised on the value of width,
    height or background-position. *)
Theorem convert_emote_failure key image_url raw log e :
  _convert_emote as_size as_position key image_url raw = (log, Raise e) →
  log = []
  ∧ ((e = KeyError "width" ∧ Dict.get (css raw) "width" = None)
     ∨ (e = KeyError "height" ∧ Dict.get (css raw) "height" = None)
     ∨ ∃ k v, k ∈ ["width"; "height"; "background-position"]
              ∧ Dict.get (css raw) k = Some v ∧ e = CssValueError v).
Proof.
  intros Hr. pose proof (convert_emote_cases key image_url raw) as Hc.
  cbn zeta in Hc. rewrite Hr in Hc.
  destruct (Dict.get (css raw) "width") as [w|] eqn:Hw.
  2: { injection Hc as -> ->. split; [done|]. by left. }
  destruct (as_size w) as [W|] eqn:HW.
  2: { injection Hc as -> ->. split; [done|]. right; right.
       exists "width", w. split; [set_solver|done]. }
  destruct (Dict.get (css raw) "height") as [h|] eqn:Hh.
  2: { injection Hc as -> ->. split; [done|]. right; by left. }
  destruct (as_size h) as [H|] eqn:HH.
  2: { injection Hc as -> ->. split; [done|]. right; right.
       exists "height", h. split; [set_solver|done]. }
  destruct (Dict.get (css raw) "background-position") as [p|] eqn:Hp.
  2: { by destruct Hc as [? [= ]]. }
  destruct (as_position p W H) as [o|] eqn:Ho.
  { by destruct Hc as [? [= ]]. }
  injection Hc as -> ->. split; [done|]. right; right.
  exists "background-position", p. split; [set_solver|done].
Qed.

(** The fields [_convert_emote] copies. *)
Lemma convert_emote_fields key image_url raw log e :
  _convert_emote as_size as_position key image_url raw = (log, Ok e) →
  n_image_url e = image_url ∧ n_name e = key.1 ∧ n_suffix e = key.2.
Proof.
  intros Hr. pose proof (convert_emote_cases key image_url raw) as Hc.
  cbn zeta in Hc. rewrite Hr in Hc.
  repeat match type of Hc with
         | match ?x with _ => _ end => destruct x; try discriminate
         end;
    by destruct Hc as [? [= _ ->]].
Qed.


(** [_convert_emote] raises no [KeyError] on an emote with a width and
    a height. *)
Lemma convert_emote_no_key_error key image_url raw :
  is_Some (Dict.get (css raw) "width") →
  is_Some (Dict.get (css raw) "height") →
  no_key_error (_convert_emote as_size as_position key image_url raw).
Proof.
  intros [w Hw] [h Hh] k. pose proof (convert_emote_cases key image_url raw) as Hc.
  cbn zeta in Hc. rewrite Hw, Hh in Hc.
  repeat match type of Hc with
         | match ?x with _ => _ end => destruct x
         | ∃ _, _ => destruct Hc as [? Hc]
         end; by rewrite Hc.
Qed.
End ConvertFacts.

Section SpritesheetFacts.
Variable as_url : string → option string.
Variable as_size : string → option Z.
Variable as_position : string → Z → Z → option (Z * Z).

(** One round of the first loop of [build_spritesheet_map]. *)
Lemma group_loop_cons sheets key raw rest :
  group_loop as_url as_size as_position sheets ((key, raw) :: rest)
  = '(bg, css') ← pop (css raw) "background-image";
    image_url ← call as_url bg;
    emote ← _convert_emote as_size as_position key image_url
               (set_css raw css');
    group_loop as_url as_size as_position
      (add_emote sheets image_url key emote) rest.
Proof. reflexivity. Qed.


Lemma group_loop_no_key_error items :
  Forall (λ ke, is_normal ke.2 = true) items →
  ∀ sheets,
    no_key_error (group_loop as_url as_size as_position sheets items).
Proof.
  induction 1 as [|[key raw] rest Hn Hrest IH]; intros sheets; [done|].
  rewrite group_loop_cons. apply is_normal_spec in Hn as ([bg Hbg] & Hw & Hh).
  cbn [snd] in *.
  apply (no_key_error_bind_Ok _ _ _ _ (pop_present _ _ _ Hbg)).
  apply no_key_error_bind.
  { unfold call. by destruct (as_url bg). }
  intros url _. apply no_key_error_bind.
  - apply convert_emote_no_key_error; cbn [css set_css];
      by rewrite get_del_ne.
  - intros e _. apply IH.
Qed.

Lemma group_loop_cons_inv sheets key raw rest log out :
  group_loop as_url as_size as_position sheets ((key, raw) :: rest)
  = (log, Ok out) →
  ∃ bg url emote log1 log2,
    Dict.get (css raw) "background-image" = Some bg
    ∧ as_url bg = Some url
    ∧ _convert_emote as_size as_position key url
        (set_css raw (Dict.del (css raw) "background-image"))
      = (log1, Ok emote)
    ∧ group_loop as_url as_size as_position
        (add_emote sheets url key emote) rest = (log2, Ok out)
    ∧ log = log1 ++ log2.
Proof.
  rewrite group_loop_cons.
  destruct (Dict.get (css raw) "background-image") as [bg|] eqn:Hbg.
  2: { by rewrite (pop_missing _ _ Hbg). }
  rewrite (pop_present _ _ _ Hbg). cbn [mbind M_bind].
  destruct (as_url bg) as [url|] eqn:Hu.
  2: { by rewrite (call_None _ _ Hu). }
  rewrite (call_Some _ _ _ Hu). cbn [mbind M_bind app].
  destruct (_convert_emote _ _ _ _ _ ≫= _) as [l r] eqn:E.
  intros [= <- ->]. apply bind_Ok_inv in E as (l1 & e & l2 & ? & ? & ->).
  by exists bg, url, e, l1, l2.
Qed.

Lemma add_emote_from emotes sheets url key raw bg emote :
  (key, raw) ∈ emotes →
  Dict.get (css raw) "background-image" = Some bg →
  as_url bg = Some url →
  sheets_from as_url emotes sheets →
  sheets_from as_url emotes (add_emote sheets url key emote).
Proof.
  intros Hin Hbg Hu Hfrom u s0 k.
  destruct (add_emote_spec sheets url key emote) as (ss & Hss & ->).
  intros [Hold|[-> ->]]%elem_of_set_item; [by apply Hfrom|].
  cbn [ss_emotes]. unfold Dict.keys.
  intros ([k' e'] & -> & [Hk|[-> ->]]%elem_of_set_item)%list_elem_of_fmap.
  - destruct Hss as [[_ ->]|Hg]; [by apply elem_of_nil in Hk|].
    apply (Hfrom url ss); [by apply get_Some_elem|].
    apply list_elem_of_fmap. by exists (k', e').
  - by exists raw, bg.
Qed.

Lemma group_loop_sheets emotes items :
  ∀ sheets log out,
    group_loop as_url as_size as_position sheets items = (log, Ok out) →
    (∀ x, x ∈ items → x ∈ emotes) →
    Dict.wf sheets → Forall sheet_consistent sheets →
    sheets_from as_url emotes sheets →
    Dict.wf out ∧ Forall sheet_consistent out
    ∧ sheets_from as_url emotes out.
Proof.
  induction items as [|[key raw] rest IH]; intros sheets log out.
  { by intros [= _ <-]. }
  intros (bg & url & e & l1 & l2 & Hbg & Hu & Hc & Hrest & _)%group_loop_cons_inv
    Hsub Hwf Hcons Hfrom.
  apply convert_emote_fields in Hc as (H1 & H2 & H3).
  apply (IH _ _ _ Hrest).
  - intros x Hx. apply Hsub. by right.
  - by apply add_emote_wf.
  - by apply add_emote_consistent.
  - apply (add_emote_from emotes sheets url key raw bg); try done.
    apply Hsub. by left.
Qed.

Lemma group_loop_keys items :
  ∀ sheets log out,
    group_loop as_url as_size as_position sheets items = (log, Ok out) →
    NoDup (sheet_keys sheets ++ Dict.keys items) →
    sheet_keys out ≡ₚ sheet_keys sheets ++ Dict.keys items.
Proof.
  induction items as [|[key raw] rest IH]; intros sheets log out.
  { intros [= _ <-] _. unfold Dict.keys. cbn. by rewrite app_nil_r. }
  intros (bg & url & e & l1 & l2 & _ & _ & _ & Hrest & _)%group_loop_cons_inv
    Hnd.
  change (Dict.keys ((key, raw) :: rest)) with (key :: Dict.keys rest) in *.
  rewrite <- Permutation_middle in Hnd. apply NoDup_cons in Hnd as [Hk0 Hnd].
  pose proof Hk0 as [Hk _]%not_elem_of_app.
  pose proof (add_emote_keys sheets url key e Hk) as Hp.
  rewrite (IH _ _ _ Hrest).
  - rewrite Hp. by rewrite <- Permutation_middle.
  - rewrite Hp. cbn. by apply NoDup_cons.
Qed.

Lemma build_spritesheet_map_inv emotes log out :
  build_spritesheet_map as_url as_size as_position emotes = (log, Ok out) →
  ∃ l1 sheets,
    group_loop as_url as_size as_position [] emotes = (l1, Ok sheets)
    ∧ out = (verify_all sheets).1.
Proof.
  unfold build_spritesheet_map.
  intros (l1 & sheets & l2 & Hg & [= _ <-] & _)%bind_Ok_inv. eauto.
Qed.

(** X13.  The sheets [build_spritesheet_map] returns: no image URL
    has two sheets; every sheet is stored under its own image URL, holds
    at least one emote, and every emote in it carries the image URL of
    the sheet and the name and suffix of the key it is stored under;
    every emote of a sheet comes from an emote of the input whose
    background-image resolves to the URL of the sheet. *)
Theorem build_spritesheet_map_sheets emotes log sheets :
  build_spritesheet_map as_url as_size as_position emotes
  = (log, Ok sheets) →
  Dict.wf sheets
  ∧ Forall sheet_consistent sheets
  ∧ sheets_from as_url emotes sheets.
Proof.
  intros (l1 & s0 & Hg & ->)%build_spritesheet_map_inv.
  destruct (group_loop_sheets emotes emotes [] l1 s0 Hg) as (H1 & H2 & H3).
  - done.
  - constructor.
  - constructor.
  - intros ? ? ? Hin. by apply elem_of_nil in Hin.
  - split; [|split].
    + unfold Dict.wf. destruct (verify_all_keys s0) as [-> _]. done.
    + by apply verify_all_consistent.
    + by apply verify_all_from.
Qed.

(** X14.  [build_spritesheet_map] loses and duplicates no emote: when
    it returns, on a map without repeated keys, the emote keys of all
    the sheets together are the keys of the map, each one once. *)
Theorem build_spritesheet_map_partition emotes log sheets :
  Dict.wf emotes →
  build_spritesheet_map as_url as_size as_position emotes
  = (log, Ok sheets) →
  sheet_keys sheets ≡ₚ Dict.keys emotes.
Proof.
  intros Hwf (l1 & s0 & Hg & ->)%build_spritesheet_map_inv.
  destruct (verify_all_keys s0) as [_ ->].
  by apply (group_loop_keys emotes [] l1 s0 Hg).
Qed.

End SpritesheetFacts.

(** X18.  [_verify_spritesheet] is idempotent: on a sheet it has
    validated, a second validation changes nothing and prints
    nothing. *)
Theorem verify_spritesheet_idempotent image_url ss :
  _verify_spritesheet image_url (_verify_spritesheet image_url ss).1
  = ((_verify_spritesheet image_url ss).1, []).
Proof.
  rewrite !verify_spritesheet_spec. cbn [fst snd ss_image_url ss_emotes].
  rewrite unpositioned_with_offset. cbn [length].
  rewrite <- list_fmap_compose. f_equal. f_equal.
  apply list_fmap_ext. intros _ [k e] _. cbn. by rewrite with_offset_twice.
Qed.

Lemma convert_emote_result_witness :
  _convert_emote (λ _, Some 10%Z) (λ _ _ _, Some (0, 0)%Z)
    ("/b", None) "s.png"
    (mkPartial "/b" None
       [("float", "left"); ("width", "10px"); ("margin-left", "5px");
        ("color", "red"); ("height", "10px");
        ("background-repeat", "no-repeat"); ("margin-top", "1px")])
  = ([WarnExtraProperty ("/b", None) "color" "red";
      WarnExtraProperty ("/b", None) "margin-top" "1px"],
     Ok (mkNormal "/b" None
           [("margin-left", "5px"); ("color", "red"); ("margin-top", "1px")]
           "s.png" (10, 10)%Z None)).
Proof.
  apply (convert_emote_result (λ _, Some 10%Z) (λ _ _ _, Some (0, 0)%Z)
           ("/b", None) "s.png"
           (mkPartial "/b" None
              [("float", "left"); ("width", "10px"); ("margin-left", "5px");
               ("color", "red"); ("height", "10px");
               ("background-repeat", "no-repeat"); ("margin-top", "1px")])
           "10px" "10px" 10%Z 10%Z).
  - apply (bool_decide_unpack _). vm_compute. exact I.
  - reflexivity.
  - reflexivity.
  - reflexivity.
  - reflexivity.
  - intros p. vm_compute. discriminate.
Defined.

Lemma convert_emote_failure_witness :
  @nil message = []
  ∧ ((KeyError "height" = KeyError "width"
      ∧ Dict.get [("width", "10px")] "width" = None)
     ∨ (KeyError "height" = KeyError "height"
        ∧ Dict.get [("width", "10px")] "height" = None)
     ∨ ∃ k v, k ∈ ["width"; "height"; "background-position"]
              ∧ Dict.get [("width", "10px")] k = Some v
              ∧ KeyError "height" = CssValueError v).
Proof.
  apply (convert_emote_failure (λ _, Some 10%Z) (λ _ _ _, Some (0, 0)%Z)
           ("/b", None) "s.png" (mkPartial "/b" None [("width", "10px")])).
  reflexivity.
Defined.

Lemma build_spritesheet_map_sheets_witness :
  Dict.wf [("s.png", two_plain_sheet)]
  ∧ Forall sheet_consistent [("s.png", two_plain_sheet)]
  ∧ sheets_from (λ _, Some "s.png") two_plain [("s.png", two_plain_sheet)].
Proof.
  apply (build_spritesheet_map_sheets (λ _, Some "s.png") (λ _, Some 10%Z)
           (λ _ _ _, Some (0, 0)%Z) two_plain
           [WarnExtraProperty ("/b", None) "color" "red";
            ErrorMultipleUnsized "s.png" [("/a", None); ("/b", None)]]).
  vm_compute. reflexivity.
Defined.

Lemma build_spritesheet_map_partition_witness :
  sheet_keys [("s.png", two_plain_sheet)] ≡ₚ Dict.keys two_plain.
Proof.
  apply (build_spritesheet_map_partition (λ _, Some "s.png")
           (λ _, Some 10%Z) (λ _ _ _, Some (0, 0)%Z) two_plain
           [WarnExtraProperty ("/b", None) "color" "red";
            ErrorMultipleUnsized "s.png" [("/a", None); ("/b", None)]]).
  - apply (bool_decide_unpack _). vm_compute. exact I.
  - vm_compute. reflexivity.
Defined.

(** ** The order of the results *)

Lemma build_loop_keys (l : list PartialEmote) :
  ∀ acc,
    Dict.keys (build_loop acc (GYield <$> l)).1
    = Dict.keys acc
      ++ filter (λ k, k ∉ Dict.keys acc) (first_occurrences (key_of <$> l)).
Proof.
  induction l as [|e l IH]; intros acc.
  { cbn. by rewrite app_nil_r. }
  cbn [fmap list_fmap build_loop first_occurrences].
  pose proof (merge_emote_keys acc e) as Hk.
  destruct (merge_emote acc e) as [acc' log] eqn:Hm. cbn [fst] in Hk.
  specialize (IH acc').
  destruct (build_loop acc' (GYield <$> l)) as [r log'] eqn:Hb.
  cbn [fst] in *. rewrite IH, Hk.
  rewrite (filter_cons (λ k, k ∉ Dict.keys acc)).
  destruct (decide (key_of e ∈ Dict.keys acc)) as [Hin|Hin].
  - destruct (decide (key_of e ∉ Dict.keys acc)) as [Hn|_]; [done|].
    f_equal. rewrite list_filter_filter. apply list_filter_iff.
    intros k. split; [|tauto]. intros Hk'. split; [done|]. by intros ->.
  - destruct (decide (key_of e ∉ Dict.keys acc)) as [_|Hn]; [|done].
    rewrite <- app_assoc. cbn [app]. do 2 f_equal.
    rewrite list_filter_filter. apply list_filter_iff.
    intros k. rewrite not_elem_of_app, list_elem_of_singleton. tauto.
Qed.

(** X19.  The keys of the map [build_emote_map] returns are the
    (name, suffix) keys of the partial emotes in the order of their
    first occurrences: a later fragment of a key changes the emote but
    not its place. *)
Theorem build_emote_map_key_order (partial_emotes : list PartialEmote) :
  Dict.keys (build_emote_map partial_emotes).1
  = first_occurrences (key_of <$> partial_emotes).
Proof.
  unfold build_emote_map, build_emote_map_gen. rewrite build_loop_keys.
  cbn [Dict.keys fmap list_fmap app]. 
  induction (first_occurrences (key_of <$> partial_emotes)) as [|k ks IH];
    [done|].
  rewrite (filter_cons (λ k, k ∉ [])).
  destruct (decide (k ∉ [])) as [_|Hn]; [by rewrite IH|].
  exfalso. apply Hn, not_elem_of_nil.
Qed.

Lemma add_emote_urls sheets url key emote :
  Dict.keys (add_emote sheets url key emote)
  = if decide (url ∈ Dict.keys sheets) then Dict.keys sheets
    else Dict.keys sheets ++ [url].
Proof.
  destruct (add_emote_spec sheets url key emote) as (ss & _ & ->).
  destruct (decide (url ∈ Dict.keys sheets)) as [Hin|Hin].
  - by apply keys_set_item_present.
  - by apply keys_set_item_absent.
Qed.

Lemma emotes_at_sheet_keys sheets url key :
  key ∈ emotes_at sheets url → key ∈ sheet_keys sheets.
Proof.
  unfold emotes_at. destruct (Dict.get sheets url) as [ss|] eqn:Hg.
  - intros Hk. apply get_Some_elem in Hg. unfold sheet_keys.
    apply elem_of_concat. exists (Dict.keys (ss_emotes ss)).
    split; [done|]. apply list_elem_of_fmap. by exists (url, ss).
  - intros Hk. by apply elem_of_nil in Hk.
Qed.

Lemma add_emote_at sheets url key emote u :
  key ∉ emotes_at sheets url →
  emotes_at (add_emote sheets url key emote) u
  = if decide (u = url) then emotes_at sheets url ++ [key]
    else emotes_at sheets u.
Proof.
  intros Hfresh.
  destruct (add_emote_spec sheets url key emote) as (ss & Hss & ->).
  unfold emotes_at in *. destruct (decide (u = url)) as [->|Hne].
  - rewrite get_set_item_eq. cbn [ss_emotes].
    destruct Hss as [[-> ->]|Hg]; [done|]. rewrite Hg in *.
    by apply keys_set_item_absent.
  - by rewrite get_set_item_ne.
Qed.

Lemma get_fmap_values {K V W} `{EqDecision K} (h : K → V → W)
    (d : list (K * V)) k :
  Dict.get ((λ kv, (kv.1, h kv.1 kv.2)) <$> d) k = h k <$> Dict.get d k.
Proof.
  induction d as [|[k0 v0] d IH]; [done|]. cbn.
  destruct (decide (k0 = k)) as [->|Hne]; [done|]. apply IH.
Qed.

Lemma verify_all_at (sheets : list (string * Spritesheet)) url :
  emotes_at (verify_all sheets).1 url = emotes_at sheets url.
Proof.
  unfold emotes_at. rewrite verify_all_sheets.
  rewrite (get_fmap_values
             (λ _ ss, mkSheet (ss_image_url ss)
                        ((λ ke, (ke.1, with_offset ke.2)) <$> ss_emotes ss))).
  destruct (Dict.get sheets url) as [ss|]; [|done]. cbn.
  apply keys_with_offset.
Qed.

Section OrderFacts.
Variable as_url : string → option string.
Variable as_size : string → option Z.
Variable as_position : string → Z → Z → option (Z * Z).

Lemma group_loop_urls items :
  ∀ sheets log out,
    group_loop as_url as_size as_position sheets items = (log, Ok out) →
    Dict.keys out
    = Dict.keys sheets
      ++ filter (λ u, u ∉ Dict.keys sheets)
           (first_occurrences
              (omap (λ ke : name_pair * PartialEmote,
                       image_url_of as_url ke.2) items)).
Proof.
  induction items as [|[key raw] rest IH]; intros sheets log out.
  { intros [= _ <-]. cbn. by rewrite app_nil_r. }
  intros (bg & url & e & l1 & l2 & Hbg & Hu & _ & Hrest & _)%group_loop_cons_inv.
  assert (image_url_of as_url raw = Some url) as Hurl
    by (unfold image_url_of; by rewrite Hbg).
  cbn [omap list_omap snd]. rewrite Hurl. cbn [first_occurrences].
  rewrite (IH _ _ _ Hrest), add_emote_urls.
  rewrite (filter_cons (λ u, u ∉ Dict.keys sheets)).
  destruct (decide (url ∈ Dict.keys sheets)) as [Hin|Hin].
  - destruct (decide (url ∉ Dict.keys sheets)) as [Hn|_]; [done|].
    f_equal. rewrite list_filter_filter. apply list_filter_iff.
    intros u. split; [|tauto]. intros Hu'. split; [done|]. by intros ->.
  - destruct (decide (url ∉ Dict.keys sheets)) as [_|Hn]; [|done].
    rewrite <- app_assoc. cbn [app]. do 2 f_equal.
    rewrite list_filter_filter. apply list_filter_iff.
    intros u. rewrite not_elem_of_app, list_elem_of_singleton. tauto.
Qed.

Lemma group_loop_at items :
  ∀ sheets log out,
    group_loop as_url as_size as_position sheets items = (log, Ok out) →
    NoDup (sheet_keys sheets ++ Dict.keys items) →
    ∀ u, emotes_at out u
         = emotes_at sheets u
           ++ (filter (λ ke : name_pair * PartialEmote,
                         image_url_of as_url ke.2 = Some u) items).*1.
Proof.
  induction items as [|[key raw] rest IH]; intros sheets log out.
  { intros [= _ <-] _ u. cbn. by rewrite app_nil_r. }
  intros (bg & url & e & l1 & l2 & Hbg & Hu & _ & Hrest & _)%group_loop_cons_inv
    Hnd u.
  assert (image_url_of as_url raw = Some url) as Hurl
    by (unfold image_url_of; by rewrite Hbg).
  change (Dict.keys ((key, raw) :: rest)) with (key :: Dict.keys rest) in *.
  rewrite <- Permutation_middle in Hnd. apply NoDup_cons in Hnd as [Hk0 Hnd].
  pose proof Hk0 as [Hk _]%not_elem_of_app.
  pose proof (add_emote_keys sheets url key e Hk) as Hp.
  assert (key ∉ emotes_at sheets url) as Hfresh
    by (intros Hin; by apply Hk, (emotes_at_sheet_keys sheets url)).
  rewrite (IH _ _ _ Hrest).
  2: { rewrite Hp. cbn. by apply NoDup_cons. }
  rewrite (add_emote_at sheets url key e u Hfresh).
  rewrite (filter_cons (λ ke : name_pair * PartialEmote,
                          image_url_of as_url ke.2 = Some u)).
  cbn [snd]. rewrite Hurl.
  destruct (decide (u = url)) as [->|Hne].
  - destruct (decide (Some url = Some url)); [|done].
    by rewrite <- app_assoc.
  - destruct (decide (Some url = Some u)) as [[= ->]|_]; done.
Qed.

(** X20.  The order of what [build_spritesheet_map] returns, on a map
    without repeated keys: the sheets come in the order in which their
    image URLs first occur among the emotes, and the sheet of a URL
    holds exactly the emotes of that URL, in the order of the map. *)
Theorem build_spritesheet_map_order emotes log sheets :
  Dict.wf emotes →
  build_spritesheet_map as_url as_size as_position emotes
  = (log, Ok sheets) →
  Dict.keys sheets
  = first_occurrences
      (omap (λ ke : name_pair * PartialEmote, image_url_of as_url ke.2)
         emotes)
  ∧ ∀ url,
      emotes_at sheets url
      = (filter (λ ke : name_pair * PartialEmote,
                   image_url_of as_url ke.2 = Some url) emotes).*1.
Proof.
  intros Hwf (l1 & s0 & Hg & ->)%build_spritesheet_map_inv. split.
  - destruct (verify_all_keys s0) as [-> _].
    rewrite (group_loop_urls emotes [] l1 s0 Hg).
    cbn [Dict.keys fmap list_fmap app].
    induction (first_occurrences _) as [|k ks IH]; [done|].
    rewrite (filter_cons (λ k, k ∉ [])).
    destruct (decide (k ∉ [])) as [_|Hn]; [by rewrite IH|].
    exfalso. apply Hn, not_elem_of_nil.
  - intros url. rewrite verify_all_at.
    by rewrite (group_loop_at emotes [] l1 s0 Hg).
Qed.
End OrderFacts.

Lemma build_spritesheet_map_order_witness :
  Dict.keys [("s.png", two_plain_sheet)]
  = first_occurrences
      (omap (λ ke : name_pair * PartialEmote,
               image_url_of (λ _, Some "s.png") ke.2) two_plain)
  ∧ ∀ url,
      emotes_at [("s.png", two_plain_sheet)] url
      = (filter (λ ke : name_pair * PartialEmote,
                   image_url_of (λ _, Some "s.png") ke.2 = Some url)
           two_plain).*1.
Proof.
  apply (build_spritesheet_map_order (λ _, Some "s.png") (λ _, Some 10%Z)
           (λ _ _ _, Some (0, 0)%Z) two_plain
           [WarnExtraProperty ("/b", None) "color" "red";
            ErrorMultipleUnsized "s.png" [("/a", None); ("/b", None)]]).
  - apply (bool_decide_unpack _). vm_compute. exact I.
  - vm_compute. reflexivity.
Defined.

(** ** Emotes that share a property dictionary *)


Lemma sheets_of_no_key_error {A B} (c : M (A * B)) :
  no_key_error (sheets_of c) ↔ no_key_error c.
Proof.
  unfold no_key_error, sheets_of. destruct c as [l [[a b]|e]]; cbn.
  - split; intros _ k; done.
  - split; intros H k [= ->]; by apply (H k).
Qed.

Lemma deref_map_write h r d (emotes : Store.emote_map) :
  r ∉ css_refs emotes →
  deref_map (Store.write h r d) emotes = deref_map h emotes.
Proof.
  unfold deref_map, css_refs. intros Hr. apply list_fmap_ext.
  intros i [k e] Hi. cbn [fst snd]. f_equal.
  unfold Store.deref, Store.write.
  destruct (decide (Store.css e = r)) as [<-|Hne]; [|done].
  exfalso. apply Hr. apply list_elem_of_fmap. exists (k, e).
  split; [done|]. by apply list_elem_of_lookup_2 in Hi.
Qed.

Section StoreFacts.
Variable as_url : string → option string.
Variable as_size : string → option Z.
Variable as_position : string → Z → Z → option (Z * Z).

(** When no dictionary is reached from two entries, the in-place pop is
    not seen by the entries that follow: the loop does what it does on
    emotes that each hold their own dictionary. *)
Lemma group_loop_owned (items : Store.emote_map) :
  ∀ h sheets,
    NoDup (css_refs items) →
    sheets_of (Store.group_loop as_url as_size as_position h sheets items)
    = group_loop as_url as_size as_position sheets (deref_map h items).
Proof.
  induction items as [|[key e] rest IH]; intros h sheets Hnd; [done|].
  change (css_refs ((key, e) :: rest)) with (Store.css e :: css_refs rest)
    in Hnd.
  apply NoDup_cons in Hnd as [Hfresh Hnd].
  change (deref_map h ((key, e) :: rest))
    with ((key, Store.deref h e) :: deref_map h rest).
  cbn [Store.group_loop group_loop]. cbn [css Store.deref].
  destruct (Dict.get (h (Store.css e)) "background-image") as [bg|] eqn:Hbg.
  2: { by rewrite (pop_missing _ _ Hbg). }
  rewrite (pop_present _ _ _ Hbg). cbn [mbind M_bind].
  destruct (as_url bg) as [url|] eqn:Hu.
  2: { by rewrite (call_None _ _ Hu). }
  rewrite (call_Some _ _ _ Hu). cbn [mbind M_bind app].
  set (css' := Dict.del (h (Store.css e)) "background-image").
  assert (Store.deref (Store.write h (Store.css e) css') e
          = set_css (mkPartial (Store.name e) (Store.suffix e)
                       (h (Store.css e))) css') as ->.
  { unfold Store.deref, Store.write, set_css. cbn.
    by destruct (decide (Store.css e = Store.css e)). }
  destruct (_convert_emote as_size as_position key url _)
    as [l1 [emote|ex]]; [|done].
  cbn [mbind M_bind].
  match goal with
  | |- context [Store.group_loop _ _ _ ?h' ?s' rest] =>
      specialize (IH h' s' Hnd);
      rewrite (deref_map_write h (Store.css e) css' rest Hfresh) in IH;
      rewrite <- IH;
      destruct (Store.group_loop as_url as_size as_position h' s' rest)
        as [l2 [[h2 s2]|ex]]
  end; done.
Qed.

Lemma build_spritesheet_map_owned (emotes : Store.emote_map) h :
  NoDup (css_refs emotes) →
  sheets_of (Store.build_spritesheet_map as_url as_size as_position h emotes)
  = build_spritesheet_map as_url as_size as_position (deref_map h emotes).
Proof.
  intros Hnd. unfold Store.build_spritesheet_map, build_spritesheet_map.
  rewrite <- (group_loop_owned emotes h [] Hnd).
  destruct (Store.group_loop as_url as_size as_position h [] emotes)
    as [l [[h' s]|ex]]; [|done].
  unfold sheets_of, lift, mbind, M_bind, mret, M_ret. cbn.
  by rewrite app_nil_r.
Qed.

Lemma deref_map_normal h (emotes : Store.emote_map) :
  Forall (λ ke, is_normal ke.2 = true) (deref_map h emotes)
  ↔ Forall (λ ke : name_pair * Store.Emote,
              is_normal (Store.deref h ke.2) = true) emotes.
Proof. unfold deref_map. by rewrite Forall_fmap. Qed.


(** X16.  On emotes that all have background-image, width and height,
    no property dictionary being reached from two entries of the map,
    [build_spritesheet_map] never raises a KeyError, whatever the css
    utilities do: it returns, or fails with an error of a utility. *)
Theorem build_spritesheet_map_no_key_error h (emotes : Store.emote_map) :
  NoDup (css_refs emotes) →
  Forall (λ ke : name_pair * Store.Emote,
            is_normal (Store.deref h ke.2) = true) emotes →
  no_key_error
    (Store.build_spritesheet_map as_url as_size as_position h emotes).
Proof.
  intros Hnd Hn.
  rewrite <- sheets_of_no_key_error,
    (build_spritesheet_map_owned emotes h Hnd).
  unfold build_spritesheet_map. apply no_key_error_bind.
  - apply group_loop_no_key_error. by apply deref_map_normal.
  - intros sheets _ k. done.
Qed.
End StoreFacts.

Lemma css_refs_cons k e (rest : Store.emote_map) :
  css_refs ((k, e) :: rest) = Store.css e :: css_refs rest.
Proof. reflexivity. Qed.

Lemma css_refs_set_item (normal : Store.emote_map) key e (refs : list nat) :
  NoDup (css_refs normal ++ Store.css e :: refs) →
  NoDup (css_refs (Dict.set_item normal key e) ++ refs).
Proof.
  induction normal as [|[k0 e0] normal IH]; [done|].
  cbn [Dict.set_item]. destruct (decide (k0 = key)) as [->|Hne].
  - rewrite !css_refs_cons. cbn [app]. rewrite <- Permutation_middle.
    by intros [_ H]%NoDup_cons.
  - rewrite !css_refs_cons. cbn [app]. rewrite !NoDup_cons.
    intros [H1 H2]. split; [|by apply IH].
    rewrite elem_of_app in *. intros [Hin|Hin].
    + unfold css_refs in Hin.
      apply list_elem_of_fmap in Hin as ([k1 e1] & Heq & Hin).
      apply elem_of_set_item in Hin as [Hin|[_ ->]].
      * apply H1. left. unfold css_refs.
        apply list_elem_of_fmap. by exists (k1, e1).
      * apply H1. right. cbn in Heq. rewrite Heq. left.
    + apply H1. right. by right.
Qed.

(** What [classify_emotes] calls normal has the required properties,
    and no dictionary is reached from two of its entries when none is
    from two entries of the map handed in. *)
Lemma classify_loop_owned h (items : Store.emote_map) :
  ∀ normal custom,
    Forall (λ ke : name_pair * Store.Emote,
              is_normal (Store.deref h ke.2) = true) normal →
    NoDup (css_refs normal ++ css_refs items) →
    Forall (λ ke : name_pair * Store.Emote,
              is_normal (Store.deref h ke.2) = true)
           (Store.classify_loop h normal custom items).1
    ∧ NoDup (css_refs (Store.classify_loop h normal custom items).1).
Proof.
  induction items as [|[key e] rest IH]; intros normal custom Hn Hnd.
  { cbn. rewrite app_nil_r in Hnd. done. }
  cbn [Store.classify_loop].
  change (css_refs ((key, e) :: rest)) with (Store.css e :: css_refs rest)
    in Hnd.
  destruct (is_normal (Store.deref h e)) eqn:He.
  - apply IH.
    + apply Forall_set_item; [done|]. by intros ? ->.
    + by apply css_refs_set_item.
  - apply IH; [done|]. rewrite <- Permutation_middle in Hnd.
    by apply NoDup_cons in Hnd as [_ ?].
Qed.

(** X17.  The stages compose: when no property dictionary is reached
    from two entries of the emote map, [build_spritesheet_map] raises no
    KeyError on the normal map of [classify_emotes]. *)
Theorem classified_emotes_raise_no_key_error as_url as_size as_position
    h (emotes : Store.emote_map) :
  NoDup (css_refs emotes) →
  no_key_error
    (Store.build_spritesheet_map as_url as_size as_position h
       (Store.classify_emotes h emotes).1).
Proof.
  intros Hnd. unfold Store.classify_emotes.
  destruct (classify_loop_owned h emotes [] []) as [Hn Hnd'];
    [constructor|done|].
  rewrite <- sheets_of_no_key_error,
    (build_spritesheet_map_owned as_url as_size as_position _ h Hnd').
  unfold build_spritesheet_map. apply no_key_error_bind.
  - apply group_loop_no_key_error. by apply deref_map_normal.
  - intros sheets _ k. done.
Qed.

(** One dictionary under two keys: the second pop finds no
    "background-image", though both emotes were classified normal. *)
Example shared_css_raises :
  (Store.classify_emotes one_css shared_twice).1 = shared_twice
  ∧ (Store.build_spritesheet_map (λ _, Some "s.png") (λ _, Some 10%Z)
       (λ _ _ _, Some (0, 0)%Z) one_css shared_twice).2
    = Raise (KeyError "background-image").
Proof. split; vm_compute; reflexivity. Qed.


Lemma build_spritesheet_map_no_key_error_witness :
  no_key_error (Store.build_spritesheet_map (λ _, None) (λ _, Some 10%Z)
                  (λ _ _ _, Some (0, 0)%Z) one_css owned_twice).
Proof.
  apply (build_spritesheet_map_no_key_error (λ _, None) (λ _, Some 10%Z)
           (λ _ _ _, Some (0, 0)%Z) one_css owned_twice).
  - apply (bool_decide_unpack _). vm_compute. exact I.
  - repeat constructor.
Defined.

Lemma classified_emotes_raise_no_key_error_witness :
  no_key_error
    (Store.build_spritesheet_map (λ _, Some "s.png") (λ _, Some 10%Z)
       (λ _ _ _, Some (0, 0)%Z) one_css
       (Store.classify_emotes one_css owned_twice).1).
Proof.
  apply (classified_emotes_raise_no_key_error (λ _, Some "s.png")
           (λ _, Some 10%Z) (λ _ _ _, Some (0, 0)%Z) one_css owned_twice).
  apply (bool_decide_unpack _). vm_compute. exact I.
Defined.

(** ** Validation within build_spritesheet_map *)

Section ValidationFacts.
Variable as_url : string → option string.
Variable as_size : string → option Z.
Variable as_position : string → Z → Z → option (Z * Z).

Lemma convert_emote_offset key image_url raw log e :
  _convert_emote as_size as_position key image_url raw = (log, Ok e) →
  n_offset e = None ↔ Dict.get (css raw) "background-position" = None.
Proof.
  intros Hr.
  pose proof (convert_emote_cases as_size as_position key image_url raw)
    as Hc.
  cbn zeta in Hc. rewrite Hr in Hc.
  repeat match type of Hc with
         | match ?x with _ => _ end => destruct x; try discriminate
         end;
    by destruct Hc as [? [= _ ->]].
Qed.

Lemma convert_emote_log key image_url raw m :
  m ∈ (_convert_emote as_size as_position key image_url raw).1 →
  ∃ p v, m = WarnExtraProperty key p v.
Proof.
  pose proof (convert_emote_cases as_size as_position key image_url raw)
    as Hc.
  cbn zeta in Hc.
  assert (∀ d, m ∈ extra_properties key d →
               ∃ p v, m = WarnExtraProperty key p v) as Hextra.
  { intros d. rewrite extra_properties_spec.
    intros ([p v] & -> & _)%list_elem_of_fmap. by exists p, v. }
  repeat match type of Hc with
         | match ?x with _ => _ end => destruct x
         | ∃ _, _ => destruct Hc as [? Hc]
         end; rewrite Hc; cbn [fst];
    first [apply Hextra | intros H; by apply elem_of_nil in H].
Qed.

Lemma group_loop_log items :
  ∀ sheets m,
    m ∈ (group_loop as_url as_size as_position sheets items).1 →
    ∃ key p v, m = WarnExtraProperty key p v.
Proof.
  induction items as [|[key raw] rest IH]; intros sheets m.
  { intros H. by apply elem_of_nil in H. }
  rewrite group_loop_cons.
  destruct (Dict.get (css raw) "background-image") as [bg|] eqn:Hbg.
  2: { rewrite (pop_missing _ _ Hbg). intros H. by apply elem_of_nil in H. }
  rewrite (pop_present _ _ _ Hbg). cbn [mbind M_bind].
  destruct (as_url bg) as [url|] eqn:Hu.
  2: { rewrite (call_None _ _ Hu). intros H. by apply elem_of_nil in H. }
  rewrite (call_Some _ _ _ Hu). cbn [mbind M_bind app].
  pose proof (convert_emote_log key url
                (set_css raw (Dict.del (css raw) "background-image")) m)
    as Hconv.
  destruct (_convert_emote as_size as_position key url _)
    as [l1 [e|ex]]; cbn [fst] in Hconv.
  - cbn [mbind M_bind].
    specialize (IH (add_emote sheets url key e) m).
    destruct (group_loop as_url as_size as_position
                (add_emote sheets url key e) rest) as [l2 r].
    cbn [fst] in *. intros [H|H]%elem_of_app.
    + destruct (Hconv H) as (p & v & ->). by exists key, p, v.
    + by apply IH.
  - cbn [mbind M_bind fst]. intros H.
    destruct (Hconv H) as (p & v & ->). by exists key, p, v.
Qed.

Lemma add_emote_offsets emotes sheets url key raw emote :
  (key, raw) ∈ emotes →
  (n_offset emote = None
   ↔ Dict.get (css raw) "background-position" = None) →
  offsets_from emotes sheets →
  offsets_from emotes (add_emote sheets url key emote).
Proof.
  intros Hin Hoff Hfrom u s0 k e0.
  destruct (add_emote_spec sheets url key emote) as (ss & Hss & ->).
  intros [Hold|[-> ->]]%elem_of_set_item; [by apply (Hfrom u s0 k e0)|].
  cbn [ss_emotes]. intros [Hk|[-> ->]]%elem_of_set_item.
  - destruct Hss as [[_ ->]|Hg]; [by apply elem_of_nil in Hk|].
    apply (Hfrom url ss); [by apply get_Some_elem|done].
  - by exists raw.
Qed.

Lemma group_loop_offsets emotes items :
  ∀ sheets log out,
    group_loop as_url as_size as_position sheets items = (log, Ok out) →
    (∀ x, x ∈ items → x ∈ emotes) →
    offsets_from emotes sheets →
    offsets_from emotes out.
Proof.
  induction items as [|[key raw] rest IH]; intros sheets log out.
  { by intros [= _ <-]. }
  intros (bg & url & e & l1 & l2 & Hbg & Hu & Hc & Hrest & _)%group_loop_cons_inv
    Hsub Hfrom.
  apply convert_emote_offset in Hc. cbn [css set_css] in Hc.
  rewrite get_del_ne in Hc by done.
  apply (IH _ _ _ Hrest).
  - intros x Hx. apply Hsub. by right.
  - apply (add_emote_offsets emotes sheets url key raw); try done.
    apply Hsub. by left.
Qed.

(** C8.  [_verify_spritesheet] leaves every emote of the sheet with an
    offset: an emote without one gets (0, 0) and is otherwise unchanged,
    an emote with one is unchanged.  It prints one error, naming the
    spritesheet and the keys of all emotes that had no offset, if more
    than one emote had none, and nothing otherwise.
    [build_spritesheet_map] validates every sheet of the grouping with
    it, under the URL of the sheet: when the grouping has produced the
    sheets it returns them validated, in their order, after printing
    the messages of the grouping and then those of each validation, and
    never raises because of a validation.  So, whenever it returns,
    every emote of every returned sheet has an offset, (0, 0) if the
    emote it was converted from had no background-position; and the
    error for a sheet and a list of keys is printed exactly when the
    keys are those of the emotes of that sheet without an offset after
    the grouping, and are more than one; these are keys of emotes
    without a background-position. *)
Theorem verify_spritesheet_offsets :
  (∀ image_url ss,
     let ss' := (_verify_spritesheet image_url ss).1 in
     let log := (_verify_spritesheet image_url ss).2 in
     ss_image_url ss' = ss_image_url ss
     ∧ ss_emotes ss' = (λ ke, (ke.1, with_offset ke.2)) <$> ss_emotes ss
     ∧ (∀ e, n_offset e = None →
          with_offset e
          = mkNormal (n_name e) (n_suffix e) (n_css e) (n_image_url e)
              (n_size e) (Some (0, 0)%Z))
     ∧ (∀ e, is_Some (n_offset e) → with_offset e = e)
     ∧ (∀ key e, (key, e) ∈ ss_emotes ss' → is_Some (n_offset e))
     ∧ log = (if decide (1 < length (unpositioned (ss_emotes ss)))
              then [ErrorMultipleUnsized image_url
                      (unpositioned (ss_emotes ss))]
              else [])
     ∧ (∀ key, key ∈ unpositioned (ss_emotes ss) ↔
          ∃ e, (key, e) ∈ ss_emotes ss ∧ n_offset e = None)
     ∧ (log ≠ [] ↔ 1 < length (unpositioned (ss_emotes ss))))
  ∧ (∀ emotes,
       build_spritesheet_map as_url as_size as_position emotes
       = match group_loop as_url as_size as_position [] emotes with
         | (log, Ok sheets) =>
             (log ++ concat ((λ us : string * Spritesheet,
                                (_verify_spritesheet us.1 us.2).2)
                               <$> sheets),
              Ok ((λ us : string * Spritesheet,
                     (us.1, (_verify_spritesheet us.1 us.2).1))
                    <$> sheets))
         | (log, Raise e) => (log, Raise e)
         end)
  ∧ (∀ emotes log sheets,
       build_spritesheet_map as_url as_size as_position emotes
       = (log, Ok sheets) →
       (∀ image_url ss key e,
          (image_url, ss) ∈ sheets → (key, e) ∈ ss_emotes ss →
          is_Some (n_offset e)
          ∧ ∃ raw, (key, raw) ∈ emotes
                   ∧ (Dict.get (css raw) "background-position" = None →
                      n_offset e = Some (0, 0)%Z))
       ∧ ∃ log0 sheets0,
           group_loop as_url as_size as_position [] emotes
           = (log0, Ok sheets0)
           ∧ Dict.keys sheets = Dict.keys sheets0
           ∧ (∀ image_url ss0,
                (image_url, ss0) ∈ sheets0 →
                (image_url,
                 mkSheet (ss_image_url ss0)
                   ((λ ke, (ke.1, with_offset ke.2)) <$> ss_emotes ss0))
                  ∈ sheets)
           ∧ (∀ image_url keys,
                ErrorMultipleUnsized image_url keys ∈ log ↔
                  ∃ ss0, (image_url, ss0) ∈ sheets0
                         ∧ keys = unpositioned (ss_emotes ss0)
                         ∧ 1 < length keys)
           ∧ (∀ image_url ss0 key,
                (image_url, ss0) ∈ sheets0 →
                key ∈ unpositioned (ss_emotes ss0) →
                ∃ raw, (key, raw) ∈ emotes
                       ∧ Dict.get (css raw) "background-position" = None)).
Proof.
  assert (∀ emotes,
       build_spritesheet_map as_url as_size as_position emotes
       = match group_loop as_url as_size as_position [] emotes with
         | (log, Ok sheets) =>
             (log ++ concat ((λ us : string * Spritesheet,
                                (_verify_spritesheet us.1 us.2).2)
                               <$> sheets),
              Ok ((λ us : string * Spritesheet,
                     (us.1, (_verify_spritesheet us.1 us.2).1))
                    <$> sheets))
         | (log, Raise e) => (log, Raise e)
         end) as Hbuild.
  { intros emotes. unfold build_spritesheet_map, mbind, M_bind, lift.
    destruct (group_loop _ _ _ [] emotes) as [log [sheets|e]]; [|done].
    destruct (verify_all_spec sheets) as [<- <-].
    by destruct (verify_all sheets). }
  split; [|split].
  - intros image_url ss ss' log. subst ss' log.
    rewrite verify_spritesheet_spec. cbn [fst snd ss_image_url ss_emotes].
    split; [done|]. split; [done|]. split.
    { intros e He. unfold with_offset. by rewrite He. }
    split.
    { intros e [o He]. unfold with_offset. by rewrite He. }
    split.
    { intros key e ([k0 e0] & [= -> ->] & _)%list_elem_of_fmap.
      apply with_offset_is_Some. }
    split; [done|]. split.
    + intros key. unfold unpositioned. rewrite list_elem_of_fmap. split.
      * intros ([k e] & -> & [Ho Hin]%list_elem_of_filter). by exists e.
      * intros (e & Hin & Ho). exists (key, e). split; [done|].
        by apply list_elem_of_filter.
    + destruct (decide (1 < length (unpositioned (ss_emotes ss)))); split;
        intros; try done; try lia.
  - exact Hbuild.
  - intros emotes log sheets Hb. rewrite Hbuild in Hb.
    pose proof (group_loop_log emotes []) as Hlog.
    pose proof (group_loop_offsets emotes emotes []) as Hoff.
    destruct (group_loop _ _ _ [] emotes) as [log0 [sheets0|ex]];
      [|discriminate].
    injection Hb as <- <-. cbn [fst] in Hlog.
    specialize (Hoff log0 sheets0 eq_refl (λ x H, H)).
    assert (offsets_from emotes sheets0) as Hfrom.
    { apply Hoff. intros ? ? ? ? Hin. by apply elem_of_nil in Hin. }
    clear Hoff. split.
    + intros image_url ss key e
        ([u s0] & [= -> ->] & Hin)%list_elem_of_fmap.
      cbn [fst snd]. rewrite verify_spritesheet_spec.
      cbn [fst snd ss_emotes].
      intros ([k0 e0] & [= -> ->] & Hin0)%list_elem_of_fmap.
      cbn [fst snd]. split; [apply with_offset_is_Some|].
      destruct (Hfrom u s0 k0 e0 Hin Hin0) as (raw & Hraw & Hiff).
      exists raw. split; [done|]. intros Hbp. apply Hiff in Hbp.
      unfold with_offset. by rewrite Hbp.
    + exists log0, sheets0. split; [done|]. split.
      { unfold Dict.keys. rewrite <- list_fmap_compose.
        by apply list_fmap_ext. }
      split.
      { intros image_url ss0 Hin. apply list_elem_of_fmap.
        exists (image_url, ss0). split; [|done].
        cbn [fst snd]. by rewrite verify_spritesheet_spec. }
      split.
      2: { intros image_url ss0 key Hin Hk. unfold unpositioned in Hk.
           apply list_elem_of_fmap in Hk
             as ([k e] & -> & [Ho Hin0]%list_elem_of_filter).
           cbn [fst snd] in *.
           destruct (Hfrom image_url ss0 k e Hin Hin0) as (raw & Hraw & Hiff).
           exists raw. split; [done|]. by apply Hiff. }
      intros image_url keys. rewrite elem_of_app, elem_of_concat. split.
      * intros [H|(l & Hm & Hl)].
        { by destruct (Hlog _ H) as (? & ? & ? & ?). }
        apply list_elem_of_fmap in Hl as ([u s0] & -> & Hin).
        cbn [fst snd] in Hm. rewrite verify_spritesheet_spec in Hm.
        cbn [snd] in Hm.
        destruct (decide (1 < length (unpositioned (ss_emotes s0))))
          as [Hlen|Hlen]; [|by apply elem_of_nil in Hm].
        apply list_elem_of_singleton in Hm as [= -> ->].
        by exists s0.
      * intros (ss0 & Hin & -> & Hlen). right.
        exists (_verify_spritesheet image_url ss0).2. split.
        -- rewrite verify_spritesheet_spec. cbn [snd].
           destruct (decide (1 < length (unpositioned (ss_emotes ss0))));
             [|done].
           apply list_elem_of_singleton. done.
        -- apply list_elem_of_fmap. by exists (image_url, ss0).
Qed.
End ValidationFacts.

Lemma verify_spritesheet_offsets_witness :
  _verify_spritesheet "s.png" sheet_two_unpositioned
  = (mkSheet "s.png"
       [(("/a", None),
         mkNormal "/a" None [] "s.png" (10, 10)%Z (Some (0, 0)%Z));
        (("/b", None),
         mkNormal "/b" None [] "s.png" (10, 10)%Z (Some (-10, 0)%Z));
        (("/c", Some ":hover"),
         mkNormal "/c" (Some ":hover") [] "s.png" (10, 10)%Z
           (Some (0, 0)%Z))],
     [ErrorMultipleUnsized "s.png" [("/a", None); ("/c", Some ":hover")]])
  ∧ build_spritesheet_map (λ _, Some "s.png") (λ _, Some 10%Z)
      (λ _ _ _, Some (0, 0)%Z) two_plain
    = ([WarnExtraProperty ("/b", None) "color" "red";
        ErrorMultipleUnsized "s.png" [("/a", None); ("/b", None)]],
       Ok [("s.png", two_plain_sheet)]).
Proof.
  destruct (verify_spritesheet_offsets (λ _, Some "s.png") (λ _, Some 10%Z)
              (λ _ _ _, Some (0, 0)%Z)) as (Hv & Hb & _).
  split.
  - destruct (Hv "s.png" sheet_two_unpositioned)
      as (Hurl & Hem & _ & _ & _ & Hlog & _).
    cbn zeta in *.
    destruct (_verify_spritesheet "s.png" sheet_two_unpositioned)
      as [[u ems] log].
    cbn [fst snd ss_image_url ss_emotes] in *.
    rewrite Hurl, Hem, Hlog. vm_compute. reflexivity.
  - rewrite (Hb two_plain). vm_compute. reflexivity.
Defined.
